(** * sync-publications: the bibliography pipeline of the site generator

    A shallow embedding of the publication script of the repository (the
    revision with thesis support, author highlighting and patent status;
    [scripts/sync-publications.mjs] is an earlier revision of the same file
    whose [parseBib], [readBibValue], [bibToText], [cleanEntries],
    [getYear], [generatePublicationHtml], [escapeHtml] and [writeCleanBib]
    are textually identical up to the constant tables).

    Conventions of the embedding.
    - A JavaScript string is the list of its UTF-16 code units ([N]).
    - A cursor [i] into a text [tex] is represented by the suffix
      [drop i tex] still to be read; [tex.slice(a, i)] is the prefix that
      a scan has consumed.  Index-based wrappers are given where a claim
      speaks about positions.
    - Loops that advance the cursor by one unit per iteration are structural
      recursions on the suffix.  Loops whose body advances by a computed
      amount carry an explicit fuel and return [None] when it runs out; the
      theorems show that the fuel handed over by the entry points always
      suffices.
    - [undefined] and the empty string are both falsy and every property
      read of the script goes through a truthiness test (or a template that
      is guarded by one), so reading an absent field yields the empty
      string.
    - Built-ins whose tables are not part of the repository (Unicode case
      mapping and character properties outside ASCII, [localeCompare],
      [Number] on strings, the file-system probe) are the fields of the class
      [Host].
    - The files and the clock are inputs and outputs of the functions that
      use them: [writeCleanBib] returns the text it writes, and [updateIndex]
      takes the text of [index.html] and the date that [toLocaleString]
      prints, and returns the error it throws or the text it writes back. *)

From Stdlib Require Import NArith ZArith List Bool Lia Permutation Sorted.
From Stdlib Require Import QArith Qcanon.
From Stdlib Require Strings.String Strings.Ascii.
From stdpp Require Import base decidable countable list gmap fin_maps.
Import String.StringSyntax.
Delimit Scope string_scope with string.

Local Open Scope N_scope.
Local Open Scope list_scope.

(** ** Strings as code-unit sequences *)

Abbreviation char := N (only parsing).
Abbreviation jsstring := (list N) (only parsing).

Fixpoint js (s : String.string) : jsstring :=
  match s with
  | String.EmptyString => []
  | String.String a r => Ascii.N_of_ascii a :: js r
  end.
Arguments js s%_string.

Module Ch.
Definition tab : char := 9.
Definition nl : char := 10.
Definition space : char := 32.
Definition dquote : char := 34.
Definition hash : char := 35.
Definition percent : char := 37.
Definition amp : char := 38.
Definition comma : char := 44.
Definition minus : char := 45.
Definition dot : char := 46.
Definition slash : char := 47.
Definition lt : char := 60.
Definition equals : char := 61.
Definition gt : char := 62.
Definition question : char := 63.
Definition at_sign : char := 64.
Definition backslash : char := 92.
Definition underscore : char := 95.
Definition lbrace : char := 123.
Definition rbrace : char := 125.
End Ch.

(** [/\s/]: WhiteSpace and LineTerminator of ECMAScript; the same set is
    stripped by [String.prototype.trim]. *)
Definition isSpace (c : char) : bool :=
  ((9 <=? c) && (c <=? 13)) || (c =? 32) || (c =? 160) || (c =? 5760)
  || ((8192 <=? c) && (c <=? 8202)) || (c =? 8232) || (c =? 8233)
  || (c =? 8239) || (c =? 8287) || (c =? 12288) || (c =? 65279).

Definition isUpper (c : char) : bool := (65 <=? c) && (c <=? 90).
Definition isLower (c : char) : bool := (97 <=? c) && (c <=? 122).
Definition isDigit (c : char) : bool := (48 <=? c) && (c <=? 57).
(** [/[A-Za-z]/] *)
Definition isAlpha (c : char) : bool := isUpper c || isLower c.
(** [/[A-Za-z0-9_-]/] *)
Definition isNameChar (c : char) : bool :=
  isAlpha c || isDigit c || (c =? Ch.underscore) || (c =? Ch.minus).
(** [/\s|,/] *)
Definition isSpaceOrComma (c : char) : bool := isSpace c || (c =? Ch.comma).
Definition isAscii (c : char) : bool := c <? 128.

Definition lowerChar (c : char) : char := if isUpper c then c + 32 else c.
Definition upperChar (c : char) : char := if isLower c then c - 32 else c.

(** [toLowerCase] on a slice made of [[A-Za-z0-9_-]] only, where it is the
    ASCII case folding unit by unit. *)
Definition toLowerAscii (s : jsstring) : jsstring := map lowerChar s.

(** [while (i < tex.length && p(tex[i])) i += 1], as the suffix reached and
    as the slice consumed. *)
Fixpoint skipWhile (p : char -> bool) (rest : jsstring) : jsstring :=
  match rest with
  | c :: r => if p c then skipWhile p r else rest
  | [] => []
  end.

Fixpoint takeWhile (p : char -> bool) (rest : jsstring) : jsstring :=
  match rest with
  | c :: r => if p c then c :: takeWhile p r else []
  | [] => []
  end.

Definition trimStart (s : jsstring) : jsstring := skipWhile isSpace s.
Definition trimEnd (s : jsstring) : jsstring := rev (skipWhile isSpace (rev s)).
Definition trim (s : jsstring) : jsstring := trimEnd (trimStart s).

Fixpoint startsWith (pat s : jsstring) : bool :=
  match pat, s with
  | [], _ => true
  | p :: pat', c :: s' => (c =? p) && startsWith pat' s'
  | _ :: _, [] => false
  end.

Definition endsWith (pat s : jsstring) : bool := startsWith (rev pat) (rev s).

(** [s.slice(1, -1)] *)
Definition sliceInner (s : jsstring) : jsstring := removelast (tl s).

(** [tex.indexOf(c, i)]: the suffix after the first occurrence, if any. *)
Fixpoint afterFirst (c : char) (rest : jsstring) : option jsstring :=
  match rest with
  | [] => None
  | x :: r => if x =? c then Some r else afterFirst c r
  end.

(** [a.join(sep)] *)
Fixpoint join (sep : jsstring) (l : list jsstring) : jsstring :=
  match l with
  | [] => []
  | [x] => x
  | x :: r => x ++ sep ++ join sep r
  end.

(** ** Entries *)

Record Entry := mkEntry {
  type : jsstring;
  key : jsstring;
  fields : gmap jsstring jsstring
}.

(** [obj[name] = value] on an object created by [{}]: an own property is
    written, except for the name [__proto__], whose inherited setter ignores
    a string. *)
Definition protoName : jsstring := js "__proto__".

Definition objSet (name value : jsstring) (o : gmap jsstring jsstring)
  : gmap jsstring jsstring :=
  if decide (name = protoName) then o else <[name := value]> o.

(** [f.name] for the field names the script reads (none of them is a
    property of [Object.prototype]). *)
Definition field (o : gmap jsstring jsstring) (name : String.string) : jsstring :=
  default [] (o !! js name).
Arguments field o name%_string.

Definition truthy (s : jsstring) : bool :=
  match s with [] => false | _ :: _ => true end.

(** [a || b] on strings *)
Definition orElse (a b : jsstring) : jsstring := if truthy a then a else b.

(** ** readBibValue *)

(** The brace loop: returns the slice read and the suffix at the cursor. *)
Fixpoint readBraced (depth : Z) (rest : jsstring) : jsstring * jsstring :=
  match rest with
  | [] => ([], [])
  | c :: r =>
      if c =? Ch.lbrace then
        let '(v, r') := readBraced (depth + 1) r in (c :: v, r')
      else if c =? Ch.rbrace then
        if (depth - 1 =? 0)%Z then ([c], r)
        else let '(v, r') := readBraced (depth - 1) r in (c :: v, r')
      else
        let '(v, r') := readBraced depth r in (c :: v, r')
  end.

(** The quote loop; [prev] is [tex[i - 1]]. *)
Fixpoint readQuoted (prev : char) (rest : jsstring) : jsstring * jsstring :=
  match rest with
  | [] => ([], [])
  | c :: r =>
      if (c =? Ch.dquote) && negb (prev =? Ch.backslash) then ([], rest)
      else let '(v, r') := readQuoted c r in (c :: v, r')
  end.

Definition isBareChar (c : char) : bool :=
  negb (c =? Ch.comma) && negb (c =? Ch.rbrace).

Definition readBibValueAt (rest : jsstring) : jsstring * jsstring :=
  match rest with
  | c :: r =>
      if c =? Ch.lbrace then readBraced 0 rest
      else if c =? Ch.dquote then
        let '(v, r') := readQuoted c r in
        (v, match r' with
            | q :: r'' => if q =? Ch.dquote then r'' else r'
            | [] => r'
            end)
      else (takeWhile isBareChar rest, skipWhile isBareChar rest)
  | [] => ([], [])
  end.

(** [readBibValue(tex, start)] with the cursor as an index: the value and
    [next]. *)
Definition readBibValue (tex : jsstring) (start : nat) : jsstring * nat :=
  let rest := drop start tex in
  let '(v, r) := readBibValueAt rest in
  (v, (start + (length rest - length r))%nat).

(** ** parseBib *)

(** The field loop of one record.  [None] is fuel exhaustion only. *)
Fixpoint parseFields (fuel : nat) (rest : jsstring)
    (acc : gmap jsstring jsstring)
  : option (gmap jsstring jsstring * jsstring) :=
  match fuel with
  | O => None
  | S fuel' =>
      match rest with
      | [] => Some (acc, [])
      | _ :: _ =>
          let r1 := skipWhile isSpaceOrComma rest in
          match r1 with
          | c :: r2 =>
              if c =? Ch.rbrace then Some (acc, r2)
              else
                let name := toLowerAscii (takeWhile isNameChar r1) in
                let r3 := skipWhile isSpace (skipWhile isNameChar r1) in
                match r3 with
                | e :: r4 =>
                    if e =? Ch.equals then
                      let r5 := skipWhile isSpace r4 in
                      let '(value, r6) := readBibValueAt r5 in
                      parseFields fuel' r6 (objSet name (trim value) acc)
                    else Some (acc, r3)
                | [] => Some (acc, r3)
                end
          | [] => Some (acc, [])
          end
      end
  end.

(** One iteration of the outer loop from just after the located [@]: the
    entry pushed, if any, and the suffix at which scanning resumes. *)
Definition parseRecord (fuel : nat) (rest : jsstring)
  : option (option Entry * jsstring) :=
  let r1 := skipWhile isSpace rest in
  let ty := toLowerAscii (takeWhile isAlpha r1) in
  let r3 := skipWhile isSpace (skipWhile isAlpha r1) in
  match r3 with
  | b :: r4 =>
      if b =? Ch.lbrace then
        let r5 := skipWhile isSpace r4 in
        let notComma c := negb (c =? Ch.comma) in
        let k := trim (takeWhile notComma r5) in
        match skipWhile notComma r5 with
        | _ :: r7 =>
            match parseFields fuel r7 ∅ with
            | Some (fs, r8) => Some (Some (mkEntry ty k fs), r8)
            | None => None
            end
        | [] => Some (None, [])
        end
      else Some (None, r3)
  | [] => Some (None, [])
  end.

Fixpoint parseLoop (fuel : nat) (rest : jsstring) (entries : list Entry)
  : option (list Entry) :=
  match fuel with
  | O => None
  | S fuel' =>
      match rest with
      | [] => Some entries
      | _ :: _ =>
          match afterFirst Ch.at_sign rest with
          | None => Some entries
          | Some r0 =>
              match parseRecord fuel' r0 with
              | Some (oe, r) =>
                  parseLoop fuel' r
                    (match oe with Some e => entries ++ [e] | None => entries end)
              | None => None
              end
          end
      end
  end.

Definition parseBibFuel (tex : jsstring) : nat := S (length tex).

Definition parseBib (tex : jsstring) : list Entry :=
  default [] (parseLoop (parseBibFuel tex) tex []).

(** ** bibToText *)

Definition isBrace (c : char) : bool := (c =? Ch.lbrace) || (c =? Ch.rbrace).

(** [while (out.startsWith("{") && out.endsWith("}")) out = out.slice(1, -1).trim()] *)
Fixpoint stripOuterBraces (fuel : nat) (out : jsstring) : jsstring :=
  match fuel with
  | O => out
  | S fuel' =>
      if startsWith [Ch.lbrace] out && endsWith [Ch.rbrace] out
      then stripOuterBraces fuel' (trim (sliceInner out))
      else out
  end.

(** [s.replace(/[{}]/g, "")] *)
Definition removeBraces (s : jsstring) : jsstring :=
  List.filter (fun c => negb (isBrace c)) s.

(** [s.replace(/\\c/g, "c")] for a punctuation unit [c] *)
Fixpoint unescape (c : char) (s : jsstring) : jsstring :=
  match s with
  | [] => []
  | x :: t =>
      match t with
      | y :: r =>
          if (x =? Ch.backslash) && (y =? c) then c :: unescape c r
          else x :: unescape c t
      | [] => [x]
      end
  end.

(** [s.replace(/p+/g, by)] for a class [p]; [inRun] tells that the previous
    unit was in the class. *)
Fixpoint collapseRuns (p : char -> bool) (by_ : char) (inRun : bool)
    (s : jsstring) : jsstring :=
  match s with
  | [] => []
  | c :: r =>
      if p c then
        if inRun then collapseRuns p by_ true r
        else by_ :: collapseRuns p by_ true r
      else c :: collapseRuns p by_ false r
  end.

(** [s.replace(/\s+/g, " ")] *)
Definition collapseSpaces (s : jsstring) : jsstring :=
  collapseRuns isSpace Ch.space false s.

Definition bibToText (value : jsstring) : jsstring :=
  if negb (truthy value) then []
  else
    let out := trim value in
    let out := stripOuterBraces (length out) out in
    trim (collapseSpaces
            (unescape Ch.percent
               (unescape Ch.comma
                  (unescape Ch.amp (removeBraces out))))).

(** ** Numbers

    A JavaScript number as far as the script observes it: [NaN], the two
    infinities, and a finite value (the two zeros are never told apart: both
    are falsy and compare equal). *)
Inductive jsnum :=
  | NaN
  | NegInf
  | Fin (q : Qc)
  | PosInf.

(** [x || 0] *)
Definition numOrZero (x : jsnum) : jsnum :=
  match x with
  | NaN => Fin 0%Qc
  | _ => x
  end.

(** [a !== b] *)
Definition numDiffer (a b : jsnum) : bool :=
  match a, b with
  | NaN, _ | _, NaN => true
  | NegInf, NegInf | PosInf, PosInf => false
  | Fin p, Fin q => match (p ?= q)%Qc with Eq => false | _ => true end
  | _, _ => true
  end.

(** The sign of [a - b] as a sort comparator result: a [NaN] difference
    counts as [+0]; the difference of two distinct doubles is never zero and
    has the sign of their comparison. *)
Definition subSign (a b : jsnum) : Z :=
  match a, b with
  | NaN, _ | _, NaN => 0%Z
  | NegInf, NegInf | PosInf, PosInf => 0%Z
  | NegInf, _ | _, PosInf => (-1)%Z
  | PosInf, _ | _, NegInf => 1%Z
  | Fin p, Fin q =>
      match (p ?= q)%Qc with Lt => (-1)%Z | Eq => 0%Z | Gt => 1%Z end
  end.

(** ** Array.prototype.sort

    The sort is stable; with a consistent comparator its result is the
    unique stable sorted arrangement, which a stable insertion sort
    computes.  ([compare(a, b) <= 0] keeps [a] in front of [b].) *)
Section Sort.
Context {A : Type} (compare : A -> A -> Z).

Fixpoint insertSorted (x : A) (l : list A) : list A :=
  match l with
  | [] => [x]
  | y :: r =>
      if (compare x y <=? 0)%Z then x :: l else y :: insertSorted x r
  end.

Definition jsSort (l : list A) : list A := foldr insertSorted [] l.
End Sort.

(** The default comparator of [sort()] on strings: code-unit order. *)
Definition strCompare (a b : jsstring) : Z :=
  match list_compare N.compare a b with
  | Lt => (-1)%Z
  | Eq => 0%Z
  | Gt => 1%Z
  end.

(** ** Built-ins supplied by the host *)

Class Host := {
  (** [s.toLowerCase()] and [s.toUpperCase()] for a string with a unit
      outside ASCII *)
  uniLower : jsstring -> jsstring;
  uniUpper : jsstring -> jsstring;
  (** [s.replace(/[^\p{L}\p{N}.-]/gu, "")] for a string with a unit outside
      ASCII *)
  uniKeepWord : jsstring -> jsstring;
  (** [a.localeCompare(b)] *)
  localeCompare : jsstring -> jsstring -> Z;
  (** [Number(s)] *)
  Number : jsstring -> jsnum;
  (** [fs.existsSync(path.join(PDF_DIR, key + ".pdf"))] *)
  pdfExists : jsstring -> bool
}.

(** ** cleanEntries, getYear *)

Definition DROP_FIELDS : list jsstring :=
  [js "file"; js "langid"; js "urldate"; js "shortjournal"; js "issue"].

(** The body of the loop over [Object.entries(entry.fields)]: what
    [fields[name]] holds afterwards (nothing for a skipped field, and
    nothing for [__proto__], which the assignment does not create). *)
Definition cleanField (name rawValue : jsstring) : option jsstring :=
  if bool_decide (name ∈ DROP_FIELDS) then None
  else
    let normalized := bibToText rawValue in
    if negb (truthy normalized) then None
    else if decide (name = protoName) then None
    else Some normalized.

Definition cleanFields (o : gmap jsstring jsstring) : gmap jsstring jsstring :=
  map_imap cleanField o.

Definition cleanEntry (entry : Entry) : Entry :=
  mkEntry (type entry) (key entry) (cleanFields (fields entry)).

Definition getYear (entry : Entry) : jsstring :=
  if truthy (field (fields entry) "year") then field (fields entry) "year"
  else if truthy (field (fields entry) "date")
       then take 4 (field (fields entry) "date")
       else js "Unknown".

Definition titleOf (entry : Entry) : jsstring :=
  orElse (field (fields entry) "title") [].

Section Ordering.
Context `{Host}.

Definition yearNumber (entry : Entry) : jsnum :=
  numOrZero (Number (getYear entry)).

Definition compareEntries (a b : Entry) : Z :=
  let ay := yearNumber a in
  let by_ := yearNumber b in
  if numDiffer ay by_ then subSign by_ ay
  else localeCompare (titleOf a) (titleOf b).

Definition cleanEntries (entries : list Entry) : list Entry :=
  jsSort compareEntries (map cleanEntry entries).
End Ordering.

(** ** writeCleanBib: the text handed to [fs.writeFileSync] *)

(** [Object.keys(o).sort()]: the keys are distinct and the default order is
    total, so the enumeration order of [Object.keys] is immaterial. *)
Definition sortedKeys (o : gmap jsstring jsstring) : list jsstring :=
  jsSort strCompare (map fst (map_to_list o)).

Definition fieldLine (o : gmap jsstring jsstring) (name : jsstring) : jsstring :=
  js "  " ++ name ++ js " = {" ++ default [] (o !! name) ++ js "},".

Definition entryChunk (entry : Entry) : jsstring :=
  join [Ch.nl]
    ([Ch.at_sign :: type entry ++ js "{" ++ key entry ++ js ","]
     ++ map (fieldLine (fields entry)) (sortedKeys (fields entry))
     ++ [js "}"]).

Definition writeCleanBib (entries : list Entry) : jsstring :=
  join [Ch.nl; Ch.nl] (map entryChunk entries) ++ [Ch.nl].

(** ** String helpers used by the formatters *)

(** A literal in which an apostrophe stands for the double quote. *)
Definition jsq (s : String.string) : jsstring :=
  map (fun c => if c =? 39 then Ch.dquote else c) (js s).
Arguments jsq s%_string.

(** A pattern unit against a subject unit under the [i] flag (without the
    [u] flag no unit outside ASCII matches an ASCII letter). *)
Definition ciEqb (p c : char) : bool := lowerChar c =? lowerChar p.

(** [/^pat/i.test(s)] for a literal pattern *)
Fixpoint startsWithCI (pat s : jsstring) : bool :=
  match pat, s with
  | [], _ => true
  | p :: pat', c :: s' => ciEqb p c && startsWithCI pat' s'
  | _ :: _, [] => false
  end.

(** [/pat/i.test(s)] for a literal pattern *)
Fixpoint containsCI (pat s : jsstring) : bool :=
  startsWithCI pat s
  || match s with
     | [] => false
     | _ :: s' => containsCI pat s'
     end.

(** [/^pat$/i.test(s)] for a literal pattern *)
Definition equalsCI (pat s : jsstring) : bool :=
  (length s =? length pat)%nat && startsWithCI pat s.

(** [s.replace(/c/g, by)] for a single unit [c] *)
Definition replaceChar (c : char) (by_ : jsstring) (s : jsstring) : jsstring :=
  flat_map (fun x => if x =? c then by_ else [x]) s.

(** [s.split(c)] for a single unit [c] *)
Fixpoint splitChar (c : char) (piece s : jsstring) : list jsstring :=
  match s with
  | [] => [piece]
  | x :: r =>
      if x =? c then piece :: splitChar c [] r
      else splitChar c (piece ++ [x]) r
  end.

(** [s.split(/\s+/).filter(Boolean)]: the non-empty pieces between white
    space. *)
Fixpoint splitSpace (piece s : jsstring) : list jsstring :=
  match s with
  | [] => [piece]
  | x :: r =>
      if isSpace x then piece :: splitSpace [] r
      else splitSpace (piece ++ [x]) r
  end.

Definition tokensOf (s : jsstring) : list jsstring :=
  List.filter truthy (splitSpace [] s).

(** [/\s+and\s+/i] matched at the cursor: the suffix after the match.  Both
    [\s+] are greedy and no shorter first run can match, since [a] is no
    white space. *)
Definition matchAndSeparator (s : jsstring) : option jsstring :=
  match s with
  | c :: _ =>
      if isSpace c then
        match skipWhile isSpace s with
        | a :: n :: d :: ((w :: _) as r) =>
            if ciEqb 97 a && ciEqb 110 n && ciEqb 100 d && isSpace w
            then Some (skipWhile isSpace r)
            else None
        | _ => None
        end
      else None
  | [] => None
  end.

(** [s.split(/\s+and\s+/i)]; every match consumes at least one unit, so
    fuel [length s] is never exhausted. *)
Fixpoint splitAnd (fuel : nat) (piece s : jsstring) : list jsstring :=
  match fuel, s with
  | S fuel', c :: r =>
      match matchAndSeparator s with
      | Some rest => piece :: splitAnd fuel' [] rest
      | None => splitAnd fuel' (piece ++ [c]) r
      end
  | _, _ => [piece ++ s]
  end.

Definition escapeHtml (s : jsstring) : jsstring :=
  replaceChar Ch.dquote (js "&quot;")
    (replaceChar Ch.gt (js "&gt;")
       (replaceChar Ch.lt (js "&lt;")
          (replaceChar Ch.amp (js "&amp;") s))).

(** ** Lookup tables

    A table written as an object literal inherits from [Object.prototype]:
    [TABLE[name]] for a name that is no own key but a property of the
    prototype yields that property (a function, or the prototype itself for
    [__proto__]), which is truthy. *)
Definition objectPrototypeNames : list jsstring :=
  [js "constructor"; js "__defineGetter__"; js "__defineSetter__";
   js "hasOwnProperty"; js "__lookupGetter__"; js "__lookupSetter__";
   js "isPrototypeOf"; js "propertyIsEnumerable"; js "toString";
   js "valueOf"; js "__proto__"; js "toLocaleString"].

Inductive lookupResult :=
  | Own (value : jsstring)
  | Inherited (name : jsstring)
  | Undefined.

Definition tableLookup (table : list (jsstring * jsstring)) (name : jsstring)
  : lookupResult :=
  match list_find (fun kv => kv.1 = name) table with
  | Some (_, (_, v)) => Own v
  | None =>
      if bool_decide (name ∈ objectPrototypeNames) then Inherited name
      else Undefined
  end.

(** [String(Object.prototype[name])] as Node prints it *)
Definition inheritedToString (name : jsstring) : jsstring :=
  if decide (name = protoName) then js "[object Object]"
  else js "function "
       ++ (if decide (name = js "constructor") then js "Object" else name)
       ++ js "() { [native code] }".

Definition CATEGORY_ORDER : list jsstring :=
  [js "Publications"; js "Proceedings"; js "Patent Applications"; js "Talks";
   js "Other"].

Definition TYPE_TO_CATEGORY : list (jsstring * jsstring) :=
  [(js "article", js "Publications");
   (js "inproceedings", js "Proceedings");
   (js "patent", js "Patent Applications");
   (js "phdthesis", js "Publications");
   (js "mastersthesis", js "Publications");
   (js "unpublished", js "Talks")].

Definition STATUS_LABELS : list (jsstring * jsstring) :=
  [(js "published_application", js "Published application");
   (js "granted", js "Granted");
   (js "pending", js "Pending");
   (js "abandoned", js "Abandoned")].

(** The value of [TYPE_TO_CATEGORY[entry.type] || "Other"]: a string, or an
    inherited object. *)
Inductive category :=
  | Cat (label : jsstring)
  | CatInherited (name : jsstring).

#[global] Instance category_eq_dec : EqDecision category.
Proof. solve_decision. Defined.

Definition categoryOf (entry : Entry) : category :=
  match tableLookup TYPE_TO_CATEGORY (type entry) with
  | Own v => if truthy v then Cat v else Cat (js "Other")
  | Inherited name => CatInherited name
  | Undefined => Cat (js "Other")
  end.

Record Link := mkLink {
  label : jsstring;
  href : jsstring
}.

Section Formatters.
Context `{Host}.

Definition toLowerCase (s : jsstring) : jsstring :=
  if forallb isAscii s then map lowerChar s else uniLower s.

Definition toUpperCase (s : jsstring) : jsstring :=
  if forallb isAscii s then map upperChar s else uniUpper s.

(** [s.replace(/[^\p{L}\p{N}.-]/gu, "")] *)
Definition keepWordChars (s : jsstring) : jsstring :=
  if forallb isAscii s
  then List.filter
         (fun c => isAlpha c || isDigit c || (c =? Ch.dot) || (c =? Ch.minus)) s
  else uniKeepWord s.

(** *** normalizeAuthorList *)

Definition formatPerson (person : jsstring) : jsstring :=
  let '(first, last) :=
    if bool_decide (Ch.comma ∈ person) then
      let parts := map trim (splitChar Ch.comma [] person) in
      (nth 1 parts [], nth 0 parts [])
    else
      let tokens := tokensOf person in
      if (1 <? length tokens)%nat
      then (join (js " ") (removelast tokens), List.last tokens [])
      else (person, [])
  in
  let displayName := orElse (trim (first ++ js " " ++ last)) person in
  let isSymonStowe :=
    equalsCI (js "stowe") (keepWordChars last)
    && (containsCI (js "symon") first
        || match trim first with
           | s :: rest =>
               ciEqb 115 s
               && match rest with
                  | [] => true
                  | c :: _ => c =? Ch.dot
                  end
           | [] => false
           end)
  in
  let safeName := escapeHtml displayName in
  if isSymonStowe then js "<strong>" ++ safeName ++ js "</strong>"
  else safeName.

Definition normalizeAuthorList (authorField : jsstring) : jsstring :=
  if negb (truthy authorField) then []
  else
    let people :=
      List.filter truthy
        (map trim (splitAnd (length authorField) [] authorField)) in
    join (js ", ") (map formatPerson people).

(** *** formatPatentStatus, as the string that its only caller
    interpolates *)

Definition isSpaceOrMinus (c : char) : bool := isSpace c || (c =? Ch.minus).

Definition titleCaseToken (token : jsstring) : jsstring :=
  match token with
  | c :: rest => toUpperCase [c] ++ rest
  | [] => []
  end.

(** [status.toLowerCase().replace(/[\s-]+/g, "_")] *)
Definition statusCode (status : jsstring) : jsstring :=
  collapseRuns isSpaceOrMinus Ch.underscore false (toLowerCase status).

Definition formatPatentStatus (status : jsstring) : jsstring :=
  if negb (truthy status) then []
  else
    let normalized := statusCode status in
    match tableLookup STATUS_LABELS normalized with
    | Own v => v
    | Inherited name => inheritedToString name
    | Undefined =>
        join (js " ")
          (map titleCaseToken
             (List.filter truthy (splitChar Ch.underscore [] normalized)))
    end.

(** *** buildVenue *)

Definition whenSet (s : jsstring) (piece : jsstring) : list jsstring :=
  if truthy s then [piece] else [].

Definition joinPieces (pieces : list jsstring) : jsstring :=
  join (js ", ") (List.filter truthy pieces).

Definition buildVenue (entry : Entry) : jsstring :=
  let f := fields entry in
  if decide (type entry = js "article") then
    let vol := (if truthy (field f "volume") then field f "volume" else [])
               ++ (if truthy (field f "number")
                   then js "(" ++ field f "number" ++ js ")" else []) in
    joinPieces ([orElse (field f "journaltitle") (field f "journal")]
                ++ whenSet vol vol
                ++ whenSet (field f "pages") (field f "pages"))
  else if decide (type entry = js "inproceedings") then
    joinPieces ([orElse (field f "booktitle") (field f "eventtitle")]
                ++ whenSet (field f "location") (field f "location")
                ++ (if truthy (field f "date") then [field f "date"]
                    else whenSet (field f "year") (field f "year"))
                ++ whenSet (field f "pages") (js "pp. " ++ field f "pages"))
  else if decide (type entry = js "patent") then
    let statusLabel := formatPatentStatus (field f "status") in
    joinPieces (whenSet statusLabel (js "Status: " ++ statusLabel)
                ++ whenSet (field f "number") (field f "number")
                ++ whenSet (field f "location") (field f "location")
                ++ whenSet (field f "date") (field f "date"))
  else if bool_decide (type entry = js "phdthesis")
          || bool_decide (type entry = js "mastersthesis") then
    joinPieces (whenSet (field f "school") (field f "school")
                ++ (if truthy (field f "advisor")
                    then [js "Supervisor: " ++ field f "advisor"]
                    else whenSet (field f "supervisor")
                           (js "Supervisor: " ++ field f "supervisor"))
                ++ (if truthy (field f "year") then [field f "year"]
                    else whenSet (field f "date") (field f "date")))
  else if decide (type entry = js "unpublished") then
    orElse (field f "note") (orElse (field f "year") [])
  else
    joinPieces [orElse (field f "booktitle")
                  (orElse (field f "journaltitle")
                     (orElse (field f "note") []));
                orElse (field f "year") []].
End Formatters.

(** ** buildLinks *)

(** [/\.pdf($|[?#])/i.test(v)] *)
Fixpoint hasPdfSuffix (v : jsstring) : bool :=
  match v with
  | [] => false
  | _ :: r =>
      (startsWithCI (js ".pdf") v
       && match drop 4 v with
          | [] => true
          | c :: _ => (c =? Ch.question) || (c =? Ch.hash)
          end)
      || hasPdfSuffix r
  end.

(** The first four alternatives shared by [looksLikeLink] and
    [normalizeLinkTarget]: [/^https?:\/\//i], [/^mailto:/i],
    [/^\.{0,2}\//], [/^\//]. *)
Definition isUrlOrPath (v : jsstring) : bool :=
  (startsWithCI (js "http://") v || startsWithCI (js "https://") v)
  || startsWithCI (js "mailto:") v
  || (startsWith (js "/") v || startsWith (js "./") v || startsWith (js "../") v)
  || startsWith (js "/") v.

Definition looksLikeLink (value : jsstring) : bool :=
  let v := trim value in
  isUrlOrPath v || hasPdfSuffix v.

Definition normalizeLinkTarget (value : jsstring) : jsstring :=
  let v := trim value in
  if isUrlOrPath v then v else js "pdfs/" ++ v.

(** The two locals [links] and [seen] that the closures of [buildLinks]
    update. *)
Record LinkState := mkLinkState {
  links : list Link;
  seen : gset jsstring
}.

Definition addLink (st : LinkState) (label href : jsstring) : LinkState :=
  if negb (truthy href) || bool_decide (href ∈ seen st) then st
  else mkLinkState (links st ++ [mkLink label href]) ({[href]} ∪ seen st).

Fixpoint addAssetLink (entry : Entry) (st : LinkState) (label : jsstring)
    (fieldNames : list jsstring) : LinkState :=
  match fieldNames with
  | [] => st
  | fieldName :: others =>
      let raw := default [] (fields entry !! fieldName) in
      if negb (truthy raw) then addAssetLink entry st label others
      else if negb (looksLikeLink raw) then addAssetLink entry st label others
      else addLink st label (normalizeLinkTarget raw)
  end.

Definition FINAL_DRAFT_FIELDS : list jsstring :=
  [js "final_draft"; js "final_draft_url"; js "paper_pdf"; js "paper_url";
   js "pdf"].

Section Links.
Context `{Host}.

(** [if (links.length === 0 && fs.existsSync(pdfPath)) addLink(label, ...)] *)
Definition addDefaultPdf (entry : Entry) (st : LinkState) (label : jsstring)
  : LinkState :=
  if (length (links st) =? 0)%nat && pdfExists (key entry)
  then addLink st label (js "pdfs/" ++ key entry ++ js ".pdf")
  else st.

Definition buildLinks (entry : Entry) : list Link :=
  let st0 := mkLinkState [] ∅ in
  if decide (type entry = js "article") then
    let st := addAssetLink entry st0 (js "Final Draft") FINAL_DRAFT_FIELDS in
    links (addDefaultPdf entry st (js "Final Draft"))
  else if bool_decide (type entry = js "phdthesis")
          || bool_decide (type entry = js "mastersthesis") then
    let st := addAssetLink entry st0 (js "Final Draft") FINAL_DRAFT_FIELDS in
    let st := addAssetLink entry st (js "Presentation")
                [js "presentation_url"; js "presentation_link";
                 js "presentation_pdf"; js "slides_url"; js "slides_link";
                 js "slides_pdf"] in
    links (addDefaultPdf entry st (js "Final Draft"))
  else if decide (type entry = js "inproceedings") then
    let st := addAssetLink entry st0 (js "Abstract")
                [js "abstract_url"; js "abstract_link"; js "abstract_pdf";
                 js "abstract"] in
    let st := addAssetLink entry st (js "Presentation")
                [js "presentation_url"; js "presentation_link";
                 js "presentation_pdf"; js "talk_url"; js "talk_pdf"] in
    let st := addAssetLink entry st (js "Poster")
                [js "poster_url"; js "poster_link"; js "poster_pdf";
                 js "poster"] in
    links (addDefaultPdf entry st (js "Abstract"))
  else if decide (type entry = js "unpublished") then
    let st := addAssetLink entry st0 (js "Slides")
                [js "slides_url"; js "slides_link"; js "slides_pdf";
                 js "slides"] in
    links (addDefaultPdf entry st (js "Slides"))
  else
    let doi := field (fields entry) "doi" in
    let url := field (fields entry) "url" in
    let doiHref := if truthy doi then js "https://doi.org/" ++ doi else [] in
    let isDoiUrl := if truthy url then containsCI (js "doi.org/") url else false in
    let st := if truthy url
              then addLink st0 (if isDoiUrl then js "DOI" else js "Link") url
              else st0 in
    let st := if truthy url && truthy doiHref && negb isDoiUrl
              then addLink st (js "DOI") doiHref
              else st in
    let st := if pdfExists (key entry)
              then addLink st (js "PDF") (js "pdfs/" ++ key entry ++ js ".pdf")
              else st in
    links st.
End Links.

(** ** generatePublicationHtml *)

(** A [Map] with its insertion order. *)
Section JsMap.
Context {K V : Type} `{EqDecision K}.

Definition mapGet (m : list (K * V)) (k : K) : option V :=
  match list_find (fun kv => kv.1 = k) m with
  | Some (_, (_, v)) => Some v
  | None => None
  end.

Definition mapHas (m : list (K * V)) (k : K) : bool :=
  bool_decide (is_Some (mapGet m k)).

(** [m.set(k, v)]: a present key keeps its place *)
Fixpoint mapSet (m : list (K * V)) (k : K) (v : V) : list (K * V) :=
  match m with
  | [] => [(k, v)]
  | (k', v') :: r =>
      if decide (k' = k) then (k, v) :: r else (k', v') :: mapSet r k v
  end.
End JsMap.

Abbreviation byCategoryMap := (list (category * list Entry)) (only parsing).
Abbreviation byYearMap := (list (jsstring * byCategoryMap)) (only parsing).

(** The body of the grouping loop of [generatePublicationHtml]. *)
Definition groupEntry (byYear : byYearMap) (entry : Entry) : byYearMap :=
  let year := getYear entry in
  let category := categoryOf entry in
  let byYear := if mapHas byYear year then byYear else mapSet byYear year [] in
  let byCategory := default [] (mapGet byYear year) in
  let byCategory :=
    if mapHas byCategory category then byCategory
    else mapSet byCategory category [] in
  let bucket := default [] (mapGet byCategory category) in
  mapSet byYear year (mapSet byCategory category (bucket ++ [entry])).

Definition groupEntries (entries : list Entry) : byYearMap :=
  foldl groupEntry [] entries.

Abbreviation renderedYear := (jsstring * list (jsstring * list Entry))%type
  (only parsing).

Section Render.
Context `{Host}.

(** [(a, b) => Number(b) - Number(a)] *)
Definition compareYears (a b : jsstring) : Z := subSign (Number b) (Number a).

Definition compareTitles (a b : Entry) : Z :=
  localeCompare (titleOf a) (titleOf b).

(** The category headings of one year with the entries listed under each,
    as the inner loops emit them. *)
Definition renderedCategories (byCategory : byCategoryMap)
  : list (jsstring * list Entry) :=
  flat_map
    (fun category =>
       match mapGet byCategory (Cat category) with
       | Some ((_ :: _) as entriesForCategory) =>
           [(category, jsSort compareTitles entriesForCategory)]
       | _ => []
       end)
    CATEGORY_ORDER.

(** The year headings in the order of the sorted keys of [byYear].  The
    comparator is consistent as long as every year is a number, and the
    order is then the one of every engine.  When a year is no number its
    difference to any other year is [NaN]: the comparator is not consistent,
    the order is left to the engine, and the model fixes the order of a
    stable insertion sort, which need not be the one of a given engine;
    nothing is stated about the order of the headings in that case. *)
Definition renderedGroups (entries : list Entry) : list renderedYear :=
  let byYear := groupEntries entries in
  map (fun year => (year, renderedCategories (default [] (mapGet byYear year))))
      (jsSort compareYears (map fst byYear)).

Definition linkHtml (link : Link) : jsstring :=
  jsq "<a href='" ++ escapeHtml (href link) ++ jsq "'>["
  ++ escapeHtml (label link) ++ js "]</a>".

Definition entryLines (entry : Entry) : list jsstring :=
  let f := fields entry in
  let title := orElse (field f "title") (key entry) in
  let titleLink :=
    orElse (field f "url")
      (if truthy (field f "doi") then js "https://doi.org/" ++ field f "doi"
       else []) in
  let authors := normalizeAuthorList (field f "author") in
  let venue := buildVenue entry in
  let linksHtml := join (js " ") (map linkHtml (buildLinks entry)) in
  [jsq "<ul class='project_blurb'>"]
  ++ [if truthy titleLink
      then jsq "  <li><a href='" ++ escapeHtml titleLink ++ jsq "'><i>"
           ++ escapeHtml title ++ js "</i></a></li>"
      else js "  <li><i>" ++ escapeHtml title ++ js "</i></li>"]
  ++ (if truthy authors then [js "  <li>" ++ authors ++ js "</li>"] else [])
  ++ (if truthy venue || truthy linksHtml
      then [js "  <li>" ++ escapeHtml venue ++ js " " ++ linksHtml ++ js "</li>"]
      else [])
  ++ [js "</ul>"].

Definition categoryLines (c : jsstring * list Entry) : list jsstring :=
  (jsq "<h4 class='pub_type'>" ++ escapeHtml c.1 ++ js "</h4>")
  :: flat_map entryLines c.2.

Definition yearLines (y : renderedYear) : list jsstring :=
  (jsq "<h3 class='pub_year'>" ++ escapeHtml y.1 ++ js "</h3>")
  :: flat_map categoryLines y.2.

Definition generatePublicationHtml (entries : list Entry) : jsstring :=
  join [Ch.nl] (flat_map yearLines (renderedGroups entries)).
End Render.

(** ** The earlier revision, where it differs in a function *)
Module Legacy.
Definition formatPerson (person : jsstring) : jsstring :=
  if bool_decide (Ch.comma ∈ person) then
    let parts := map trim (splitChar Ch.comma [] person) in
    trim (nth 1 parts [] ++ js " " ++ nth 0 parts [])
  else person.

Definition normalizeAuthorList (authorField : jsstring) : jsstring :=
  if negb (truthy authorField) then []
  else
    let people :=
      List.filter truthy
        (map trim (splitAnd (length authorField) [] authorField)) in
    join (js ", ") (map formatPerson people).

Section Links.
Context `{Host}.

Definition buildLinks (entry : Entry) : list Link :=
  let st0 := mkLinkState [] ∅ in
  let doi := field (fields entry) "doi" in
  let url := field (fields entry) "url" in
  let doiHref := if truthy doi then js "https://doi.org/" ++ doi else [] in
  let isDoiUrl := if truthy url then containsCI (js "doi.org/") url else false in
  let st := if truthy url
            then addLink st0 (if isDoiUrl then js "DOI" else js "Link") url
            else if truthy doiHref then addLink st0 (js "DOI") doiHref
            else st0 in
  let st := if truthy url && truthy doiHref && negb isDoiUrl
            then addLink st (js "DOI") doiHref
            else st in
  let st := if pdfExists (key entry)
            then addLink st (js "PDF") (js "pdfs/" ++ key entry ++ js ".pdf")
            else st in
  links st.
End Links.
End Legacy.

(** ** updateIndex *)

Definition DOLLAR : char := 36.
Definition APOSTROPHE : char := 39.
Definition BACKTICK : char := 96.

Definition START_MARKER : jsstring := js "<!-- PUBS:START -->".
Definition END_MARKER : jsstring := js "<!-- PUBS:END -->".
Definition LAST_UPDATED_MARKER : jsstring := js "<!-- LAST_UPDATED -->".
Definition UPDATED_PREFIX : jsstring := js "Site last updated on:".

(** [s.includes(pat)] *)
Fixpoint includes (pat s : jsstring) : bool :=
  startsWith pat s
  || match s with
     | [] => false
     | _ :: r => includes pat r
     end.

(** [s.indexOf(pat)], as the text before the first occurrence of [pat] and
    the text behind it. *)
Fixpoint splitFirst (pat s : jsstring) : option (jsstring * jsstring) :=
  if startsWith pat s then Some ([], drop (length pat) s)
  else
    match s with
    | [] => None
    | c :: r =>
        match splitFirst pat r with
        | Some (before, after) => Some (c :: before, after)
        | None => None
        end
    end.

(** The replacement text of [String.prototype.replace] for a match without
    capture groups: [$$] is a dollar sign, [$&] the matched text, [$`] the
    text before the match, [$'] the text behind it, and any other [$]
    stands for itself. *)
Fixpoint expand (matched before after repl : jsstring) : jsstring :=
  match repl with
  | [] => []
  | c :: r =>
      if c =? DOLLAR then
        match r with
        | d :: r' =>
            if d =? DOLLAR then DOLLAR :: expand matched before after r'
            else if d =? Ch.amp then matched ++ expand matched before after r'
            else if d =? BACKTICK then before ++ expand matched before after r'
            else if d =? APOSTROPHE
            then after ++ expand matched before after r'
            else c :: expand matched before after r
        | [] => [c]
        end
      else c :: expand matched before after r
  end.

(** [s.replace(pat, repl)] for a string [pat]: the first occurrence only. *)
Definition replaceFirst (pat repl s : jsstring) : jsstring :=
  match splitFirst pat s with
  | Some (before, after) => before ++ expand pat before after repl ++ after
  | None => s
  end.

(** The match of [new RegExp(startMarker + "[\\s\\S]*?" + endMarker)] (the
    markers hold no character that is special in a pattern): from the first
    start marker to the first end marker behind it.  When no end marker
    follows the first start marker, none follows a later one either, and
    there is no match. *)
Definition matchBlock (s : jsstring)
  : option (jsstring * jsstring * jsstring) :=
  match splitFirst START_MARKER s with
  | Some (before, r) =>
      match splitFirst END_MARKER r with
      | Some (body, after) =>
          Some (before, START_MARKER ++ body ++ END_MARKER, after)
      | None => None
      end
  | None => None
  end.

Definition replaceBlock (repl s : jsstring) : jsstring :=
  match matchBlock s with
  | Some (before, matched, after) =>
      before ++ expand matched before after repl ++ after
  | None => s
  end.

(** [[^<]] *)
Definition notLt (c : char) : bool := negb (c =? Ch.lt).

(** [rest.replace(/Site last updated on:[^<]*/g, repl)], where [before] is
    the text in front of [rest]: every match runs from the prefix up to the
    next [<] or the end of the text, and the search resumes behind it.  Each
    round consumes the prefix at least, so fuel [length rest] is never
    exhausted. *)
Fixpoint replaceStamps (fuel : nat) (repl before rest : jsstring) : jsstring :=
  match fuel with
  | O => rest
  | S fuel' =>
      match splitFirst UPDATED_PREFIX rest with
      | Some (pre, r) =>
          let run := takeWhile notLt r in
          let after := skipWhile notLt r in
          pre ++ expand (UPDATED_PREFIX ++ run) (before ++ pre) after repl
          ++ replaceStamps fuel' repl
               (before ++ pre ++ UPDATED_PREFIX ++ run) after
      | None => rest
      end
  end.

Inductive indexError :=
  | MissingPublicationMarkers
  | MissingLastUpdatedMarker.

(** The block that replaces the publications. *)
Definition publicationsBlock (publicationsHtml : jsstring) : jsstring :=
  START_MARKER ++ [Ch.nl] ++ publicationsHtml ++ [Ch.nl] ++ js "        "
  ++ END_MARKER.

(** [Site last updated on: ${buildDate} (UTC)] *)
Definition updatedText (buildDate : jsstring) : jsstring :=
  js "Site last updated on: " ++ buildDate ++ js " (UTC)".

(** The second half of [updateIndex]: the time stamp replaces the marker,
    or else every stamp of an earlier run. *)
Definition stampIndex (updated buildDate : jsstring) : indexError + jsstring :=
  if includes LAST_UPDATED_MARKER updated
  then inr (replaceFirst LAST_UPDATED_MARKER (updatedText buildDate) updated)
  else if includes UPDATED_PREFIX updated
  then inr (replaceStamps (length updated) (updatedText buildDate) [] updated)
  else inl MissingLastUpdatedMarker.

(** [updateIndex(publicationsHtml)], given the text [index] read from
    [index.html] and the date [buildDate] that [toLocaleString] prints: the
    error thrown, or the text written back. *)
Definition updateIndex (index buildDate publicationsHtml : jsstring)
  : indexError + jsstring :=
  if negb (includes START_MARKER index) || negb (includes END_MARKER index)
  then inl MissingPublicationMarkers
  else stampIndex (replaceBlock (publicationsBlock publicationsHtml) index)
         buildDate.

(** The earlier revision writes no time stamp. *)
Module LegacyIndex.
Definition updateIndex (index publicationsHtml : jsstring)
  : indexError + jsstring :=
  if negb (includes START_MARKER index) || negb (includes END_MARKER index)
  then inl MissingPublicationMarkers
  else inr (replaceBlock (publicationsBlock publicationsHtml) index).
End LegacyIndex.

(** ** A concrete host

    An instance of the built-ins for closed examples: code-unit order for
    [localeCompare], [Number] on strings of decimal digits ([NaN]
    elsewhere), identity for the Unicode tables, and no asset on disk. *)
Definition digitValue (acc : option Z) (c : char) : option Z :=
  match acc with
  | Some z => if isDigit c then Some (10 * z + Z.of_N (c - 48))%Z else None
  | None => None
  end.

Definition plainNumber (s : jsstring) : jsnum :=
  match s with
  | [] => Fin 0%Qc
  | _ :: _ =>
      match foldl digitValue (Some 0%Z) s with
      | Some z => Fin (Q2Qc (inject_Z z))
      | None => NaN
      end
  end.

Definition plainHost : Host := {|
  uniLower := id;
  uniUpper := id;
  uniKeepWord := id;
  localeCompare := strCompare;
  Number := plainNumber;
  pdfExists := fun _ => false
|}.

(** ** Vocabulary of the statements *)

(** Occurrences of a unit in a slice. *)
Definition occurrences (c : char) (s : jsstring) : nat :=
  length (List.filter (fun x => x =? c) s).

(** A brace-delimited value that is never closed: every non-empty prefix of
    the text from its opening brace on has more [{] than [}]. *)
Definition unterminatedBraces (rest : jsstring) : Prop :=
  ∀ n, (0 < n ≤ length rest)%nat →
       (occurrences Ch.rbrace (take n rest)
        < occurrences Ch.lbrace (take n rest))%nat.

(** A quote-delimited value that is never closed: every double quote after
    the opening one directly follows a backslash. *)
Definition unterminatedQuote (body : jsstring) : Prop :=
  ∀ i, body !! i = Some Ch.dquote →
       ∃ j, i = S j ∧ body !! j = Some Ch.backslash.

(** The order of numbers; [NaN] is related to nothing. *)
Definition numLt (a b : jsnum) : Prop :=
  match a, b with
  | NegInf, Fin _ | NegInf, PosInf | Fin _, PosInf => True
  | Fin p, Fin q => (p < q)%Qc
  | _, _ => False
  end.

#[global] Instance jsnum_eq_dec : EqDecision jsnum.
Proof. solve_decision. Defined.

(** A consistent comparator in the sense of [Array.prototype.sort]: the
    sign is antisymmetric and "not after" is transitive. *)
Definition consistent {A : Type} (compare : A → A → Z) : Prop :=
  (∀ a b, Z.sgn (compare a b) = (- Z.sgn (compare b a))%Z)
  ∧ (∀ a b c, (compare a b ≤ 0)%Z → (compare b c ≤ 0)%Z → (compare a c ≤ 0)%Z).

Section OrderingVocabulary.
Context `{Host}.

(** [a] may stand before [b]: its year is the larger number, or the years
    are equal and its title is not after the other title. *)
Definition entryBefore (a b : Entry) : Prop :=
  numLt (yearNumber b) (yearNumber a)
  ∨ (yearNumber a = yearNumber b
     ∧ (localeCompare (titleOf a) (titleOf b) ≤ 0)%Z).

(** Equal under both sort keys. *)
Definition sameKeys (a b : Entry) : Prop :=
  yearNumber a = yearNumber b
  ∧ localeCompare (titleOf a) (titleOf b) = 0%Z.

#[global] Instance sameKeys_dec a b : Decision (sameKeys a b).
Proof. unfold sameKeys. apply _. Defined.
End OrderingVocabulary.

(** What the closures maintain: the hrefs pushed so far are pairwise
    distinct and all recorded in [seen]. *)
Definition linksDistinct (st : LinkState) : Prop :=
  NoDup (map href (links st)) ∧ ∀ h, h ∈ map href (links st) → h ∈ seen st.

(** Concrete inputs of the examples. *)
Module Sample.
Definition record : jsstring :=
  js "@article{k1, author = {Doe, Jane and Smith, John}, title = {T}, year = {2020}, journal = {J}}".

Definition cleaned : Entry :=
  mkEntry (js "article") (js "k1")
    (list_to_map
       [(js "author", js "Doe, Jane and Smith, John"); (js "title", js "T");
        (js "year", js "2020"); (js "journal", js "J")]).

(** An article whose only asset field holds a bare file name. *)
Definition bareDraft : Entry :=
  mkEntry (js "article") (js "k") {[ js "final_draft" := js "draft" ]}.

(** A patent whose status is a lone hyphen. *)
Definition hyphenStatus : Entry :=
  mkEntry (js "patent") (js "p")
    (list_to_map [(js "status", js "-"); (js "number", js "US1")]).

Definition publishedApplication : Entry :=
  mkEntry (js "patent") (js "p")
    (list_to_map
       [(js "status", js "published-application"); (js "number", js "US1")]).

(** A record whose type is the name of a property of [Object.prototype]. *)
Definition constructorRecord : jsstring :=
  js "@constructor{k, title = {T}, year = {2020}}".

Definition constructorEntry : Entry :=
  mkEntry (js "constructor") (js "k")
    (list_to_map [(js "title", js "T"); (js "year", js "2020")]).

(** A normalized entry whose title holds an escape sequence. *)
Definition escapedTitle : Entry :=
  mkEntry (js "article") (js "k") {[ js "title" := [Ch.backslash; Ch.amp] ]}.

(** A bibliography whose normalization is that entry. *)
Definition escapedRecord : jsstring := js "@article{k, title = {\\&}}".

Definition unescapedTitle : Entry :=
  mkEntry (js "article") (js "k") {[ js "title" := [Ch.amp] ]}.

(** A bibliography of three records and its entries in the order of the
    Entry Orderer. *)
Definition bibliography : jsstring :=
  js "@article{k1, title = {B}, year = {1999}} @inproceedings{k2, title = {A}, year = {2001}} @misc{k3, title = {C}}".

Definition ordered : list Entry :=
  [mkEntry (js "inproceedings") (js "k2")
     (list_to_map [(js "title", js "A"); (js "year", js "2001")]);
   mkEntry (js "article") (js "k1")
     (list_to_map [(js "title", js "B"); (js "year", js "1999")]);
   mkEntry (js "misc") (js "k3") {[ js "title" := js "C" ]}].
End Sample.

(** *** Normalized entries

    The shape of an entry that has gone through [parseBib] and
    [cleanEntries]. *)

Definition braceFree (v : jsstring) : bool :=
  forallb (fun c => negb (isBrace c)) v.

(** White space is collapsed and trimmed: the only white-space unit is the
    space, never doubled, never first or last ([prevSpace] tells that a
    space may not come next).  In particular the value is a single line. *)
Fixpoint spacesCollapsed (prevSpace : bool) (v : jsstring) : bool :=
  match v with
  | [] => negb prevSpace
  | c :: r =>
      if isSpace c then (c =? Ch.space) && negb prevSpace && spacesCollapsed true r
      else spacesCollapsed false r
  end.

(** The four conditions of a normalized value: non-empty, brace-free,
    white space collapsed, single line. *)
Definition normalizedValue (v : jsstring) : bool :=
  truthy v && braceFree v && spacesCollapsed true v.

(** No backslash directly before [&], [,] or [%]. *)
Fixpoint escapeFree (v : jsstring) : bool :=
  match v with
  | [] => true
  | x :: t =>
      match t with
      | y :: _ =>
          negb ((x =? Ch.backslash)
                && ((y =? Ch.amp) || (y =? Ch.comma) || (y =? Ch.percent)))
          && escapeFree t
      | [] => true
      end
  end.

(** A type as the parser stores it: lowercase letters. *)
Definition parsedType (t : jsstring) : bool := forallb isLower t.

(** A key as the parser stores it: trimmed, without a comma. *)
Definition parsedKey (k : jsstring) : bool :=
  bool_decide (trim k = k) && forallb (fun c => negb (c =? Ch.comma)) k.

(** A field name as the parser stores it and the normalizer keeps it:
    over [[a-z0-9_-]], not denylisted, not [__proto__]. *)
Definition keptName (name : jsstring) : bool :=
  forallb (fun c => isNameChar c && negb (isUpper c)) name
  && negb (bool_decide (name ∈ DROP_FIELDS))
  && negb (bool_decide (name = protoName)).

Definition normalizedEntry (e : Entry) : bool :=
  parsedType (type e) && parsedKey (key e)
  && forallb (fun kv => keptName kv.1 && normalizedValue kv.2)
       (map_to_list (fields e)).

Definition escapeFreeEntry (e : Entry) : bool :=
  forallb (fun kv => escapeFree (kv.2 : jsstring)) (map_to_list (fields e)).

(** A value between its braces, as [writeCleanBib] prints it. *)
Definition braced (v : jsstring) : jsstring := Ch.lbrace :: v ++ [Ch.rbrace].

(** The raw entry that [parseBib] reads back from the chunk of [e]. *)
Definition reparsed (e : Entry) : Entry :=
  mkEntry (type e) (key e) (braced <$> fields e).

(** The lines of the fields [names] of [o], each behind its line break, and
    the text of a record behind its [@]. *)
Definition fieldLines (o : gmap jsstring jsstring) (names : list jsstring)
  : jsstring :=
  concat (map (fun name => Ch.nl :: fieldLine o name) names).

Definition recordText (e : Entry) : jsstring :=
  type e ++ Ch.lbrace :: key e ++ Ch.comma
  :: fieldLines (fields e) (sortedKeys (fields e)) ++ [Ch.nl; Ch.rbrace].

(** The fuel that reading back a list of entries takes at most. *)
Definition reparseFuel (entries : list Entry) : nat :=
  foldr (fun e n => S (S (size (fields e) + n))) 1%nat entries.

(** *** Buckets *)

(** The entry belongs under the year heading [year] and the category
    [c]. *)
Definition inBucket (year : jsstring) (c : category) (e : Entry) : Prop :=
  getYear e = year ∧ categoryOf e = c.

#[global] Instance inBucket_dec year c e : Decision (inBucket year c e).
Proof. unfold inBucket. apply _. Defined.

(** [byYear.get(year).get(c)], empty when either key is absent. *)
Definition bucketOf (byYear : byYearMap) (year : jsstring) (c : category)
  : list Entry :=
  default [] (mapGet (default [] (mapGet byYear year)) c).

(** All entries that a rendering lists, heading by heading. *)
Definition renderedEntries (groups : list renderedYear) : list Entry :=
  flat_map (fun y => flat_map snd y.2) groups.

Section RenderingVocabulary.
Context `{Host}.

(** The category headings of one year and what is listed under them, read
    off the input: the categories of [CATEGORY_ORDER] that some entry of
    that year has, each with those entries sorted by title. *)
Definition categoriesOf (entries : list Entry) (year : jsstring)
  : list (jsstring * list Entry) :=
  flat_map
    (λ label,
       match filter (inBucket year (Cat label)) entries with
       | [] => []
       | (_ :: _) as bucket => [(label, jsSort compareTitles bucket)]
       end)
    CATEGORY_ORDER.
End RenderingVocabulary.

(** White space is collapsed but not necessarily trimmed: the only
    white-space unit is the space and it is never doubled. *)
Fixpoint spacesSingle (prevSpace : bool) (v : jsstring) : bool :=
  match v with
  | [] => true
  | c :: r =>
      if isSpace c then (c =? Ch.space) && negb prevSpace && spacesSingle true r
      else spacesSingle false r
  end.

(** A field name as [parseBib] stores it. *)
Definition parsedName (name : jsstring) : bool :=
  forallb (fun c => isNameChar c && negb (isUpper c)) name
  && negb (bool_decide (name = protoName)).

(** An entry as [parseBib] produces it. *)
Definition parsedEntry (e : Entry) : Prop :=
  parsedType (type e) = true ∧ parsedKey (key e) = true
  ∧ map_Forall (λ name _, parsedName name = true) (fields e).

(** *** Escaped text *)

(** What [escapeHtml] makes of one unit. *)
Definition escapeUnit (c : char) : jsstring :=
  if c =? Ch.amp then js "&amp;"
  else if c =? Ch.lt then js "&lt;"
  else if c =? Ch.gt then js "&gt;"
  else if c =? Ch.dquote then js "&quot;"
  else [c].

(** The names of the four character references, behind their [&]. *)
Definition ENTITY_NAMES : list jsstring :=
  [js "amp;"; js "lt;"; js "gt;"; js "quot;"].

(** Every [&] opens one of the four character references. *)
Fixpoint ampersandsEscaped (s : jsstring) : bool :=
  match s with
  | [] => true
  | c :: r =>
      (if c =? Ch.amp then existsb (fun name => startsWith name r) ENTITY_NAMES
       else true)
      && ampersandsEscaped r
  end.

(** No unit that could open or close a tag or end an attribute value. *)
Definition markupFree (s : jsstring) : bool :=
  forallb (fun c => negb ((c =? Ch.lt) || (c =? Ch.gt) || (c =? Ch.dquote))) s.

(** *** Links *)

(** The closures only ever push at the end: [after] is [before], or
    [before] with one more link labelled [l] whose href is not empty. *)
Definition pushed (l : jsstring) (before after : list Link) : Prop :=
  after = before ∨ ∃ h, h ≠ [] ∧ after = before ++ [mkLink l h].

(** The entry types for which [buildLinks] looks for asset fields, each
    with the label under which it links the PDF found on disk. *)
Definition ASSET_TYPES : list (jsstring * jsstring) :=
  [(js "article", js "Final Draft");
   (js "phdthesis", js "Final Draft");
   (js "mastersthesis", js "Final Draft");
   (js "inproceedings", js "Abstract");
   (js "unpublished", js "Slides")].

(** The label sequences of the branches of [buildLinks]. *)
Definition LABEL_SEQUENCES : list (list jsstring) :=
  [[js "Final Draft"; js "Presentation"];
   [js "Abstract"; js "Presentation"; js "Poster"];
   [js "Slides"];
   [js "DOI"; js "PDF"];
   [js "Link"; js "DOI"; js "PDF"]].

(** *** Author lines *)

(** The only markup is [<strong>] and [</strong>]: every [<] opens one of
    the two and there is no double quote. *)
Fixpoint onlyStrongTags (s : jsstring) : bool :=
  match s with
  | [] => true
  | c :: r =>
      (if c =? Ch.lt
       then startsWith (js "strong>") r || startsWith (js "/strong>") r
       else negb (c =? Ch.dquote))
      && onlyStrongTags r
  end.

(** No place inside [p] at which [/\s+and\s+/i] could match once white
    space follows [p]. *)
Fixpoint noAndInside (p : jsstring) : bool :=
  match p with
  | [] => true
  | _ :: r =>
      match matchAndSeparator (p ++ [Ch.space]) with
      | Some _ => false
      | None => noAndInside r
      end
  end.

(** A name as it stands between two separators: trimmed, not empty, with
    no separator inside. *)
Definition personName (p : jsstring) : bool :=
  bool_decide (trim p = p) && truthy p && noAndInside p.

(** *** Venues *)

(** The fields that [buildVenue] reads for an entry of type [ty]. *)
Definition venueFields (ty : jsstring) : list String.string :=
  (if decide (ty = js "article")
   then ["journaltitle"; "journal"; "volume"; "number"; "pages"]
   else if decide (ty = js "inproceedings")
   then ["booktitle"; "eventtitle"; "location"; "date"; "year"; "pages"]
   else if decide (ty = js "patent")
   then ["status"; "number"; "location"; "date"]
   else if bool_decide (ty = js "phdthesis")
           || bool_decide (ty = js "mastersthesis")
   then ["school"; "advisor"; "supervisor"; "year"; "date"]
   else if decide (ty = js "unpublished")
   then ["note"; "year"]
   else ["booktitle"; "journaltitle"; "note"; "year"])%string.

(** *** Generated markup *)

(** The literal fragments of the templates of [generatePublicationHtml] and
    [normalizeAuthorList] that hold markup. *)
Definition TEMPLATE_FRAGMENTS : list jsstring :=
  [jsq "<h3 class='pub_year'>"; js "</h3>";
   jsq "<h4 class='pub_type'>"; js "</h4>";
   jsq "<ul class='project_blurb'>"; js "</ul>";
   jsq "  <li><a href='"; jsq "'><i>"; js "</i></a></li>";
   js "  <li><i>"; js "</i></li>";
   js "  <li>"; js "</li>";
   jsq "<a href='"; jsq "'>["; js "]</a>";
   js "<strong>"; js "</strong>"].

(** A text put together from fragments of the templates and from text
    without [<], [>] and double quote. *)
Definition fromTemplate (s : jsstring) : Prop :=
  ∃ fragments,
    s = concat fragments
    ∧ Forall (λ f, f ∈ TEMPLATE_FRAGMENTS ∨ markupFree f = true) fragments.

(** *** Years below zero *)

(** [Number] on an optional minus sign followed by decimal digits. *)
Definition signedNumber (s : jsstring) : jsnum :=
  match s with
  | c :: r =>
      if c =? Ch.minus then
        match r with
        | [] => NaN
        | _ :: _ =>
            match foldl digitValue (Some 0%Z) r with
            | Some z => Fin (Q2Qc (inject_Z (- z)))
            | None => NaN
            end
        end
      else plainNumber s
  | [] => Fin 0%Qc
  end.

(** The concrete host with that [Number]. *)
Definition signedHost : Host := {|
  uniLower := id;
  uniUpper := id;
  uniKeepWord := id;
  localeCompare := strCompare;
  Number := signedNumber;
  pdfExists := fun _ => false
|}.

Module YearSample.
(** Four records: a year below zero, no year, a positive year, a year that
    is no number. *)
Definition bibliography : jsstring :=
  js "@misc{a, title = {A}, year = {-5}} @misc{b, title = {B}} @misc{c, title = {C}, year = {2020}} @misc{d, title = {D}, year = {abc}}".

Definition belowZero : Entry :=
  mkEntry (js "misc") (js "a")
    (list_to_map [(js "title", js "A"); (js "year", js "-5")]).

Definition noYear : Entry :=
  mkEntry (js "misc") (js "b") {[ js "title" := js "B" ]}.

Definition positive : Entry :=
  mkEntry (js "misc") (js "c")
    (list_to_map [(js "title", js "C"); (js "year", js "2020")]).

Definition notANumber : Entry :=
  mkEntry (js "misc") (js "d")
    (list_to_map [(js "title", js "D"); (js "year", js "abc")]).
End YearSample.

(** * Properties *)

(** ** Scanning *)

Lemma take_skip_while p s : takeWhile p s ++ skipWhile p s = s.
Proof.
  induction s as [|c r IH]; simpl; [done|].
  destruct (p c); simpl; [by rewrite IH | done].
Qed.

Lemma skipWhile_suffix p s : skipWhile p s `suffix_of` s.
Proof. exists (takeWhile p s). by rewrite take_skip_while. Qed.

Lemma skipWhile_length p s : (length (skipWhile p s) ≤ length s)%nat.
Proof. apply suffix_length, skipWhile_suffix. Qed.

Lemma skipWhile_head p s c r : skipWhile p s = c :: r → p c = false.
Proof.
  induction s as [|x t IH]; simpl; [done|].
  destruct (p x) eqn:Hx; [done|]. intros [= -> ->]. done.
Qed.

Lemma takeWhile_all p s : Forall (λ c, p c = true) (takeWhile p s).
Proof.
  induction s as [|c r IH]; simpl; [constructor|].
  destruct (p c) eqn:Hc; constructor; done.
Qed.

Lemma skipWhile_stop p s :
  match s with [] => True | c :: _ => p c = false end → skipWhile p s = s.
Proof. destruct s as [|c r]; simpl; [done|]. by intros ->. Qed.

Lemma takeWhile_stop p s :
  match s with [] => True | c :: _ => p c = false end → takeWhile p s = [].
Proof. destruct s as [|c r]; simpl; [done|]. by intros ->. Qed.

Lemma skipWhile_app p a s :
  Forall (λ c, p c = true) a → skipWhile p (a ++ s) = skipWhile p s.
Proof. induction 1 as [|c a Hc _ IH]; simpl; [done|]. by rewrite Hc. Qed.

Lemma takeWhile_app p a s :
  Forall (λ c, p c = true) a → takeWhile p (a ++ s) = a ++ takeWhile p s.
Proof. induction 1 as [|c a Hc _ IH]; simpl; [done|]. by rewrite Hc, IH. Qed.

Lemma afterFirst_suffix c s r :
  afterFirst c s = Some r → ∃ p, s = p ++ c :: r ∧ Forall (λ x, x ≠ c) p.
Proof.
  revert r. induction s as [|x t IH]; simpl; intros r; [done|].
  destruct (N.eqb_spec x c) as [->|Hne].
  - intros [= ->]. by exists [].
  - intros (p & -> & Hp)%IH. exists (x :: p). split; [done|].
    by constructor.
Qed.

Lemma readBraced_split depth rest v r :
  readBraced depth rest = (v, r) → rest = v ++ r.
Proof.
  revert depth v r. induction rest as [|c t IH]; simpl; intros depth v r.
  - by intros [= <- <-].
  - destruct (c =? Ch.lbrace).
    { destruct (readBraced (depth + 1) t) as [v' r'] eqn:E.
      intros [= <- <-]. simpl. f_equal. by eapply IH. }
    destruct (c =? Ch.rbrace).
    { destruct (depth - 1 =? 0)%Z; [by intros [= <- <-]|].
      destruct (readBraced (depth - 1) t) as [v' r'] eqn:E.
      intros [= <- <-]. simpl. f_equal. by eapply IH. }
    destruct (readBraced depth t) as [v' r'] eqn:E.
    intros [= <- <-]. simpl. f_equal. by eapply IH.
Qed.

Lemma readQuoted_split prev rest v r :
  readQuoted prev rest = (v, r) → rest = v ++ r.
Proof.
  revert prev v r. induction rest as [|c t IH]; simpl; intros prev v r.
  - by intros [= <- <-].
  - destruct ((c =? Ch.dquote) && negb (prev =? Ch.backslash));
      [by intros [= <- <-]|].
    destruct (readQuoted c t) as [v' r'] eqn:E.
    intros [= <- <-]. simpl. f_equal. by eapply IH.
Qed.

Lemma readBibValueAt_suffix rest v r :
  readBibValueAt rest = (v, r) → r `suffix_of` rest.
Proof.
  unfold readBibValueAt. destruct rest as [|c t]; [by intros [= <- <-]|].
  destruct (c =? Ch.lbrace).
  { intros E%readBraced_split. exists v. done. }
  destruct (c =? Ch.dquote).
  { destruct (readQuoted c t) as [v' r'] eqn:E. apply readQuoted_split in E.
    intros [= <- <-]. subst t.
    transitivity r'; [|by exists (c :: v')].
    destruct r' as [|q r'']; [done|].
    destruct (q =? Ch.dquote); [by exists [q]|done]. }
  intros [= <- <-]. apply (skipWhile_suffix isBareChar (c :: t)).
Qed.

(** ** readBibValue is total and reads unterminated values to the end *)

Lemma occurrences_cons c x s :
  occurrences c (x :: s)
  = ((if (x =? c)%N then 1 else 0) + occurrences c s)%nat.
Proof. unfold occurrences. simpl. by destruct (x =? c). Qed.

Lemma readBraced_unterminated rest depth :
  (0 ≤ depth)%Z →
  (∀ n, (0 < n ≤ length rest)%nat →
        (0 < depth + Z.of_nat (occurrences Ch.lbrace (take n rest))
             - Z.of_nat (occurrences Ch.rbrace (take n rest)))%Z) →
  readBraced depth rest = (rest, []).
Proof.
  revert depth. induction rest as [|c t IH]; intros depth Hd Hopen; [done|].
  assert (Hstep : ∀ n, (0 < n ≤ length t)%nat →
            (0 < depth + Z.of_nat (occurrences Ch.lbrace (c :: take n t))
                 - Z.of_nat (occurrences Ch.rbrace (c :: take n t)))%Z).
  { intros n Hn. apply (Hopen (S n)). simpl. lia. }
  assert (Hone : (0 < depth + Z.of_nat (occurrences Ch.lbrace [c])
                      - Z.of_nat (occurrences Ch.rbrace [c]))%Z).
  { apply (Hopen 1%nat). simpl. lia. }
  simpl. rewrite !occurrences_cons in Hone.
  change (occurrences Ch.lbrace []) with 0%nat in Hone.
  change (occurrences Ch.rbrace []) with 0%nat in Hone.
  assert (Hstep' : ∀ n, (0 < n ≤ length t)%nat →
            (0 < depth + (if (c =? Ch.lbrace)%N then 1 else 0)
                 - (if (c =? Ch.rbrace)%N then 1 else 0)
                 + Z.of_nat (occurrences Ch.lbrace (take n t))
                 - Z.of_nat (occurrences Ch.rbrace (take n t)))%Z).
  { intros n Hn. specialize (Hstep n Hn). rewrite !occurrences_cons in Hstep.
    destruct (c =? Ch.lbrace), (c =? Ch.rbrace); lia. }
  destruct (N.eqb_spec c Ch.lbrace) as [->|Hl].
  - change (Ch.lbrace =? Ch.rbrace) with false in Hstep'.
    rewrite (IH (depth + 1)%Z); [done|lia|].
    intros n Hn. specialize (Hstep' n Hn). lia.
  - destruct (N.eqb_spec c Ch.rbrace) as [->|Hr].
    + change (Ch.rbrace =? Ch.lbrace) with false in Hone.
      destruct (Z.eqb_spec (depth - 1) 0) as [E|_]; [simpl in Hone; lia|].
      rewrite (IH (depth - 1)%Z); [done|simpl in Hone; lia|].
      intros n Hn. specialize (Hstep' n Hn). lia.
    + rewrite (IH depth); [done|lia|].
      intros n Hn. specialize (Hstep' n Hn). lia.
Qed.

Lemma readQuoted_unterminated body prev :
  (∀ i, body !! i = Some Ch.dquote →
        match i with
        | O => prev = Ch.backslash
        | S j => body !! j = Some Ch.backslash
        end) →
  readQuoted prev body = (body, []).
Proof.
  revert prev. induction body as [|c t IH]; intros prev Hq; [done|].
  simpl. destruct (N.eqb_spec c Ch.dquote) as [->|Hc]; simpl.
  - rewrite (Hq 0%nat eq_refl). simpl.
    rewrite IH; [done|]. intros [|j] Hi.
    + specialize (Hq 1%nat Hi). by injection Hq.
    + apply (Hq (S (S j)) Hi).
  - rewrite IH; [done|]. intros [|j] Hi.
    + specialize (Hq 1%nat Hi). by injection Hq.
    + apply (Hq (S (S j)) Hi).
Qed.

Lemma readBibValueAt_lbrace r :
  readBibValueAt (Ch.lbrace :: r) = readBraced 0 (Ch.lbrace :: r).
Proof. reflexivity. Qed.

Lemma readBibValueAt_dquote body :
  readBibValueAt (Ch.dquote :: body)
  = let '(v, r') := readQuoted Ch.dquote body in
    (v, match r' with
        | q :: r'' => if q =? Ch.dquote then r'' else r'
        | [] => r'
        end).
Proof. reflexivity. Qed.

(** C8: for every text and every start position [readBibValue] returns a
    value and a next cursor (nothing in it can throw: it is a total
    function), the cursor never moves backwards nor past the end of the
    text, and a brace-delimited or quote-delimited value that is never
    closed is read through to the end of the input. *)
Theorem readBibValue_total (tex : jsstring) (start : nat) :
  ∃ value next,
    readBibValue tex start = (value, next)
    ∧ (start ≤ next ≤ max start (length tex))%nat
    ∧ (∀ r, drop start tex = Ch.lbrace :: r →
            unterminatedBraces (Ch.lbrace :: r) →
            value = Ch.lbrace :: r ∧ next = length tex)
    ∧ (∀ body, drop start tex = Ch.dquote :: body →
               unterminatedQuote body →
               value = body ∧ next = length tex).
Proof.
  unfold readBibValue.
  destruct (readBibValueAt (drop start tex)) as [v r] eqn:E.
  exists v, (start + (length (drop start tex) - length r))%nat.
  pose proof (suffix_length _ _ (readBibValueAt_suffix _ _ _ E)) as Hlen.
  rewrite length_drop in *.
  split; [done|]. split; [lia|]. split.
  - intros r0 Hr0 Hopen. rewrite Hr0, readBibValueAt_lbrace in E.
    rewrite (readBraced_unterminated (Ch.lbrace :: r0) 0) in E; [|lia|].
    + injection E as <- <-. split; [done|].
      assert (length (drop start tex) = S (length r0)) as Hd by by rewrite Hr0.
      rewrite length_drop in Hd. simpl. lia.
    + intros n Hn. specialize (Hopen n Hn). lia.
  - intros body Hb Hq. rewrite Hb, readBibValueAt_dquote in E.
    rewrite (readQuoted_unterminated body Ch.dquote) in E.
    + injection E as <- <-. split; [done|].
      assert (length (drop start tex) = S (length body)) as Hd by by rewrite Hb.
      rewrite length_drop in Hd. simpl. lia.
    + intros [|j] Hi; destruct (Hq _ Hi) as (j' & Hj & Hj'); [done|].
      by injection Hj as ->.
Qed.

(** ** parseBib terminates *)

Lemma parseFields_enough fuel rest acc :
  (length rest < fuel)%nat →
  ∃ o r, parseFields fuel rest acc = Some (o, r) ∧ r `suffix_of` rest.
Proof.
  revert rest acc. induction fuel as [|fuel IH]; intros rest acc Hf; [lia|].
  simpl. destruct rest as [|x t] eqn:Hrest; [by eexists _, _|].
  rewrite <- Hrest in *. clear Hrest x t.
  pose proof (skipWhile_suffix isSpaceOrComma rest) as H1.
  destruct (skipWhile isSpaceOrComma rest) as [|c r2] eqn:E1.
  { eexists _, _. split; [done|]. apply suffix_nil. }
  destruct (c =? Ch.rbrace).
  { eexists _, _. split; [done|]. etransitivity; [|exact H1]. by exists [c]. }
  pose proof (skipWhile_suffix isNameChar (c :: r2)) as H2.
  pose proof (skipWhile_suffix isSpace (skipWhile isNameChar (c :: r2))) as H3.
  destruct (skipWhile isSpace (skipWhile isNameChar (c :: r2))) as [|e r4] eqn:E3.
  { eexists _, _. split; [done|]. apply suffix_nil. }
  assert ((e :: r4) `suffix_of` rest) as H4 by (by do 2 (etransitivity; [|done])).
  destruct (e =? Ch.equals); [|by eexists _, _].
  pose proof (skipWhile_suffix isSpace r4) as H5.
  destruct (readBibValueAt (skipWhile isSpace r4)) as [value r6] eqn:E6.
  apply readBibValueAt_suffix in E6.
  assert (r6 `suffix_of` r4) as H6 by (by etransitivity).
  apply suffix_length in H4 as L4. apply suffix_length in H6 as L6.
  simpl in L4.
  destruct (IH r6 (objSet (toLowerAscii (takeWhile isNameChar (c :: r2)))
                     (trim value) acc)) as (o & r & -> & Hr); [lia|].
  exists o, r. split; [done|].
  etransitivity; [exact Hr|]. etransitivity; [exact H6|].
  etransitivity; [|exact H4]. by exists [e].
Qed.

Lemma parseFields_more_fuel fuel fuel' rest acc res :
  parseFields fuel rest acc = Some res → (fuel ≤ fuel')%nat →
  parseFields fuel' rest acc = Some res.
Proof.
  revert fuel' rest acc. induction fuel as [|fuel IH]; intros fuel' rest acc;
    [done|].
  intros Hp Hle. destruct fuel' as [|fuel']; [lia|].
  simpl in *. destruct rest as [|x t]; [done|].
  destruct (skipWhile isSpaceOrComma (x :: t)) as [|c r2]; [done|].
  destruct (c =? Ch.rbrace); [done|].
  destruct (skipWhile isSpace (skipWhile isNameChar (c :: r2))) as [|e r4];
    [done|].
  destruct (e =? Ch.equals); [|done].
  destruct (readBibValueAt (skipWhile isSpace r4)) as [value r6].
  apply IH; [done|lia].
Qed.

Lemma parseRecord_enough fuel rest :
  (length rest < fuel)%nat →
  ∃ oe r, parseRecord fuel rest = Some (oe, r) ∧ r `suffix_of` rest.
Proof.
  intros Hf. unfold parseRecord.
  pose proof (skipWhile_suffix isSpace rest) as H1.
  pose proof (skipWhile_suffix isAlpha (skipWhile isSpace rest)) as H2.
  pose proof (skipWhile_suffix isSpace
                (skipWhile isAlpha (skipWhile isSpace rest))) as H3.
  destruct (skipWhile isSpace (skipWhile isAlpha (skipWhile isSpace rest)))
    as [|b r4] eqn:E3.
  { eexists _, _. split; [done|]. apply suffix_nil. }
  assert ((b :: r4) `suffix_of` rest) as H4 by (by do 2 (etransitivity; [|done])).
  destruct (b =? Ch.lbrace); [|by eexists _, _].
  pose proof (skipWhile_suffix isSpace r4) as H5.
  pose proof (skipWhile_suffix (λ c, negb (c =? Ch.comma)) (skipWhile isSpace r4))
    as H6.
  destruct (skipWhile (λ c, negb (c =? Ch.comma)) (skipWhile isSpace r4))
    as [|k r7] eqn:E6.
  { eexists _, _. split; [done|]. apply suffix_nil. }
  assert (r7 `suffix_of` rest) as H7.
  { transitivity (k :: r7); [by exists [k]|].
    etransitivity; [exact H6|]. etransitivity; [exact H5|].
    etransitivity; [|exact H4]. by exists [b]. }
  apply suffix_length in H7 as L7.
  destruct (parseFields_enough fuel r7 ∅) as (o & r & -> & Hr); [lia|].
  eexists _, _. split; [done|]. by etransitivity.
Qed.

Lemma parseRecord_more_fuel fuel fuel' rest res :
  parseRecord fuel rest = Some res → (fuel ≤ fuel')%nat →
  parseRecord fuel' rest = Some res.
Proof.
  unfold parseRecord. intros Hp Hle.
  destruct (skipWhile isSpace (skipWhile isAlpha (skipWhile isSpace rest)))
    as [|b r4]; [done|].
  destruct (b =? Ch.lbrace); [|done].
  destruct (skipWhile _ (skipWhile isSpace r4)) as [|k r7]; [done|].
  destruct (parseFields fuel r7 ∅) as [[fs r8]|] eqn:E; [|done].
  by rewrite (parseFields_more_fuel _ _ _ _ _ E Hle).
Qed.

Lemma parseLoop_enough fuel rest entries :
  (length rest < fuel)%nat → is_Some (parseLoop fuel rest entries).
Proof.
  revert rest entries. induction fuel as [|fuel IH]; intros rest entries Hf;
    [lia|].
  simpl. destruct rest as [|x t] eqn:Hrest; [done|].
  rewrite <- Hrest in *. clear Hrest x t.
  destruct (afterFirst Ch.at_sign rest) as [r0|] eqn:E0; [|done].
  apply afterFirst_suffix in E0 as (p & -> & _).
  rewrite length_app in Hf. simpl in Hf.
  destruct (parseRecord_enough fuel r0) as (oe & r & -> & Hr); [lia|].
  apply suffix_length in Hr. apply IH. lia.
Qed.

Lemma parseLoop_more_fuel fuel fuel' rest entries res :
  parseLoop fuel rest entries = Some res → (fuel ≤ fuel')%nat →
  parseLoop fuel' rest entries = Some res.
Proof.
  revert fuel' rest entries. induction fuel as [|fuel IH];
    intros fuel' rest entries; [done|].
  intros Hp Hle. destruct fuel' as [|fuel']; [lia|].
  simpl in *. destruct rest as [|x t]; [done|].
  destruct (afterFirst Ch.at_sign (x :: t)) as [r0|]; [|done].
  destruct (parseRecord fuel r0) as [[oe r]|] eqn:E; [|done].
  rewrite (parseRecord_more_fuel _ fuel' _ _ E); [|lia].
  apply IH; [done|lia].
Qed.

(** C9: [parseBib] terminates on every text.  The fuel of the entry point is
    never exhausted (and more fuel changes nothing), because each iteration
    of the outer loop that locates an [@] resumes strictly behind it: the
    text still to be scanned is a proper suffix of what it was, i.e. the
    scan position strictly increases. *)
Theorem parseBib_terminates (tex : jsstring) :
  (∃ entries,
      parseLoop (parseBibFuel tex) tex [] = Some entries
      ∧ parseBib tex = entries
      ∧ ∀ fuel, (parseBibFuel tex ≤ fuel)%nat →
                parseLoop fuel tex [] = Some entries)
  ∧ (∀ fuel rest r0 oe r,
        rest `suffix_of` tex →
        afterFirst Ch.at_sign rest = Some r0 →
        parseRecord fuel r0 = Some (oe, r) →
        r `suffix_of` tex
        ∧ (length tex - length rest < length tex - length r)%nat).
Proof.
  split.
  - destruct (parseLoop_enough (parseBibFuel tex) tex []) as [entries He].
    { unfold parseBibFuel. lia. }
    exists entries. split; [done|]. split.
    + unfold parseBib. by rewrite He.
    + intros fuel Hle. by eapply parseLoop_more_fuel.
  - intros fuel rest r0 oe r Hrest H0 Hrec.
    apply afterFirst_suffix in H0 as (p & -> & _).
    assert (r `suffix_of` r0) as Hr.
    { destruct (parseRecord_enough (S (length r0)) r0) as (oe' & r' & E & Hs);
        [lia|].
      destruct (Nat.le_gt_cases fuel (S (length r0))) as [Hle|Hgt].
      - rewrite (parseRecord_more_fuel _ _ _ _ Hrec Hle) in E.
        by injection E as <- <-.
      - rewrite (parseRecord_more_fuel _ fuel _ _ E) in Hrec; [|lia].
        by injection Hrec as <- <-. }
    split.
    + etransitivity; [exact Hr|]. etransitivity; [|exact Hrest].
      exists (p ++ [Ch.at_sign]). by rewrite <- app_assoc.
    + apply suffix_length in Hr, Hrest. rewrite length_app in *.
      simpl in *. lia.
Qed.

(** ** Array.prototype.sort: permutation, order, stability *)

Section SortFacts.
Context {A : Type} (compare : A → A → Z).

Lemma insertSorted_perm x l : insertSorted compare x l ≡ₚ x :: l.
Proof.
  induction l as [|y r IH]; simpl; [done|].
  destruct (compare x y <=? 0)%Z; [done|].
  rewrite IH. apply Permutation_swap.
Qed.

Lemma jsSort_perm l : jsSort compare l ≡ₚ l.
Proof.
  induction l as [|x r IH]; simpl; [done|].
  by rewrite insertSorted_perm, IH.
Qed.

Lemma jsSort_length l : length (jsSort compare l) = length l.
Proof. apply Permutation_length, jsSort_perm. Qed.

Lemma jsSort_singleton x : jsSort compare [x] = [x].
Proof. done. Qed.

Context (Hcons : consistent compare).

Lemma compare_flip a b : (0 < compare a b)%Z → (compare b a ≤ 0)%Z.
Proof. destruct Hcons as [Hs _]. specialize (Hs a b). lia. Qed.

Lemma compare_zero_trans a b c :
  compare a b = 0%Z → compare a c = 0%Z → compare b c = 0%Z.
Proof.
  destruct Hcons as [Hs Ht]. intros Hab Hac.
  assert (compare b a = 0%Z) as Hba by (specialize (Hs a b); lia).
  assert (compare c a = 0%Z) as Hca by (specialize (Hs a c); lia).
  assert (compare b c ≤ 0)%Z by (apply (Ht b a c); lia).
  assert (compare c b ≤ 0)%Z by (apply (Ht c a b); lia).
  specialize (Hs b c). lia.
Qed.

Lemma insertSorted_sorted x l :
  StronglySorted (λ a b, (compare a b ≤ 0)%Z) l →
  StronglySorted (λ a b, (compare a b ≤ 0)%Z) (insertSorted compare x l).
Proof.
  induction 1 as [|y r Hr IH Hy]; simpl.
  - repeat constructor.
  - destruct (Z.leb_spec (compare x y) 0) as [Hle|Hgt].
    + constructor; [by constructor|]. constructor; [done|].
      eapply Forall_impl; [exact Hy|]. intros z Hz. simpl in Hz.
      destruct Hcons as [_ Ht]. by apply (Ht x y z).
    + constructor; [done|]. rewrite insertSorted_perm.
      constructor; [by apply compare_flip|done].
Qed.

Lemma jsSort_sorted l :
  StronglySorted (λ a b, (compare a b ≤ 0)%Z) (jsSort compare l).
Proof.
  induction l as [|x r IH]; simpl; [constructor|].
  by apply insertSorted_sorted.
Qed.

Lemma insertSorted_stable e x l :
  filter (λ y, compare e y = 0%Z) (insertSorted compare x l)
  = filter (λ y, compare e y = 0%Z) (x :: l).
Proof.
  induction l as [|y r IH]; simpl; [done|].
  destruct (Z.leb_spec (compare x y) 0) as [Hle|Hgt]; [done|].
  rewrite filter_cons, IH, !filter_cons.
  destruct (decide (compare e y = 0%Z)) as [Hy|Hy]; [|done].
  destruct (decide (compare e x = 0%Z)) as [Hx|Hx]; [|done].
  pose proof (compare_zero_trans e x y Hx Hy). lia.
Qed.

Lemma jsSort_stable e l :
  filter (λ y, compare e y = 0%Z) (jsSort compare l)
  = filter (λ y, compare e y = 0%Z) l.
Proof.
  induction l as [|x r IH]; simpl; [done|].
  by rewrite insertSorted_stable, !filter_cons, IH.
Qed.

(** Sorting what is already in order changes nothing. *)
Lemma jsSort_fixed l :
  StronglySorted (λ a b, (compare a b ≤ 0)%Z) l → jsSort compare l = l.
Proof.
  induction 1 as [|x r Hr IH Hx]; simpl; [done|].
  rewrite IH. destruct r as [|y r']; simpl; [done|].
  apply Forall_cons_1 in Hx as [Hxy _].
  by destruct (Z.leb_spec (compare x y) 0); [|lia].
Qed.
End SortFacts.

Lemma StronglySorted_weaken {A} (R S : A → A → Prop) l :
  (∀ a b, R a b → S a b) → StronglySorted R l → StronglySorted S l.
Proof.
  intros HRS. induction 1 as [|x r Hr IH Hx]; constructor; [done|].
  eapply Forall_impl; [exact Hx|]. intros; by apply HRS.
Qed.

(** ** Numbers *)

Lemma numLt_trans a b c : numLt a b → numLt b c → numLt a c.
Proof.
  destruct a, b, c; simpl; try done. apply Qclt_trans.
Qed.

Lemma numLt_irrefl a : ¬ numLt a a.
Proof.
  destruct a; simpl; try tauto. intros Hq. by apply Qclt_not_eq in Hq.
Qed.

Lemma num_cases x y :
  x ≠ NaN → y ≠ NaN →
  (numLt x y ∧ numDiffer x y = true ∧ subSign x y = (-1)%Z ∧ subSign y x = 1%Z)
  ∨ (x = y ∧ numDiffer x y = false ∧ subSign x y = 0%Z)
  ∨ (numLt y x ∧ numDiffer x y = true ∧ subSign x y = 1%Z ∧ subSign y x = (-1)%Z).
Proof.
  intros Hx Hy. destruct x as [| |p|], y as [| |q|]; simpl; try done;
    try (by left); try (by right; left); try (by right; right).
  pose proof (Qcompare_antisym p q) as Hanti.
  change ((p ?= q)%Q) with ((p ?= q)%Qc) in Hanti.
  change ((q ?= p)%Q) with ((q ?= p)%Qc) in Hanti.
  destruct (p ?= q)%Qc eqn:E; simpl in Hanti; rewrite <- Hanti.
  - right; left. apply Qceq_alt in E as ->. done.
  - left. by apply Qclt_alt in E.
  - right; right. apply Qcgt_alt in E. done.
Qed.

Lemma numDiffer_sym x y : numDiffer x y = numDiffer y x.
Proof.
  destruct x as [| |p|], y as [| |q|]; simpl; try done.
  pose proof (Qcompare_antisym p q) as Hanti.
  change ((p ?= q)%Q) with ((p ?= q)%Qc) in Hanti.
  change ((q ?= p)%Q) with ((q ?= p)%Qc) in Hanti.
  rewrite <- Hanti. by destruct (p ?= q)%Qc.
Qed.

(** ** cleanEntries: what it keeps and how it orders *)

Lemma cleanFields_lookup o name :
  cleanFields o !! name = o !! name ≫= cleanField name.
Proof. apply map_lookup_imap. Qed.

Section OrderingFacts.
Context `{Host}.

Lemma yearNumber_not_NaN e : yearNumber e ≠ NaN.
Proof. unfold yearNumber. by destruct (Number (getYear e)). Qed.

Lemma compareEntries_spec a b :
  (numLt (yearNumber a) (yearNumber b)
   ∧ compareEntries a b = 1%Z ∧ compareEntries b a = (-1)%Z)
  ∨ (yearNumber a = yearNumber b
     ∧ compareEntries a b = localeCompare (titleOf a) (titleOf b)
     ∧ compareEntries b a = localeCompare (titleOf b) (titleOf a))
  ∨ (numLt (yearNumber b) (yearNumber a)
     ∧ compareEntries a b = (-1)%Z ∧ compareEntries b a = 1%Z).
Proof.
  unfold compareEntries.
  rewrite (numDiffer_sym (yearNumber b) (yearNumber a)).
  destruct (num_cases (yearNumber a) (yearNumber b)
              (yearNumber_not_NaN a) (yearNumber_not_NaN b))
    as [(Hlt & -> & H1 & H2)|[(Heq & -> & H1)|(Hlt & -> & H1 & H2)]].
  - left. by rewrite H2.
  - right; left. done.
  - right; right. by rewrite H2.
Qed.

Lemma compareEntries_before a b :
  (compareEntries a b ≤ 0)%Z ↔ entryBefore a b.
Proof.
  unfold entryBefore.
  destruct (compareEntries_spec a b)
    as [(Hlt & -> & _)|[(Heq & -> & _)|(Hlt & -> & _)]].
  - split; [lia|]. intros [Hba|[Heq _]].
    + destruct (numLt_irrefl _ (numLt_trans _ _ _ Hlt Hba)).
    + rewrite Heq in Hlt. destruct (numLt_irrefl _ Hlt).
  - split; [by right|]. intros [Hba|[_ Hle]]; [|done].
    rewrite Heq in Hba. destruct (numLt_irrefl _ Hba).
  - split; [by left|lia].
Qed.

Lemma compareEntries_same a b :
  compareEntries a b = 0%Z ↔ sameKeys a b.
Proof.
  unfold sameKeys.
  destruct (compareEntries_spec a b)
    as [(Hlt & -> & _)|[(Heq & -> & _)|(Hlt & -> & _)]].
  - split; [lia|]. intros [Heq _].
    rewrite Heq in Hlt. destruct (numLt_irrefl _ Hlt).
  - tauto.
  - split; [lia|]. intros [Heq _].
    rewrite Heq in Hlt. destruct (numLt_irrefl _ Hlt).
Qed.

Lemma compareEntries_consistent :
  consistent localeCompare → consistent compareEntries.
Proof.
  intros [Hs Ht]. split.
  - intros a b.
    destruct (compareEntries_spec a b)
      as [(_ & -> & ->)|[(_ & -> & ->)|(_ & -> & ->)]]; [done| |done].
    apply Hs.
  - intros a b c. rewrite !compareEntries_before. unfold entryBefore.
    intros [Hba|[Eab Hab]] [Hcb|[Ebc Hbc]].
    + left. by eapply numLt_trans.
    + left. by rewrite <- Ebc.
    + left. by rewrite Eab.
    + right. split; [congruence|]. by eapply Ht.
Qed.
End OrderingFacts.

Lemma StronglySorted_lookup {A} (R : A → A → Prop) l i j a b :
  StronglySorted R l → (i < j)%nat →
  l !! i = Some a → l !! j = Some b → R a b.
Proof.
  intros Hs. revert i j. induction Hs as [|x r Hr IH Hx]; intros i j Hij Hi Hj.
  - done.
  - destruct j as [|j]; [lia|]. destruct i as [|i].
    + injection Hi as ->. rewrite Forall_forall in Hx. apply Hx.
      by eapply list_elem_of_lookup_2.
    + apply (IH i j); [lia|done|done].
Qed.

(** C10: [cleanEntries] drops no entry: its result has the length of its
    input and is a rearrangement of the entries cleaned one by one, each of
    which keeps its type and key; only [fields] changes, and there a field
    survives, with its normalized value, exactly when it is not denylisted
    and does not normalize to the empty string. *)
Theorem cleanEntries_frame `{Host} (entries : list Entry) :
  length (cleanEntries entries) = length entries
  ∧ cleanEntries entries ≡ₚ map cleanEntry entries
  ∧ map (λ e, (type e, key e)) (cleanEntries entries)
    ≡ₚ map (λ e, (type e, key e)) entries
  ∧ ∀ e, type (cleanEntry e) = type e
         ∧ key (cleanEntry e) = key e
         ∧ ∀ name,
             (name ∈ DROP_FIELDS → fields (cleanEntry e) !! name = None)
             ∧ (fields e !! name = None →
                fields (cleanEntry e) !! name = None)
             ∧ (∀ raw, fields e !! name = Some raw →
                       bibToText raw = [] →
                       fields (cleanEntry e) !! name = None)
             ∧ (∀ raw, fields e !! name = Some raw →
                       name ∉ DROP_FIELDS → name ≠ protoName →
                       bibToText raw ≠ [] →
                       fields (cleanEntry e) !! name = Some (bibToText raw)).
Proof.
  assert (cleanEntries entries ≡ₚ map cleanEntry entries) as Hperm
    by apply jsSort_perm.
  split; [|split; [done|split]].
  - unfold cleanEntries. by rewrite jsSort_length, length_map.
  - rewrite Hperm, map_map. done.
  - intros e. split; [done|]. split; [done|]. intros name.
    simpl. rewrite cleanFields_lookup. repeat split.
    + intros Hin. destruct (fields e !! name) as [raw|]; [|done]. simpl.
      unfold cleanField. by rewrite bool_decide_eq_true_2.
    + by intros ->.
    + intros raw -> Hraw. simpl. unfold cleanField. rewrite Hraw.
      by destruct (bool_decide _).
    + intros raw -> Hdrop Hproto Hraw. simpl. unfold cleanField.
      rewrite bool_decide_eq_false_2 by done.
      destruct (bibToText raw); [done|]. simpl.
      by destruct (decide (name = protoName)).
Qed.

(** C2, as the code has it: with a consistent [localeCompare] (and
    [Number("Unknown")] being [NaN]), [cleanEntries] returns the cleaned
    entries sorted by numeric year descending and, for equal years, by title
    ascending; entries equal under both keys keep their relative order.  The
    year is [fields.year], else the first four units of [fields.date], else
    ["Unknown"]; a year that is no number, or absent, counts as 0, so that
    such an entry comes after every entry with a positive year and before
    every entry with a year below zero: it is not last when there is a year
    below zero.  A missing title counts as the empty string. *)
Theorem cleanEntries_sorted `{Host} (entries : list Entry) :
  consistent localeCompare →
  Number (js "Unknown") = NaN →
  cleanEntries entries ≡ₚ map cleanEntry entries
  ∧ StronglySorted entryBefore (cleanEntries entries)
  ∧ (∀ i j a b,
        (i < j)%nat →
        cleanEntries entries !! i = Some a →
        cleanEntries entries !! j = Some b →
        entryBefore a b)
  ∧ (∀ i j a b,
        cleanEntries entries !! i = Some a →
        cleanEntries entries !! j = Some b →
        yearNumber a = Fin 0%Qc → numLt (Fin 0%Qc) (yearNumber b) →
        (j < i)%nat)
  ∧ (∀ i j a b,
        cleanEntries entries !! i = Some a →
        cleanEntries entries !! j = Some b →
        yearNumber a = Fin 0%Qc → numLt (yearNumber b) (Fin 0%Qc) →
        (i < j)%nat)
  ∧ (∀ e, filter (sameKeys e) (cleanEntries entries)
          = filter (sameKeys e) (map cleanEntry entries))
  ∧ (∀ e,
        (∀ y, fields e !! js "year" = Some y → y ≠ [] → getYear e = y)
        ∧ (∀ d, field (fields e) "year" = [] →
                fields e !! js "date" = Some d → d ≠ [] →
                getYear e = take 4 d)
        ∧ (field (fields e) "year" = [] → field (fields e) "date" = [] →
           getYear e = js "Unknown" ∧ yearNumber e = Fin 0%Qc)
        ∧ (Number (getYear e) = NaN → yearNumber e = Fin 0%Qc)
        ∧ (Number (getYear e) ≠ NaN → yearNumber e = Number (getYear e))
        ∧ (fields e !! js "title" = None → titleOf e = [])
        ∧ (∀ t, fields e !! js "title" = Some t → titleOf e = t)).
Proof.
  intros Hlc Hunknown.
  pose proof (compareEntries_consistent Hlc) as Hcons.
  assert (StronglySorted entryBefore (cleanEntries entries)) as Hsorted.
  { eapply StronglySorted_weaken; [|by apply jsSort_sorted].
    intros a b. apply compareEntries_before. }
  split; [apply jsSort_perm|]. split; [done|].
  split; [|split; [|split; [|split]]].
  - intros i j a b. by apply StronglySorted_lookup.
  - intros i j a b Hi Hj Ha Hb.
    destruct (Nat.lt_trichotomy i j) as [Hlt|[->|Hgt]]; [|..|done]; exfalso.
    + destruct (StronglySorted_lookup _ _ _ _ _ _ Hsorted Hlt Hi Hj)
        as [Hba|[Heq _]].
      * rewrite Ha in Hba.
        destruct (numLt_irrefl _ (numLt_trans _ _ _ Hb Hba)).
      * rewrite <- Heq, Ha in Hb. destruct (numLt_irrefl _ Hb).
    + rewrite Hi in Hj. injection Hj as ->. rewrite Ha in Hb.
      destruct (numLt_irrefl _ Hb).
  - intros i j a b Hi Hj Ha Hb.
    destruct (Nat.lt_trichotomy i j) as [Hlt|[->|Hgt]]; [done|..]; exfalso.
    + rewrite Hi in Hj. injection Hj as ->. rewrite Ha in Hb.
      destruct (numLt_irrefl _ Hb).
    + destruct (StronglySorted_lookup _ _ _ _ _ _ Hsorted Hgt Hj Hi)
        as [Hab|[Heq _]].
      * rewrite Ha in Hab.
        destruct (numLt_irrefl _ (numLt_trans _ _ _ Hab Hb)).
      * rewrite Heq, Ha in Hb. destruct (numLt_irrefl _ Hb).
  - intros e. unfold cleanEntries.
    transitivity (filter (λ y, compareEntries e y = 0%Z)
                    (jsSort compareEntries (map cleanEntry entries))).
    { apply list_filter_iff. intros x. symmetry. apply compareEntries_same. }
    rewrite (jsSort_stable compareEntries Hcons).
    apply list_filter_iff. intros x. apply compareEntries_same.
  - intros e. unfold yearNumber, titleOf, orElse.
    split; [|split; [|split; [|split; [|split; [|split]]]]].
    + intros y Hy Hne. unfold getYear, field. rewrite Hy. simpl.
      by destruct y.
    + intros d Hy Hd Hne. unfold getYear. rewrite Hy. unfold field.
      rewrite Hd. simpl. by destruct d.
    + intros Hy Hd. unfold getYear. rewrite Hy, Hd.
      change (truthy []) with false. cbv iota. by rewrite Hunknown.
    + by intros ->.
    + by destruct (Number (getYear e)).
    + unfold field. by intros ->.
    + unfold field. intros t ->. simpl. by destruct t.
Qed.

(** ** buildLinks never repeats an href *)

Lemma linksDistinct_init : linksDistinct (mkLinkState [] ∅).
Proof. split; [constructor|]. simpl. by intros h ?%elem_of_nil. Qed.

Lemma addLink_distinct st label href :
  linksDistinct st → linksDistinct (addLink st label href).
Proof.
  intros [Hnd Hseen]. unfold addLink.
  destruct (truthy href); simpl; [|done].
  destruct (bool_decide_reflect (href ∈ seen st)) as [Hin|Hnot]; [done|].
  split; simpl; rewrite map_app; simpl.
  - apply NoDup_app. split; [done|]. split; [|apply NoDup_singleton].
    intros h Hh ->%list_elem_of_singleton. by apply Hnot, Hseen.
  - intros h [Hh| ->%list_elem_of_singleton]%elem_of_app.
    + apply elem_of_union_r. by apply Hseen.
    + apply elem_of_union_l. by apply elem_of_singleton.
Qed.

Lemma addAssetLink_distinct entry st label fieldNames :
  linksDistinct st → linksDistinct (addAssetLink entry st label fieldNames).
Proof.
  intros Hst. induction fieldNames as [|name others IH]; simpl; [done|].
  destruct (truthy _); simpl; [|done].
  destruct (looksLikeLink _); simpl; [|done].
  by apply addLink_distinct.
Qed.

Lemma addDefaultPdf_distinct `{Host} entry st label :
  linksDistinct st → linksDistinct (addDefaultPdf entry st label).
Proof.
  intros Hst. unfold addDefaultPdf.
  destruct (_ && _); [by apply addLink_distinct|done].
Qed.

(** C4: the links returned by [buildLinks] have pairwise distinct hrefs, in
    this revision and in the earlier one. *)
Theorem buildLinks_distinct `{Host} (entry : Entry) :
  NoDup (map href (buildLinks entry))
  ∧ NoDup (map href (Legacy.buildLinks entry)).
Proof.
  pose proof linksDistinct_init as H0.
  split.
  - unfold buildLinks.
    repeat (match goal with
            | |- context [decide ?P] => destruct (decide P)
            | |- context [bool_decide ?P || bool_decide ?Q] =>
                destruct (bool_decide P || bool_decide Q)
            end).
    all: try (apply addDefaultPdf_distinct;
              repeat apply addAssetLink_distinct; done).
    repeat match goal with
           | |- context [if ?b then addLink _ _ _ else _] => destruct b
           end;
      repeat apply addLink_distinct; apply H0.
  - unfold Legacy.buildLinks.
    repeat match goal with
           | |- context [if ?b then addLink _ _ _ else _] => destruct b
           end;
      repeat apply addLink_distinct; apply H0.
Qed.

(** ** The link resolver's candidate rule *)

Lemma addAssetLink_skip entry st label fieldNames :
  Forall (λ name, ∀ raw, fields entry !! name = Some raw → raw ≠ [] →
                         looksLikeLink raw = false) fieldNames →
  addAssetLink entry st label fieldNames = st.
Proof.
  induction 1 as [|name others Hname _ IH]; simpl; [done|].
  destruct (fields entry !! name) as [raw|] eqn:E; simpl; [|done].
  destruct raw as [|c raw']; simpl; [done|].
  by rewrite (Hname (c :: raw') eq_refl).
Qed.

(** C3, as the code has it: [addAssetLink] walks the candidate fields in
    priority order and forms its link from the first one whose value is
    present and looks like a link; a present value that does not look like a
    link is passed over (no link is formed from it) and the next candidate
    is tried.  A value looks like a link when it is an absolute URL, a
    [mailto:], a path, or contains [.pdf] at its end or before [?] or [#];
    an accepted value of the last kind only is rewritten under [pdfs/], the
    others are used as they are. *)
Theorem addAssetLink_first_link (entry : Entry) (st : LinkState)
    (label : jsstring) (fieldNames : list jsstring) :
  (∀ before name after raw,
      fieldNames = before ++ name :: after →
      Forall (λ n, ∀ r, fields entry !! n = Some r → r ≠ [] →
                        looksLikeLink r = false) before →
      fields entry !! name = Some raw → raw ≠ [] →
      looksLikeLink raw = true →
      addAssetLink entry st label fieldNames
      = addLink st label (normalizeLinkTarget raw))
  ∧ (Forall (λ n, ∀ r, fields entry !! n = Some r → r ≠ [] →
                       looksLikeLink r = false) fieldNames →
     addAssetLink entry st label fieldNames = st)
  ∧ (∀ raw, looksLikeLink raw
            = isUrlOrPath (trim raw) || hasPdfSuffix (trim raw))
  ∧ (∀ raw, isUrlOrPath (trim raw) = true →
            normalizeLinkTarget raw = trim raw)
  ∧ (∀ raw, isUrlOrPath (trim raw) = false →
            normalizeLinkTarget raw = js "pdfs/" ++ trim raw).
Proof.
  split; [|split; [apply addAssetLink_skip|split; [done|split]]].
  - intros before name after raw -> Hbefore Hraw Hne Hlink.
    induction Hbefore as [|n others Hn _ IH]; simpl.
    + rewrite Hraw. simpl. rewrite Hlink. by destruct raw.
    + destruct (fields entry !! n) as [r|] eqn:E; simpl; [|done].
      destruct r as [|c r']; simpl; [done|].
      by rewrite (Hn (c :: r') eq_refl).
  - intros raw Hu. unfold normalizeLinkTarget. by rewrite Hu.
  - intros raw Hu. unfold normalizeLinkTarget. by rewrite Hu.
Qed.

(** The claim of C3 about values that do not look like a link fails: the
    bare file name [draft] in [final_draft] is present and does not look
    like a link, yet no link with href [pdfs/draft] (indeed no link at all)
    is formed. *)
Lemma bare_filename_not_rewritten :
  fields Sample.bareDraft !! js "final_draft" = Some (js "draft")
  ∧ js "final_draft" ∈ FINAL_DRAFT_FIELDS
  ∧ looksLikeLink (js "draft") = false
  ∧ addAssetLink Sample.bareDraft (mkLinkState [] ∅) (js "Final Draft")
      FINAL_DRAFT_FIELDS = mkLinkState [] ∅
  ∧ @buildLinks plainHost Sample.bareDraft = []
  ∧ ¬ (mkLink (js "Final Draft") (js "pdfs/draft")
       ∈ @buildLinks plainHost Sample.bareDraft).
Proof.
  split; [by vm_compute|]. split; [apply list_elem_of_here|].
  split; [by vm_compute|]. split; [by vm_compute|].
  assert (@buildLinks plainHost Sample.bareDraft = []) as -> by by vm_compute.
  split; [done|]. apply not_elem_of_nil.
Qed.

(** ** Patent status in the venue *)

Lemma startsWith_app p s : startsWith p (p ++ s) = true.
Proof. induction p as [|c p IH]; simpl; [done|]. by rewrite N.eqb_refl. Qed.

Lemma join_cons_starts sep x l : ∃ s, join sep (x :: l) = x ++ s.
Proof.
  destruct l as [|y l]; simpl; [exists []; by rewrite app_nil_r|].
  by eexists.
Qed.

Lemma filter_whenSet a b c :
  List.filter truthy (whenSet a a ++ whenSet b b ++ whenSet c c)
  = List.filter truthy [a; b; c].
Proof. by destruct a, b, c. Qed.

Lemma tableLookup_own table name v :
  NoDup (map fst table) → (name, v) ∈ table → tableLookup table name = Own v.
Proof.
  unfold tableLookup. intros Hnd Hin.
  destruct (list_find _ table) as [[i [k v']]|] eqn:E.
  - apply list_find_Some in E as (Hi & Hk & _). simpl in Hk. subst k.
    apply list_elem_of_lookup in Hin as [j Hj].
    assert (i = j) as ->.
    { eapply NoDup_lookup; [exact Hnd| |];
        rewrite list_lookup_fmap; [by rewrite Hi|by rewrite Hj]. }
    rewrite Hi in Hj. by injection Hj as ->.
  - apply list_find_None in E. rewrite Forall_forall in E.
    by destruct (E (name, v) Hin).
Qed.

Lemma tableLookup_undefined table name :
  name ∉ map fst table → name ∉ objectPrototypeNames →
  tableLookup table name = Undefined.
Proof.
  unfold tableLookup. intros Hk Hp.
  destruct (list_find _ table) as [[i [k v']]|] eqn:E.
  - apply list_find_Some in E as (Hi & Hkk & _). simpl in Hkk. subst k.
    destruct Hk. apply list_elem_of_lookup. exists i.
    by rewrite list_lookup_fmap, Hi.
  - by rewrite bool_decide_eq_false_2.
Qed.

(** C5, as the code has it: in the venue of a patent-type entry whose status
    has a non-empty label, the piece ["Status: " + label] comes first,
    before patent number, location and date; when the label is empty (a
    status made of white space, hyphens and underscores only) no status
    piece is emitted.  The label is the one of the status-code table for its
    codes - [published-application] gives [Status: Published application] -
    and, for a code that is neither in the table nor the name of a property
    of [Object.prototype], the code title-cased token by token. *)
Theorem patent_status_piece `{Host} (entry : Entry) :
  type entry = js "patent" →
  let f := fields entry in
  let status := field f "status" in
  let label := formatPatentStatus status in
  let others :=
    List.filter truthy [field f "number"; field f "location"; field f "date"] in
  (label ≠ [] →
   buildVenue entry = join (js ", ") ((js "Status: " ++ label) :: others)
   ∧ startsWith (js "Status: " ++ label) (buildVenue entry) = true)
  ∧ (label = [] → buildVenue entry = join (js ", ") others)
  ∧ (status ≠ [] →
     (∀ v, (statusCode status, v) ∈ STATUS_LABELS → label = v)
     ∧ (statusCode status ∉ map fst STATUS_LABELS →
        statusCode status ∉ objectPrototypeNames →
        label = join (js " ")
                  (map titleCaseToken
                     (List.filter truthy
                        (splitChar Ch.underscore [] (statusCode status))))))
  ∧ (status = js "published-application" →
     label = js "Published application"
     ∧ startsWith (js "Status: Published application") (buildVenue entry)
       = true).
Proof.
  intros Htype f status label others.
  assert (buildVenue entry
          = joinPieces (whenSet label (js "Status: " ++ label)
                        ++ whenSet (field f "number") (field f "number")
                        ++ whenSet (field f "location") (field f "location")
                        ++ whenSet (field f "date") (field f "date"))) as Hv.
  { unfold buildVenue. rewrite Htype.
    destruct (decide (js "patent" = js "article")) as [E|_]; [done|].
    destruct (decide (js "patent" = js "inproceedings")) as [E|_]; [done|].
    destruct (decide (js "patent" = js "patent")) as [_|E]; [done|done]. }
  assert (Hfirst : label ≠ [] →
            buildVenue entry
            = join (js ", ") ((js "Status: " ++ label) :: others)
            ∧ startsWith (js "Status: " ++ label) (buildVenue entry) = true).
  { intros Hl. rewrite Hv. unfold joinPieces.
    assert (whenSet label (js "Status: " ++ label) = [js "Status: " ++ label])
      as -> by by destruct label.
    change ([?x] ++ ?l) with (x :: l).
    change (List.filter truthy ((js "Status: " ++ label) :: ?l))
      with ((js "Status: " ++ label) :: List.filter truthy l).
    rewrite filter_whenSet. fold others. split; [done|].
    destruct (join_cons_starts (js ", ") (js "Status: " ++ label) others)
      as [s Hs].
    rewrite Hs. apply startsWith_app. }
  split; [exact Hfirst|]. split; [|split].
  - intros Hl. rewrite Hv, Hl. unfold joinPieces. simpl whenSet at 1.
    by rewrite app_nil_l, filter_whenSet.
  - intros Hs. subst label. unfold formatPatentStatus.
    assert (truthy status = true) as -> by (by destruct status).
    simpl negb. cbv iota. split.
    + intros v Hin. rewrite (tableLookup_own _ _ v); [done| |done].
      apply (bool_decide_unpack (NoDup (map fst STATUS_LABELS))).
      by vm_compute.
    + intros Hk Hp. by rewrite tableLookup_undefined.
  - intros Hs.
    assert (label = js "Published application") as Hl.
    { subst label. rewrite Hs. by vm_compute. }
    split; [done|].
    destruct Hfirst as [Hb _]; [by rewrite Hl|]. rewrite Hb, Hl.
    destruct (join_cons_starts (js ", ")
                (js "Status: " ++ js "Published application") others)
      as [s Hj].
    rewrite Hj. apply (startsWith_app (js "Status: Published application")).
Qed.

(** The claim of C5 fails as stated: the patent [Sample.hyphenStatus] has
    the non-empty status [-], and its venue is the bare patent number. *)
Lemma hyphen_status_has_no_piece :
  type Sample.hyphenStatus = js "patent"
  ∧ field (fields Sample.hyphenStatus) "status" = js "-"
  ∧ @buildVenue plainHost Sample.hyphenStatus = js "US1"
  ∧ startsWith (js "Status: ") (@buildVenue plainHost Sample.hyphenStatus)
    = false.
Proof. by vm_compute. Qed.

Lemma patent_status_piece_witness :
  type Sample.publishedApplication = js "patent"
  ∧ field (fields Sample.publishedApplication) "status"
    = js "published-application"
  ∧ @buildVenue plainHost Sample.publishedApplication
    = js "Status: Published application, US1".
Proof.
  split; [done|]. split; [by vm_compute|].
  destruct (@patent_status_piece plainHost Sample.publishedApplication eq_refl)
    as (Hfirst & _ & _ & Hpub).
  destruct Hpub as [Hl _]; [by vm_compute|].
  destruct Hfirst as [Hv _]; [by rewrite Hl|].
  rewrite Hv, Hl. by vm_compute.
Defined.

(** ** The sample record *)

(** C6: the record
    [@article{k1, author = {Doe, Jane and Smith, John}, title = {T},
    year = {2020}, journal = {J}}] parses and normalizes to one entry, which
    is classified as "Publications" and grouped under the year "2020"; its
    author list renders as "Jane Doe, John Smith" (in both revisions of the
    formatter) and its venue as "J". *)
Theorem sample_record_rendering `{Host} :
  cleanEntries (parseBib Sample.record) = [Sample.cleaned]
  ∧ categoryOf Sample.cleaned = Cat (js "Publications")
  ∧ getYear Sample.cleaned = js "2020"
  ∧ renderedGroups [Sample.cleaned]
    = [(js "2020", [(js "Publications", [Sample.cleaned])])]
  ∧ normalizeAuthorList (field (fields Sample.cleaned) "author")
    = js "Jane Doe, John Smith"
  ∧ formatPerson (js "Doe, Jane") = js "Jane Doe"
  ∧ formatPerson (js "Smith, John") = js "John Smith"
  ∧ Legacy.normalizeAuthorList (field (fields Sample.cleaned) "author")
    = js "Jane Doe, John Smith"
  ∧ buildVenue Sample.cleaned = js "J".
Proof. repeat split; by vm_compute. Qed.

(** ** Grouping *)

(** C7 fails on the code for a record whose type names a property of
    [Object.prototype]: [TYPE_TO_CATEGORY["constructor"]] is the inherited
    function, not [undefined], so the entry is filed under a category that is
    no member of [CATEGORY_ORDER]; the rendering emits the year heading
    "2020" with nothing under it and the entry appears in no bucket. *)
Theorem inherited_type_is_dropped `{Host} :
  cleanEntries (parseBib Sample.constructorRecord) = [Sample.constructorEntry]
  ∧ categoryOf Sample.constructorEntry = CatInherited (js "constructor")
  ∧ groupEntries [Sample.constructorEntry]
    = [(js "2020", [(CatInherited (js "constructor"), [Sample.constructorEntry])])]
  ∧ renderedGroups [Sample.constructorEntry] = [(js "2020", [])]
  ∧ generatePublicationHtml [Sample.constructorEntry]
    = jsq "<h3 class='pub_year'>2020</h3>".
Proof. repeat split; by vm_compute. Qed.

(** ** The concrete host is a consistent one *)

Lemma strCompare_consistent : consistent strCompare.
Proof.
  assert (Hanti : ∀ a b, list_compare N.compare b a
                         = CompOpp (list_compare N.compare a b)).
  { intros a b. apply list_compare_antisym.
    - apply N.compare_eq_iff.
    - intros x y. apply N.compare_antisym. }
  split.
  - intros a b. unfold strCompare. rewrite (Hanti a b).
    by destruct (list_compare N.compare a b).
  - intros a b c. unfold strCompare.
    destruct (list_compare N.compare a b) eqn:Eab; [| |lia].
    + apply list_compare_refl in Eab as ->; [done|apply N.compare_eq_iff].
    + destruct (list_compare N.compare b c) eqn:Ebc; [| |lia].
      * apply list_compare_refl in Ebc as ->; [|apply N.compare_eq_iff].
        by rewrite Eab.
      * intros _ _.
        assert (list_compare N.compare a c = Lt) as ->; [|lia].
        eapply list_compare_trans;
          [apply N.compare_eq_iff| |apply N.compare_antisym
          |exact Eab|exact Ebc].
        intros x y z [] Hxy Hyz.
        -- apply N.compare_eq_iff in Hxy, Hyz. apply N.compare_eq_iff.
           congruence.
        -- rewrite N.compare_lt_iff in *. lia.
        -- rewrite N.compare_gt_iff in *. lia.
Qed.

Lemma cleanEntries_sorted_witness :
  consistent (@localeCompare plainHost)
  ∧ @Number plainHost (js "Unknown") = NaN
  ∧ @cleanEntries plainHost (parseBib Sample.bibliography) = Sample.ordered
  ∧ StronglySorted (@entryBefore plainHost) Sample.ordered.
Proof.
  assert (@cleanEntries plainHost (parseBib Sample.bibliography)
          = Sample.ordered) as Heq by by vm_compute.
  split; [apply strCompare_consistent|]. split; [by vm_compute|].
  split; [done|]. rewrite <- Heq.
  apply (@cleanEntries_sorted plainHost (parseBib Sample.bibliography)).
  - apply strCompare_consistent.
  - by vm_compute.
Defined.

(** The claim as written fails where a year is below zero: the entries
    without a year and with a year that is no number come before the entry
    of year -5, which is last. *)
Lemma unnumbered_year_not_last :
  consistent (@localeCompare signedHost)
  ∧ @Number signedHost (js "Unknown") = NaN
  ∧ @Number signedHost (js "abc") = NaN
  ∧ @Number signedHost (js "-5") = Fin (Q2Qc (inject_Z (-5)))
  ∧ @cleanEntries signedHost (parseBib YearSample.bibliography)
    = [YearSample.positive; YearSample.noYear; YearSample.notANumber;
       YearSample.belowZero]
  ∧ @yearNumber signedHost YearSample.noYear = Fin 0%Qc
  ∧ @yearNumber signedHost YearSample.notANumber = Fin 0%Qc
  ∧ last (@cleanEntries signedHost (parseBib YearSample.bibliography))
    = Some YearSample.belowZero.
Proof.
  assert (@cleanEntries signedHost (parseBib YearSample.bibliography)
          = [YearSample.positive; YearSample.noYear; YearSample.notANumber;
             YearSample.belowZero]) as Heq by by vm_compute.
  split; [apply strCompare_consistent|].
  repeat (split; [by vm_compute|]). by rewrite Heq.
Qed.

(** ** The normalizer on a normalized value *)

Lemma trim_fixed s :
  match s with c :: _ => isSpace c = false | [] => True end →
  match rev s with c :: _ => isSpace c = false | [] => True end →
  trim s = s.
Proof.
  intros Hhead Hlast. unfold trim, trimStart, trimEnd.
  rewrite (skipWhile_stop isSpace s Hhead).
  rewrite (skipWhile_stop isSpace (rev s) Hlast). apply rev_involutive.
Qed.

Lemma trimEnd_length s : (length (trimEnd s) ≤ length s)%nat.
Proof.
  unfold trimEnd. rewrite length_rev.
  etransitivity; [apply skipWhile_length|]. by rewrite length_rev.
Qed.

Lemma trim_head s :
  trim s = s → match s with c :: _ => isSpace c = false | [] => True end.
Proof.
  destruct s as [|c r]; [done|]. intros Ht.
  destruct (isSpace c) eqn:Hc; [|done]. exfalso.
  assert (length (trim (c :: r)) ≤ length r)%nat as Hlen.
  { unfold trim, trimStart. etransitivity; [apply trimEnd_length|].
    simpl. rewrite Hc. apply skipWhile_length. }
  rewrite Ht in Hlen. simpl in Hlen. lia.
Qed.

Lemma spacesCollapsed_relax prev v :
  spacesCollapsed prev v = true → v ≠ [] → spacesCollapsed false v = true.
Proof.
  destruct v as [|c r]; [done|]. simpl. intros Hs _.
  destruct (isSpace c); [|done]. destruct prev; [|done].
  by rewrite andb_false_r in Hs.
Qed.

Lemma spacesCollapsed_head v :
  spacesCollapsed true v = true →
  match v with c :: _ => isSpace c = false | [] => True end.
Proof.
  destruct v as [|c r]; [done|]. simpl.
  destruct (isSpace c); [|done]. by rewrite andb_false_r.
Qed.

Lemma spacesCollapsed_last prev v :
  spacesCollapsed prev v = true →
  match rev v with c :: _ => isSpace c = false | [] => True end.
Proof.
  revert prev. induction v as [|c r IH]; intros prev; [done|].
  simpl. intros Hs.
  assert (∃ prev', spacesCollapsed prev' r = true
                   ∧ (r = [] → isSpace c = false)) as (prev' & Hr & Hc).
  { destruct (isSpace c) eqn:Hc.
    - apply andb_prop in Hs as [_ Hr]. exists true. split; [done|].
      intros ->. done.
    - by exists false. }
  specialize (IH prev' Hr). destruct (rev r) as [|x l] eqn:Er; simpl.
  - apply Hc. destruct r; [done|]. simpl in Er.
    by destruct (rev r).
  - done.
Qed.

Lemma collapseRuns_fixed prev v :
  spacesCollapsed prev v = true → collapseRuns isSpace Ch.space prev v = v.
Proof.
  revert prev. induction v as [|c r IH]; intros prev; [done|]. simpl.
  destruct (isSpace c) eqn:Hc.
  - intros [[Hsp Hprev]%andb_prop Hr]%andb_prop.
    apply negb_true_iff in Hprev as ->. apply N.eqb_eq in Hsp as ->.
    by rewrite IH.
  - intros Hr. by rewrite IH.
Qed.

Lemma removeBraces_fixed v : braceFree v = true → removeBraces v = v.
Proof.
  unfold braceFree, removeBraces. induction v as [|c r IH]; simpl; [done|].
  intros [-> Hr]%andb_prop. by rewrite IH.
Qed.

Lemma unescape_fixed c v :
  c = Ch.amp ∨ c = Ch.comma ∨ c = Ch.percent →
  escapeFree v = true → unescape c v = v.
Proof.
  intros Hc. induction v as [|x t IH]; [done|]. simpl.
  destruct t as [|y r]; [done|].
  intros [Hxy Ht]%andb_prop. rewrite IH by done.
  destruct (N.eqb_spec x Ch.backslash) as [->|]; simpl; [|done].
  destruct (N.eqb_spec y c) as [->|]; [|done]. exfalso.
  simpl in Hxy. destruct Hc as [->|[->| ->]]; done.
Qed.

Lemma stripOuterBraces_braced v fuel :
  braceFree v = true → trim v = v →
  stripOuterBraces (S (S fuel)) (braced v) = v.
Proof.
  intros Hb Ht. unfold braced.
  change (stripOuterBraces (S (S fuel)) (Ch.lbrace :: v ++ [Ch.rbrace]))
    with (if startsWith [Ch.lbrace] (Ch.lbrace :: v ++ [Ch.rbrace])
             && endsWith [Ch.rbrace] (Ch.lbrace :: v ++ [Ch.rbrace])
          then stripOuterBraces (S fuel)
                 (trim (sliceInner (Ch.lbrace :: v ++ [Ch.rbrace])))
          else Ch.lbrace :: v ++ [Ch.rbrace]).
  assert (endsWith [Ch.rbrace] (Ch.lbrace :: v ++ [Ch.rbrace]) = true) as ->.
  { unfold endsWith. simpl. by rewrite rev_app_distr. }
  assert (sliceInner (Ch.lbrace :: v ++ [Ch.rbrace]) = v) as ->.
  { unfold sliceInner. simpl. apply removelast_last. }
  rewrite Ht. simpl.
  destruct v as [|c r]; [done|]. simpl in *.
  apply andb_prop in Hb as [Hc _]. unfold isBrace in Hc.
  destruct (c =? Ch.lbrace); [done|]. done.
Qed.

Lemma bibToText_braced v :
  normalizedValue v = true → escapeFree v = true → bibToText (braced v) = v.
Proof.
  unfold normalizedValue. intros [[Hne Hb]%andb_prop Hs]%andb_prop He.
  assert (trim v = v) as Ht.
  { apply trim_fixed;
      [by apply spacesCollapsed_head|by eapply spacesCollapsed_last]. }
  unfold bibToText.
  change (negb (truthy (braced v))) with false. cbv iota.
  assert (trim (braced v) = braced v) as ->.
  { apply trim_fixed; [done|]. unfold braced. simpl.
    by rewrite rev_app_distr. }
  assert (length (braced v) = S (S (length v))) as ->.
  { unfold braced. simpl. rewrite length_app. simpl. lia. }
  rewrite stripOuterBraces_braced by done.
  rewrite removeBraces_fixed by done.
  rewrite (unescape_fixed Ch.amp) by (by try left).
  rewrite (unescape_fixed Ch.comma) by (by try (right; left)).
  rewrite (unescape_fixed Ch.percent) by (by try (right; right)).
  unfold collapseSpaces. rewrite collapseRuns_fixed; [done|].
  eapply spacesCollapsed_relax; [done|]. by destruct v.
Qed.

(** ** Character classes *)

Ltac char_facts :=
  unfold isSpaceOrComma, isNameChar, isAlpha, isUpper, isLower, isDigit,
    isSpace, isBrace, isBareChar, lowerChar,
    Ch.comma, Ch.rbrace, Ch.lbrace, Ch.equals, Ch.underscore, Ch.minus,
    Ch.space, Ch.at_sign in *;
  repeat match goal with
         | H : _ = false |- _ => apply not_true_iff_false in H
         | |- _ = false => apply not_true_iff_false; intro
         end;
  repeat (progress
            rewrite ?andb_true_iff, ?orb_true_iff, ?N.leb_le, ?N.eqb_eq in *);
  try lia.

Lemma nameChar_not_space c : isNameChar c = true → isSpaceOrComma c = false.
Proof. intros Hc. char_facts. Qed.

Lemma nameChar_not_rbrace c : isNameChar c = true → (c =? Ch.rbrace) = false.
Proof. intros Hc. char_facts. Qed.

Lemma lower_is_alpha c : isLower c = true → isAlpha c = true.
Proof. intros Hc. unfold isAlpha. rewrite Hc. apply orb_true_r. Qed.

Lemma lower_not_space c : isLower c = true → isSpace c = false.
Proof. intros Hc. char_facts. Qed.

Lemma lower_not_upper c : isLower c = true → isUpper c = false.
Proof. intros Hc. char_facts. Qed.

Lemma toLowerAscii_fixed s :
  Forall (λ c, isUpper c = false) s → toLowerAscii s = s.
Proof.
  unfold toLowerAscii, lowerChar.
  induction 1 as [|c r Hc _ IH]; simpl; [done|]. by rewrite Hc, IH.
Qed.

Lemma forallb_Forall (p : char → bool) s :
  forallb p s = true → Forall (λ c, p c = true) s.
Proof.
  induction s as [|c r IH]; simpl; [constructor|].
  intros [Hc Hr]%andb_prop. constructor; auto.
Qed.

(** ** Reading back what writeCleanBib printed *)

Lemma join_cons sep x l :
  join sep (x :: l) = x ++ concat (map (λ y, sep ++ y) l).
Proof.
  revert x. induction l as [|y l IH]; intros x.
  - simpl. by rewrite app_nil_r.
  - change (join sep (x :: y :: l)) with (x ++ sep ++ join sep (y :: l)).
    rewrite IH. simpl. by rewrite <- app_assoc.
Qed.

Lemma entryChunk_text e : entryChunk e = Ch.at_sign :: recordText e.
Proof.
  unfold entryChunk, recordText, fieldLines.
  change ([?h] ++ ?l) with (h :: l).
  rewrite join_cons, map_app, concat_app, map_map. simpl.
  rewrite <- !app_assoc. simpl. rewrite <- !app_assoc. done.
Qed.

Lemma fieldLine_text o name :
  fieldLine o name
  = Ch.space :: Ch.space :: name
    ++ Ch.space :: Ch.equals :: Ch.space :: braced (default [] (o !! name))
    ++ [Ch.comma].
Proof.
  unfold fieldLine, braced. simpl. do 2 f_equal. f_equal. simpl.
  do 4 f_equal. by rewrite <- app_assoc.
Qed.

Lemma readBraced_closes v rest :
  braceFree v = true →
  readBraced 1 (v ++ Ch.rbrace :: rest) = (v ++ [Ch.rbrace], rest).
Proof.
  unfold braceFree. induction v as [|c r IH]; simpl; [done|].
  intros [Hc Hr]%andb_prop. unfold isBrace in Hc.
  apply negb_true_iff, orb_false_elim in Hc as [-> ->].
  by rewrite IH.
Qed.

Lemma readBibValueAt_braced v rest :
  braceFree v = true → readBibValueAt (braced v ++ rest) = (braced v, rest).
Proof.
  intros Hv. unfold braced. simpl. rewrite <- app_assoc. simpl.
  by rewrite readBraced_closes.
Qed.

Lemma parseFields_unfold fuel rest acc :
  rest ≠ [] →
  parseFields (S fuel) rest acc
  = match skipWhile isSpaceOrComma rest with
    | c :: r2 =>
        if c =? Ch.rbrace then Some (acc, r2)
        else
          match skipWhile isSpace
                  (skipWhile isNameChar (skipWhile isSpaceOrComma rest)) with
          | e :: r4 =>
              if e =? Ch.equals then
                let '(value, r6) := readBibValueAt (skipWhile isSpace r4) in
                parseFields fuel r6
                  (objSet (toLowerAscii
                             (takeWhile isNameChar
                                (skipWhile isSpaceOrComma rest)))
                     (trim value) acc)
              else
                Some (acc,
                      skipWhile isSpace
                        (skipWhile isNameChar (skipWhile isSpaceOrComma rest)))
          | [] =>
              Some (acc,
                    skipWhile isSpace
                      (skipWhile isNameChar (skipWhile isSpaceOrComma rest)))
          end
    | [] => Some (acc, [])
    end.
Proof. destruct rest; [done|]. intros _. reflexivity. Qed.

(** Scanning the name of a printed field line. *)
Lemma scan_field_name name rest :
  Forall (λ c, isNameChar c = true) name →
  ∃ c r2,
    skipWhile isSpaceOrComma (name ++ Ch.space :: Ch.equals :: rest) = c :: r2
    ∧ (c =? Ch.rbrace) = false
    ∧ takeWhile isNameChar (c :: r2) = name
    ∧ skipWhile isSpace (skipWhile isNameChar (c :: r2)) = Ch.equals :: rest.
Proof.
  intros Hname. destruct Hname as [|n name' Hn Hname'].
  - exists Ch.equals, rest. done.
  - exists n, (name' ++ Ch.space :: Ch.equals :: rest).
    split; [|split; [|split]].
    + simpl. by rewrite (nameChar_not_space n Hn).
    + by apply nameChar_not_rbrace.
    + change (n :: name' ++ ?r) with ((n :: name') ++ r).
      rewrite takeWhile_app by (by constructor).
      change (takeWhile isNameChar (Ch.space :: ?r)) with (@nil N).
      apply app_nil_r.
    + change (n :: name' ++ ?r) with ((n :: name') ++ r).
      rewrite skipWhile_app by (by constructor). done.
Qed.

Lemma parseFields_line fuel pre o name rest acc :
  Forall (λ c, isSpaceOrComma c = true) pre →
  Forall (λ c, isNameChar c = true) name →
  Forall (λ c, isUpper c = false) name →
  name ≠ protoName →
  braceFree (default [] (o !! name)) = true →
  parseFields (S fuel) (pre ++ Ch.nl :: fieldLine o name ++ rest) acc
  = parseFields fuel (Ch.comma :: rest)
      (<[name := braced (default [] (o !! name))]> acc).
Proof.
  intros Hpre Hname Hlow Hproto Hv.
  rewrite parseFields_unfold by (by destruct pre).
  rewrite fieldLine_text. set (v := default [] (o !! name)) in *.
  assert (skipWhile isSpaceOrComma
            (pre ++ Ch.nl :: (Ch.space :: Ch.space :: name
               ++ Ch.space :: Ch.equals :: Ch.space :: braced v ++ [Ch.comma])
               ++ rest)
          = skipWhile isSpaceOrComma
              (name ++ Ch.space :: Ch.equals
                 :: Ch.space :: braced v ++ Ch.comma :: rest)) as ->.
  { rewrite skipWhile_app by done. simpl. rewrite <- !app_assoc. simpl.
    by rewrite <- !app_assoc. }
  destruct (scan_field_name name (Ch.space :: braced v ++ Ch.comma :: rest)
              Hname) as (c & r2 & -> & -> & -> & ->).
  change (Ch.equals =? Ch.equals) with true. cbv iota.
  change (skipWhile isSpace (Ch.space :: ?r)) with (skipWhile isSpace r).
  assert (skipWhile isSpace (braced v ++ Ch.comma :: rest)
          = braced v ++ Ch.comma :: rest) as -> by done.
  rewrite readBibValueAt_braced by done.
  rewrite toLowerAscii_fixed by done.
  assert (trim (braced v) = braced v) as ->.
  { apply trim_fixed; [done|]. unfold braced. simpl.
    by rewrite rev_app_distr. }
  unfold objSet. by destruct (decide (name = protoName)).
Qed.

Lemma parseFields_lines o names :
  ∀ fuel pre rest acc,
    (length names < fuel)%nat →
    Forall (λ c, isSpaceOrComma c = true) pre →
    Forall (λ name, Forall (λ c, isNameChar c = true) name
                    ∧ Forall (λ c, isUpper c = false) name
                    ∧ name ≠ protoName
                    ∧ braceFree (default [] (o !! name)) = true) names →
    parseFields fuel (pre ++ fieldLines o names ++ Ch.nl :: Ch.rbrace :: rest)
      acc
    = Some (foldl (λ m name, <[name := braced (default [] (o !! name))]> m)
              acc names, rest).
Proof.
  induction names as [|name names IH]; intros fuel pre rest acc Hfuel Hpre Hok;
    (destruct fuel as [|fuel]; [simpl in Hfuel; lia|]).
  - unfold fieldLines. simpl concat. rewrite app_nil_l.
    rewrite parseFields_unfold by (by destruct pre).
    rewrite skipWhile_app by done.
    change (skipWhile isSpaceOrComma (Ch.nl :: Ch.rbrace :: rest))
      with (Ch.rbrace :: rest).
    done.
  - apply Forall_cons_1 in Hok as [(Hn & Hl & Hp & Hv) Hok].
    assert (pre ++ fieldLines o (name :: names) ++ Ch.nl :: Ch.rbrace :: rest
            = pre ++ Ch.nl :: fieldLine o name
              ++ (fieldLines o names ++ Ch.nl :: Ch.rbrace :: rest)) as ->.
    { unfold fieldLines. simpl. by rewrite <- !app_assoc. }
    rewrite parseFields_line by done.
    apply (IH fuel [Ch.comma]); [simpl in Hfuel; lia|by repeat constructor|done].
Qed.

Lemma foldl_insert_lookup (f : jsstring → jsstring) names :
  ∀ (acc : gmap jsstring jsstring) k,
    foldl (λ m name, <[name := f name]> m) acc names !! k
    = if decide (k ∈ names) then Some (f k) else acc !! k.
Proof.
  induction names as [|n names IH]; intros acc k; simpl.
  - destruct (decide (k ∈ [])) as [Hin|_]; [|done].
    by apply elem_of_nil in Hin.
  - rewrite IH.
    destruct (decide (k ∈ names)) as [Hin|Hnot].
    + rewrite decide_True; [done|]. by apply list_elem_of_further.
    + destruct (decide (k = n)) as [->|Hne].
      * rewrite decide_True by apply list_elem_of_here.
        by rewrite lookup_insert_eq.
      * rewrite lookup_insert_ne by done.
        rewrite decide_False; [done|].
        intros [?|?]%elem_of_cons; done.
Qed.

Lemma sortedKeys_elem o k : k ∈ sortedKeys o ↔ is_Some (o !! k).
Proof.
  unfold sortedKeys. rewrite jsSort_perm.
  change (map fst (map_to_list o)) with (fst <$> map_to_list o).
  rewrite list_elem_of_fmap. split.
  - intros ([k' v] & -> & Hin). apply elem_of_map_to_list in Hin. by exists v.
  - intros [v Hv]. exists (k, v). split; [done|].
    by apply elem_of_map_to_list.
Qed.

Lemma sortedKeys_length o : length (sortedKeys o) = size o.
Proof.
  unfold sortedKeys. rewrite jsSort_length, length_map.
  apply length_map_to_list.
Qed.

Lemma reparsed_fields o :
  foldl (λ m name, <[name := braced (default [] (o !! name))]> m) ∅
    (sortedKeys o)
  = braced <$> o.
Proof.
  apply map_eq. intros k.
  rewrite (foldl_insert_lookup (λ name, braced (default [] (o !! name)))).
  rewrite lookup_fmap, lookup_empty.
  destruct (decide (k ∈ sortedKeys o)) as [Hin|Hnot].
  - apply sortedKeys_elem in Hin as [v ->]. done.
  - destruct (o !! k) as [v|] eqn:E; [|done].
    destruct Hnot. apply sortedKeys_elem. by exists v.
Qed.

Lemma normalizedEntry_field e name v :
  normalizedEntry e = true → fields e !! name = Some v →
  keptName name = true ∧ normalizedValue v = true.
Proof.
  unfold normalizedEntry. intros [_ Hf]%andb_prop Hv.
  rewrite forallb_forall in Hf.
  apply (elem_of_map_to_list (fields e)) in Hv.
  apply list_elem_of_In in Hv. apply Hf in Hv.
  by apply andb_prop in Hv.
Qed.

Lemma keptName_facts name :
  keptName name = true →
  Forall (λ c, isNameChar c = true) name
  ∧ Forall (λ c, isUpper c = false) name
  ∧ name ≠ protoName
  ∧ name ∉ DROP_FIELDS.
Proof.
  unfold keptName. intros [[Hc Hd]%andb_prop Hp]%andb_prop.
  apply forallb_Forall in Hc.
  split; [|split; [|split]].
  - eapply Forall_impl; [exact Hc|]. simpl. by intros c [? _]%andb_prop.
  - eapply Forall_impl; [exact Hc|]. simpl.
    by intros c [_ ?%negb_true_iff]%andb_prop.
  - by apply negb_true_iff, bool_decide_eq_false in Hp.
  - by apply negb_true_iff, bool_decide_eq_false in Hd.
Qed.

Lemma afterFirst_app c sep r :
  Forall (λ x, x ≠ c) sep → afterFirst c (sep ++ c :: r) = Some r.
Proof.
  induction 1 as [|x sep Hx _ IH]; simpl.
  - by rewrite N.eqb_refl.
  - apply N.eqb_neq in Hx. by rewrite Hx.
Qed.

Lemma parseRecord_text fuel e tail :
  normalizedEntry e = true → (size (fields e) < fuel)%nat →
  parseRecord fuel (recordText e ++ tail) = Some (Some (reparsed e), tail).
Proof.
  intros He Hfuel.
  pose proof He as [[Hty Hkey]%andb_prop _]%andb_prop.
  apply forallb_Forall in Hty.
  apply andb_prop in Hkey as [Htrim%bool_decide_eq_true Hcomma].
  apply forallb_Forall in Hcomma.
  assert (recordText e ++ tail
          = type e ++ Ch.lbrace :: key e ++ Ch.comma
            :: fieldLines (fields e) (sortedKeys (fields e))
            ++ Ch.nl :: Ch.rbrace :: tail) as ->.
  { unfold recordText. rewrite <- !app_assoc. simpl. f_equal. f_equal.
    rewrite <- !app_assoc. simpl. by rewrite <- !app_assoc. }
  set (F := fieldLines (fields e) (sortedKeys (fields e))
            ++ Ch.nl :: Ch.rbrace :: tail).
  unfold parseRecord. cbv zeta.
  assert (skipWhile isSpace (type e ++ Ch.lbrace :: key e ++ Ch.comma :: F)
          = type e ++ Ch.lbrace :: key e ++ Ch.comma :: F) as ->.
  { apply skipWhile_stop. destruct Hty as [|c t Hc _]; [done|].
    by apply lower_not_space. }
  rewrite takeWhile_app, skipWhile_app
    by (eapply Forall_impl; [exact Hty|]; apply lower_is_alpha).
  change (takeWhile isAlpha (Ch.lbrace :: ?r)) with (@nil N).
  change (skipWhile isAlpha (Ch.lbrace :: ?r)) with (Ch.lbrace :: r).
  change (skipWhile isSpace (Ch.lbrace :: ?r)) with (Ch.lbrace :: r).
  change (Ch.lbrace =? Ch.lbrace) with true. cbv iota.
  rewrite app_nil_r.
  rewrite toLowerAscii_fixed
    by (eapply Forall_impl; [exact Hty|]; apply lower_not_upper).
  assert (skipWhile isSpace (key e ++ Ch.comma :: F) = key e ++ Ch.comma :: F)
    as ->.
  { apply skipWhile_stop. pose proof (trim_head _ Htrim) as Hh.
    by destruct (key e). }
  rewrite takeWhile_app, skipWhile_app by done.
  change (takeWhile (λ c, negb (c =? Ch.comma)) (Ch.comma :: ?r))
    with (@nil N).
  change (skipWhile (λ c, negb (c =? Ch.comma)) (Ch.comma :: ?r))
    with (Ch.comma :: r).
  rewrite app_nil_r, Htrim.
  unfold F.
  rewrite (parseFields_lines (fields e) (sortedKeys (fields e)) fuel [] tail ∅).
  - by rewrite reparsed_fields.
  - by rewrite sortedKeys_length.
  - constructor.
  - apply Forall_forall. intros name Hin.
    apply sortedKeys_elem in Hin as [v Hv].
    destruct (normalizedEntry_field e name v He Hv) as [Hn Hval].
    destruct (keptName_facts name Hn) as (H1 & H2 & H3 & _).
    rewrite Hv. simpl.
    unfold normalizedValue in Hval.
    by apply andb_prop in Hval as [[_ ?]%andb_prop _].
Qed.

Lemma parseLoop_unfold fuel rest entries :
  rest ≠ [] →
  parseLoop (S fuel) rest entries
  = match afterFirst Ch.at_sign rest with
    | None => Some entries
    | Some r0 =>
        match parseRecord fuel r0 with
        | Some (oe, r) =>
            parseLoop fuel r
              (match oe with Some e => entries ++ [e] | None => entries end)
        | None => None
        end
    end.
Proof. destruct rest; [done|]. intros _. reflexivity. Qed.

Lemma parseLoop_chunk fuel sep e tail acc :
  Forall (λ c, c ≠ Ch.at_sign) sep →
  normalizedEntry e = true → (size (fields e) < fuel)%nat →
  parseLoop (S fuel) (sep ++ entryChunk e ++ tail) acc
  = parseLoop fuel tail (acc ++ [reparsed e]).
Proof.
  intros Hsep He Hfuel. rewrite entryChunk_text.
  rewrite parseLoop_unfold by (by destruct sep).
  change ((Ch.at_sign :: recordText e) ++ tail)
    with (Ch.at_sign :: recordText e ++ tail).
  rewrite afterFirst_app by done.
  by rewrite parseRecord_text.
Qed.

Lemma parseLoop_entries entries :
  ∀ fuel acc,
    (reparseFuel entries ≤ fuel)%nat →
    Forall (λ e, normalizedEntry e = true) entries →
    parseLoop fuel
      (concat (map (λ e, Ch.nl :: Ch.nl :: entryChunk e) entries) ++ [Ch.nl])
      acc
    = Some (acc ++ map reparsed entries).
Proof.
  induction entries as [|e es IH]; intros fuel acc Hfuel Hok; simpl in Hfuel;
    (destruct fuel as [|fuel]; [lia|]).
  - simpl. by rewrite app_nil_r.
  - apply Forall_cons_1 in Hok as [He Hes].
    assert (concat (map (λ e, Ch.nl :: Ch.nl :: entryChunk e) (e :: es))
              ++ [Ch.nl]
            = [Ch.nl; Ch.nl] ++ entryChunk e
              ++ (concat (map (λ e, Ch.nl :: Ch.nl :: entryChunk e) es)
                  ++ [Ch.nl])) as ->.
    { simpl. by rewrite <- !app_assoc. }
    rewrite parseLoop_chunk; [|by repeat constructor|done|lia].
    rewrite IH; [|lia|done]. by rewrite <- app_assoc.
Qed.

Lemma parseBib_from_fuel tex fuel entries :
  parseLoop fuel tex [] = Some entries → parseBib tex = entries.
Proof.
  intros Hp. unfold parseBib.
  destruct (parseLoop_enough (parseBibFuel tex) tex []) as [es Hes].
  { unfold parseBibFuel. lia. }
  rewrite Hes. simpl.
  destruct (Nat.le_gt_cases fuel (parseBibFuel tex)) as [Hle|Hgt].
  - rewrite (parseLoop_more_fuel _ _ _ _ _ Hp Hle) in Hes. by injection Hes.
  - rewrite (parseLoop_more_fuel _ fuel _ _ _ Hes) in Hp by lia.
    by injection Hp.
Qed.

Lemma parseBib_writeCleanBib entries :
  Forall (λ e, normalizedEntry e = true) entries →
  parseBib (writeCleanBib entries) = map reparsed entries.
Proof.
  intros Hok. apply (parseBib_from_fuel _ (S (reparseFuel entries))).
  unfold writeCleanBib. destruct entries as [|e es].
  - done.
  - apply Forall_cons_1 in Hok as [He Hes].
    change (map entryChunk (e :: es)) with (entryChunk e :: map entryChunk es).
    rewrite join_cons, map_map, <- app_assoc.
    rewrite (parseLoop_chunk _ [] e
               (concat (map (λ x, [Ch.nl; Ch.nl] ++ entryChunk x) es)
                ++ [Ch.nl]) []);
      [|constructor|done|simpl; lia].
    apply (parseLoop_entries es); [simpl; lia|done].
Qed.

Lemma cleanEntry_reparsed e :
  normalizedEntry e = true → escapeFreeEntry e = true →
  cleanEntry (reparsed e) = e.
Proof.
  intros He Hesc. destruct e as [ty k o]. unfold cleanEntry, reparsed. simpl.
  f_equal. apply map_eq. intros name.
  rewrite cleanFields_lookup, lookup_fmap.
  destruct (o !! name) as [v|] eqn:Hv; [|done]. simpl.
  destruct (normalizedEntry_field _ name v He Hv) as [Hn Hval].
  destruct (keptName_facts name Hn) as (_ & _ & Hproto & Hdrop).
  assert (escapeFree v = true) as Hev.
  { unfold escapeFreeEntry in Hesc. rewrite forallb_forall in Hesc.
    apply (Hesc (name, v)). apply list_elem_of_In.
    by apply elem_of_map_to_list. }
  unfold cleanField. rewrite bool_decide_eq_false_2 by done.
  rewrite bibToText_braced by done.
  unfold normalizedValue in Hval.
  apply andb_prop in Hval as [[-> _]%andb_prop _]. simpl.
  by destruct (decide (name = protoName)).
Qed.

(** Entry by entry, cleaning what is read back restores the list. *)
Lemma reparse_normalized (entries : list Entry) :
  forallb normalizedEntry entries = true →
  forallb escapeFreeEntry entries = true →
  map cleanEntry (parseBib (writeCleanBib entries)) = entries.
Proof.
  intros Hn He. rewrite parseBib_writeCleanBib.
  - rewrite map_map. rewrite forallb_forall in Hn, He.
    rewrite <- (map_id entries) at 2. apply map_ext_in.
    intros e Hin. apply cleanEntry_reparsed; auto.
  - apply Forall_forall. intros e Hin. rewrite forallb_forall in Hn.
    apply Hn. by apply list_elem_of_In.
Qed.

(** C1, as the code has it: a list of normalized entries - as the parser and
    the normalizer produce them: lowercase type, trimmed comma-free key,
    field names over [[a-z0-9_-]] that are neither denylisted nor
    [__proto__], values non-empty, brace-free, single-line with collapsed
    white space - whose values moreover hold no escape sequence [\&], [\,]
    or [\%], is reproduced by re-parsing and re-normalizing the text that
    [writeCleanBib] prints for it: entry by entry, hence up to the order of
    the Entry Orderer, and exactly when the list is in that order. *)
Theorem roundtrip `{Host} (entries : list Entry) :
  forallb normalizedEntry entries = true →
  forallb escapeFreeEntry entries = true →
  map cleanEntry (parseBib (writeCleanBib entries)) = entries
  ∧ cleanEntries (parseBib (writeCleanBib entries)) ≡ₚ entries
  ∧ (jsSort compareEntries entries = entries →
     cleanEntries (parseBib (writeCleanBib entries)) = entries).
Proof.
  intros Hn He.
  pose proof (reparse_normalized entries Hn He) as Hmap.
  split; [done|]. unfold cleanEntries. rewrite Hmap.
  split; [apply jsSort_perm|done].
Qed.

(** The claim of C1 fails as stated: the entry [Sample.escapedTitle] is
    normalized (its title [\&] is a single-line, brace-free, non-empty value
    with collapsed white space and no denylisted name; it is what the
    pipeline makes of [Sample.escapedRecord]), yet reading back its printed
    form yields the title [&]. *)
Lemma escaped_value_not_restored :
  normalizedEntry Sample.escapedTitle = true
  ∧ @cleanEntries plainHost (parseBib Sample.escapedRecord)
    = [Sample.escapedTitle]
  ∧ @cleanEntries plainHost (parseBib (writeCleanBib [Sample.escapedTitle]))
    = [Sample.unescapedTitle]
  ∧ @cleanEntries plainHost (parseBib (writeCleanBib [Sample.escapedTitle]))
    ≠ [Sample.escapedTitle].
Proof.
  assert (@cleanEntries plainHost
            (parseBib (writeCleanBib [Sample.escapedTitle]))
          = [Sample.unescapedTitle]) as Hrt by by vm_compute.
  split; [by vm_compute|]. split; [by vm_compute|]. split; [done|].
  rewrite Hrt. intros Heq.
  assert (fields Sample.unescapedTitle !! js "title"
          = fields Sample.escapedTitle !! js "title") as Hf by congruence.
  by vm_compute in Hf.
Qed.

Lemma roundtrip_witness :
  forallb normalizedEntry Sample.ordered = true
  ∧ forallb escapeFreeEntry Sample.ordered = true
  ∧ @cleanEntries plainHost (parseBib (writeCleanBib Sample.ordered))
    = Sample.ordered.
Proof.
  split; [by vm_compute|]. split; [by vm_compute|].
  apply (@roundtrip plainHost Sample.ordered); by vm_compute.
Defined.

(** ** The fuel of the inner loops suffices *)

Lemma trim_length s : (length (trim s) ≤ length s)%nat.
Proof.
  unfold trim, trimStart. etransitivity; [apply trimEnd_length|].
  apply skipWhile_length.
Qed.

Lemma sliceInner_length c s :
  (length (sliceInner (c :: s)) ≤ length s)%nat.
Proof.
  unfold sliceInner. simpl.
  destruct s as [|x r] using rev_ind; [done|].
  rewrite removelast_last, length_app. simpl. lia.
Qed.

(** With fuel [length out] the loop of [bibToText] runs until its condition
    fails: the result is no longer wrapped in braces. *)
Lemma stripOuterBraces_done fuel out :
  (length out ≤ fuel)%nat →
  startsWith [Ch.lbrace] (stripOuterBraces fuel out)
  && endsWith [Ch.rbrace] (stripOuterBraces fuel out) = false.
Proof.
  revert out. induction fuel as [|fuel IH]; intros out Hlen.
  - destruct out; [done|simpl in Hlen; lia].
  - change (stripOuterBraces (S fuel) out)
      with (if startsWith [Ch.lbrace] out && endsWith [Ch.rbrace] out
            then stripOuterBraces fuel (trim (sliceInner out))
            else out).
    destruct (startsWith [Ch.lbrace] out && endsWith [Ch.rbrace] out) eqn:E;
      [|exact E].
    apply IH. destruct out as [|c r]; [done|].
    etransitivity; [apply trim_length|].
    etransitivity; [apply sliceInner_length|]. simpl in Hlen. lia.
Qed.

Lemma matchAndSeparator_shorter s rest :
  matchAndSeparator s = Some rest → (length rest < length s)%nat.
Proof.
  unfold matchAndSeparator. destruct s as [|c r]; [done|].
  destruct (isSpace c); [|done].
  pose proof (skipWhile_length isSpace (c :: r)) as H1.
  destruct (skipWhile isSpace (c :: r)) as [|a [|n [|d [|w t]]]]; try done.
  destruct (_ && _); [|done]. intros [= <-].
  pose proof (skipWhile_length isSpace (w :: t)) as H2.
  simpl in *. lia.
Qed.

Lemma splitAnd_cons fuel piece c r :
  splitAnd (S fuel) piece (c :: r)
  = match matchAndSeparator (c :: r) with
    | Some rest => piece :: splitAnd fuel [] rest
    | None => splitAnd fuel (piece ++ [c]) r
    end.
Proof. reflexivity. Qed.

(** More fuel than [length s] does not change the pieces. *)
Lemma splitAnd_fuel fuel fuel' piece s :
  (length s ≤ fuel)%nat → (length s ≤ fuel')%nat →
  splitAnd fuel piece s = splitAnd fuel' piece s.
Proof.
  revert fuel' piece s. induction fuel as [|fuel IH];
    intros fuel' piece s Hlen Hlen'.
  - destruct s; [by destruct fuel'|simpl in Hlen; lia].
  - destruct s as [|c r]; [by destruct fuel'|].
    destruct fuel' as [|fuel']; [simpl in Hlen'; lia|].
    simpl in Hlen, Hlen'. rewrite !splitAnd_cons.
    destruct (matchAndSeparator (c :: r)) as [rest|] eqn:E.
    + apply matchAndSeparator_shorter in E. simpl in E.
      f_equal. apply IH; lia.
    + apply IH; lia.
Qed.

(** ** Insertion-ordered maps *)

Section JsMapFacts.
Context {K V : Type} `{EqDecision K}.
Implicit Types (m : list (K * V)) (k : K) (v : V).

Lemma mapGet_cons k' v' m k :
  mapGet ((k', v') :: m) k = if decide (k' = k) then Some v' else mapGet m k.
Proof.
  unfold mapGet. simpl. destruct (decide (k' = k)); [done|].
  by destruct (list_find _ m) as [[i [k0 v0]]|].
Qed.

Lemma mapGet_mapSet m k v k' :
  mapGet (mapSet m k v) k' = if decide (k = k') then Some v else mapGet m k'.
Proof.
  induction m as [|[k0 v0] m IH]; simpl.
  - rewrite mapGet_cons. by destruct (decide (k = k')).
  - destruct (decide (k0 = k)) as [->|Hne].
    + rewrite !mapGet_cons. by destruct (decide (k = k')).
    + rewrite !mapGet_cons, IH.
      destruct (decide (k0 = k')) as [->|]; [|done].
      by rewrite decide_False by done.
Qed.

Lemma mapGet_None m k : mapGet m k = None ↔ k ∉ map fst m.
Proof.
  induction m as [|[k0 v0] m IH]; simpl.
  - split; [intros _; apply not_elem_of_nil|done].
  - rewrite mapGet_cons, not_elem_of_cons.
    destruct (decide (k0 = k)) as [->|Hne]; [by split; [|intros []]|].
    rewrite IH. split; [by intros ?; split|by intros []].
Qed.

Lemma mapHas_true m k : mapHas m k = true ↔ k ∈ map fst m.
Proof.
  unfold mapHas. rewrite bool_decide_eq_true.
  destruct (mapGet m k) as [v|] eqn:E.
  - split; [|by eexists]. intros _.
    destruct (decide (k ∈ map fst m)) as [|Hn]; [done|].
    apply mapGet_None in Hn. congruence.
  - apply mapGet_None in E. split; [by intros [? [=]]|done].
Qed.

Lemma mapSet_keys m k v :
  map fst (mapSet m k v)
  = if decide (k ∈ map fst m) then map fst m else map fst m ++ [k].
Proof.
  induction m as [|[k0 v0] m IH]; simpl.
  - done.
  - destruct (decide (k0 = k)) as [->|Hne]; simpl.
    + rewrite decide_True; [done|apply list_elem_of_here].
    + rewrite IH. destruct (decide (k ∈ map fst m)) as [Hin|Hnot].
      * rewrite decide_True; [done|by apply list_elem_of_further].
      * rewrite decide_False; [done|]. rewrite not_elem_of_cons. by split.
Qed.
End JsMapFacts.

(** ** Partitioning a list by a key *)

Lemma flat_map_perm {A B} (f : A → list B) l l' :
  l ≡ₚ l' → flat_map f l ≡ₚ flat_map f l'.
Proof.
  induction 1 as [|x l l' _ IH|x y l|l1 l2 l3 _ IH1 _ IH2]; simpl.
  - done.
  - by rewrite IH.
  - rewrite !app_assoc. f_equiv. apply Permutation_app_comm.
  - by etransitivity.
Qed.

Lemma flat_map_perm_ext {A B} (f g : A → list B) l :
  (∀ x, x ∈ l → f x ≡ₚ g x) → flat_map f l ≡ₚ flat_map g l.
Proof.
  induction l as [|x l IH]; intros Hfg; simpl; [done|].
  rewrite (Hfg x) by apply list_elem_of_here.
  rewrite IH; [done|]. intros y Hy. apply Hfg. by apply list_elem_of_further.
Qed.

Section Partition.
Context {A K : Type} `{EqDecision K} (key : A → K).

Lemma partition_insert x l ks :
  NoDup ks →
  flat_map (λ k, filter (λ y, key y = k) (x :: l)) ks
  ≡ₚ (if decide (key x ∈ ks) then [x] else [])
     ++ flat_map (λ k, filter (λ y, key y = k) l) ks.
Proof.
  induction 1 as [|k ks Hk Hks IH]; simpl.
  - done.
  - rewrite IH, filter_cons.
    destruct (decide (key x = k)) as [<-|Hne].
    + rewrite (decide_False (P := key x ∈ ks)) by done.
      rewrite (decide_True (P := key x ∈ key x :: ks))
        by apply list_elem_of_here.
      done.
    + destruct (decide (key x ∈ ks)) as [Hin|Hnot].
      * rewrite (decide_True (P := key x ∈ k :: ks))
          by (by apply list_elem_of_further).
        simpl. by rewrite Permutation_middle.
      * rewrite (decide_False (P := key x ∈ k :: ks)); [done|].
        rewrite not_elem_of_cons. by split.
Qed.

Lemma partition_perm l ks :
  NoDup ks → (∀ x, x ∈ l → key x ∈ ks) →
  flat_map (λ k, filter (λ y, key y = k) l) ks ≡ₚ l.
Proof.
  intros Hks. induction l as [|x l IH]; intros Hcover.
  - clear. induction ks as [|k ks IHk]; simpl; done.
  - rewrite partition_insert by done.
    rewrite decide_True by apply Hcover, list_elem_of_here.
    simpl. f_equiv. apply IH. intros y Hy. apply Hcover.
    by apply list_elem_of_further.
Qed.
End Partition.

Lemma mapGet_ensure {K V} `{EqDecision K} (d : V) (m : list (K * V)) k k' :
  default d (mapGet (if mapHas m k then m else mapSet m k d) k')
  = default d (mapGet m k').
Proof.
  destruct (mapHas m k) eqn:E; [done|].
  rewrite mapGet_mapSet. destruct (decide (k = k')) as [<-|]; [|done].
  assert (mapGet m k = None) as ->; [|done].
  apply mapGet_None. intros Hin%mapHas_true. congruence.
Qed.

Lemma mapHas_ensure {K V} `{EqDecision K} (d : V) (m : list (K * V)) k :
  k ∈ map fst (if mapHas m k then m else mapSet m k d).
Proof.
  destruct (mapHas m k) eqn:E; [by apply mapHas_true|].
  rewrite mapSet_keys. destruct (decide (k ∈ map fst m)); [done|].
  apply elem_of_app. right. apply list_elem_of_here.
Qed.

(** ** Grouping: what each bucket holds *)

Lemma bucketOf_groupEntry byYear e year c :
  bucketOf (groupEntry byYear e) year c
  = if decide (inBucket year c e) then bucketOf byYear year c ++ [e]
    else bucketOf byYear year c.
Proof.
  unfold bucketOf, groupEntry, inBucket. cbv zeta.
  rewrite mapGet_mapSet.
  destruct (decide (getYear e = year)) as [<-|Hy].
  - simpl. rewrite mapGet_mapSet.
    destruct (decide (categoryOf e = c)) as [<-|Hc].
    + rewrite decide_True by done. simpl.
      by rewrite !mapGet_ensure.
    + rewrite decide_False by (by intros []).
      by rewrite !mapGet_ensure.
  - rewrite decide_False by (by intros []).
    by rewrite mapGet_ensure.
Qed.

Lemma groupEntry_keys byYear e :
  map fst (groupEntry byYear e)
  = if decide (getYear e ∈ map fst byYear) then map fst byYear
    else map fst byYear ++ [getYear e].
Proof.
  unfold groupEntry. cbv zeta. rewrite mapSet_keys.
  rewrite decide_True by apply mapHas_ensure.
  destruct (mapHas byYear (getYear e)) eqn:E.
  - apply mapHas_true in E. by rewrite decide_True.
  - rewrite mapSet_keys.
    destruct (decide (getYear e ∈ map fst byYear)) as [Hin|]; [|done].
    apply mapHas_true in Hin. congruence.
Qed.

Lemma bucketOf_foldl entries :
  ∀ byYear year c,
    bucketOf (foldl groupEntry byYear entries) year c
    = bucketOf byYear year c ++ filter (inBucket year c) entries.
Proof.
  induction entries as [|e es IH]; intros byYear year c; simpl.
  - by rewrite app_nil_r.
  - rewrite IH, bucketOf_groupEntry, filter_cons.
    destruct (decide (inBucket year c e)); [|done].
    by rewrite <- app_assoc.
Qed.

Lemma bucketOf_groupEntries entries year c :
  bucketOf (groupEntries entries) year c = filter (inBucket year c) entries.
Proof. unfold groupEntries. by rewrite bucketOf_foldl. Qed.

Lemma keys_foldl entries :
  ∀ byYear,
    NoDup (map fst byYear) →
    NoDup (map fst (foldl groupEntry byYear entries))
    ∧ ∀ year, year ∈ map fst (foldl groupEntry byYear entries)
              ↔ year ∈ map fst byYear ∨ year ∈ map getYear entries.
Proof.
  induction entries as [|e es IH]; intros byYear Hnd; simpl.
  - split; [done|]. intros year. split; [by left|].
    intros [?|Hin]; [done|]. by apply elem_of_nil in Hin.
  - destruct (IH (groupEntry byYear e)) as [Hnd' Hkeys].
    { rewrite groupEntry_keys.
      destruct (decide (getYear e ∈ map fst byYear)); [done|].
      apply NoDup_app. split; [done|]. split; [|apply NoDup_singleton].
      by intros y Hy ->%list_elem_of_singleton. }
    split; [done|]. intros year. rewrite Hkeys, groupEntry_keys.
    rewrite elem_of_cons.
    destruct (decide (getYear e ∈ map fst byYear)) as [Hin|Hnot].
    + split; [tauto|]. intros [?|[->|?]]; tauto.
    + rewrite elem_of_app, list_elem_of_singleton. tauto.
Qed.

Lemma years_groupEntries entries :
  NoDup (map fst (groupEntries entries))
  ∧ ∀ year, year ∈ map fst (groupEntries entries)
            ↔ year ∈ map getYear entries.
Proof.
  destruct (keys_foldl entries []) as [Hnd Hkeys]; [constructor|].
  split; [done|]. intros year. unfold groupEntries. rewrite Hkeys.
  split; [|by right]. intros [Hin|?]; [|done]. by apply elem_of_nil in Hin.
Qed.

Section GroupingFacts.
Context `{Host}.

(** The rendering, heading by heading, in terms of the input alone. *)
Lemma renderedGroups_spec entries :
  renderedGroups entries
  = map (λ year, (year, categoriesOf entries year))
      (jsSort compareYears (map fst (groupEntries entries))).
Proof.
  unfold renderedGroups. apply map_ext. intros year. f_equal.
  unfold renderedCategories, categoriesOf. apply flat_map_ext. intros label.
  rewrite <- bucketOf_groupEntries. unfold bucketOf.
  destruct (mapGet (default [] (mapGet (groupEntries entries) year))
              (Cat label)) as [[|e bucket]|]; done.
Qed.
End GroupingFacts.

Lemma tableLookup_cases table name :
  match tableLookup table name with
  | Own v => (name, v) ∈ table
  | Inherited n => n = name ∧ name ∈ objectPrototypeNames
  | Undefined => True
  end.
Proof.
  unfold tableLookup.
  destruct (list_find _ table) as [[i [k v]]|] eqn:E.
  - apply list_find_Some in E as (Hi & Hk & _). simpl in Hk. subst k.
    apply list_elem_of_lookup. by exists i.
  - destruct (bool_decide_reflect (name ∈ objectPrototypeNames)); done.
Qed.

Lemma categoryOf_listed e :
  type e ∉ objectPrototypeNames →
  ∃ label, categoryOf e = Cat label ∧ label ∈ CATEGORY_ORDER.
Proof.
  intros Hproto. unfold categoryOf.
  pose proof (tableLookup_cases TYPE_TO_CATEGORY (type e)) as Hcases.
  destruct (tableLookup TYPE_TO_CATEGORY (type e)) as [v|n|].
  - assert (Forall (λ kv, truthy kv.2 = true ∧ kv.2 ∈ CATEGORY_ORDER)
              TYPE_TO_CATEGORY) as Hall.
    { repeat constructor;
        apply (bool_decide_unpack (_ ∈ CATEGORY_ORDER)); by vm_compute. }
    rewrite Forall_forall in Hall.
    destruct (Hall _ Hcases) as [Ht Hin]. simpl in Ht, Hin.
    rewrite Ht. by exists v.
  - by destruct Hcases as [_ ?].
  - exists (js "Other"). split; [done|].
    apply (bool_decide_unpack (_ ∈ CATEGORY_ORDER)). by vm_compute.
Qed.

Lemma flat_map_map {A B C} (f : B → list C) (g : A → B) l :
  flat_map f (map g l) = flat_map (λ x, f (g x)) l.
Proof. induction l as [|x l IH]; simpl; [done|]. by rewrite IH. Qed.

Lemma flat_map_flat_map {A B C} (f : B → list C) (g : A → list B) l :
  flat_map f (flat_map g l) = flat_map (λ x, flat_map f (g x)) l.
Proof.
  induction l as [|x l IH]; simpl; [done|]. by rewrite flat_map_app, IH.
Qed.

Lemma elem_of_flat_map {A B} (f : A → list B) l y :
  y ∈ flat_map f l ↔ ∃ x, x ∈ l ∧ y ∈ f x.
Proof.
  rewrite list_elem_of_In, in_flat_map. split.
  - intros (x & Hx & Hy). exists x. by rewrite !list_elem_of_In.
  - intros (x & Hx & Hy). exists x. by rewrite <- !list_elem_of_In.
Qed.

Section GroupingComplete.
Context `{Host}.

Lemma categoriesOf_elem entries year label bucket :
  (label, bucket) ∈ categoriesOf entries year ↔
  label ∈ CATEGORY_ORDER
  ∧ filter (inBucket year (Cat label)) entries ≠ []
  ∧ bucket = jsSort compareTitles (filter (inBucket year (Cat label)) entries).
Proof.
  unfold categoriesOf. rewrite elem_of_flat_map. split.
  - intros (l & Hl & Hin).
    destruct (filter (inBucket year (Cat l)) entries) as [|e b] eqn:E.
    + by apply elem_of_nil in Hin.
    + apply list_elem_of_singleton in Hin. injection Hin as -> ->.
      by rewrite E.
  - intros (Hl & Hne & ->). exists label. split; [done|].
    destruct (filter (inBucket year (Cat label)) entries) as [|e b]; [done|].
    apply list_elem_of_here.
Qed.

Lemma categoriesOf_entries entries year :
  Forall (λ e, type e ∉ objectPrototypeNames) entries →
  flat_map snd (categoriesOf entries year)
  ≡ₚ filter (λ e, getYear e = year) entries.
Proof.
  intros Hlisted. unfold categoriesOf. rewrite flat_map_flat_map.
  transitivity
    (flat_map (λ c, filter (λ e, categoryOf e = c)
                      (filter (λ e, getYear e = year) entries))
       (map Cat CATEGORY_ORDER)).
  - rewrite flat_map_map. apply flat_map_perm_ext. intros label _.
    rewrite list_filter_filter.
    rewrite (list_filter_iff (inBucket year (Cat label))
               (λ e, categoryOf e = Cat label ∧ getYear e = year))
      by (intros e; unfold inBucket; tauto).
    destruct (filter _ entries) as [|e b] eqn:E; [done|].
    change (flat_map snd [(label, ?x)]) with (x ++ []).
    rewrite app_nil_r. apply jsSort_perm.
  - apply partition_perm.
    + apply (bool_decide_unpack (NoDup (map Cat CATEGORY_ORDER))).
      by vm_compute.
    + intros e [_ He]%list_elem_of_filter.
      rewrite Forall_forall in Hlisted.
      destruct (categoryOf_listed e (Hlisted e He)) as (label & -> & Hin).
      change (map Cat CATEGORY_ORDER) with (Cat <$> CATEGORY_ORDER).
      by apply list_elem_of_fmap_2.
Qed.

(** X21: where no type names a property of [Object.prototype], the
    grouping is complete: the rendered buckets together hold the input
    entries, each once; every year heading has a category heading under it
    and every category heading an entry; and an entry is listed under its
    own year and category. *)
Lemma grouping_complete_for_listed_types (entries : list Entry) :
  Forall (λ e, type e ∉ objectPrototypeNames) entries →
  renderedEntries (renderedGroups entries) ≡ₚ entries
  ∧ Forall (λ y, y.2 ≠ [] ∧ Forall (λ c, c.2 ≠ []) y.2)
      (renderedGroups entries)
  ∧ (∀ year cats label bucket e,
        (year, cats) ∈ renderedGroups entries →
        (label, bucket) ∈ cats → e ∈ bucket →
        e ∈ entries ∧ getYear e = year ∧ categoryOf e = Cat label).
Proof.
  intros Hlisted.
  destruct (years_groupEntries entries) as [Hnd Hyears].
  rewrite renderedGroups_spec.
  split; [|split].
  - unfold renderedEntries. rewrite flat_map_map. simpl.
    rewrite (flat_map_perm _ _ _ (jsSort_perm compareYears _)).
    rewrite (flat_map_perm_ext _ (λ year, filter (λ e, getYear e = year) entries))
      by (intros; by apply categoriesOf_entries).
    apply partition_perm; [done|].
    intros e He. apply Hyears.
    change (map getYear entries) with (getYear <$> entries).
    by apply list_elem_of_fmap_2.
  - apply Forall_forall. intros [year cats] Hin.
    change (map ?f ?l) with (f <$> l) in Hin.
    apply list_elem_of_fmap in Hin as (y & [= -> ->] & Hy).
    rewrite jsSort_perm in Hy. apply Hyears in Hy.
    change (map getYear entries) with (getYear <$> entries) in Hy.
    apply list_elem_of_fmap in Hy as (e & -> & He). simpl. split.
    + rewrite Forall_forall in Hlisted.
      destruct (categoryOf_listed e (Hlisted e He)) as (label & Hc & Hl).
      assert ((label, jsSort compareTitles
                        (filter (inBucket (getYear e) (Cat label)) entries))
              ∈ categoriesOf entries (getYear e)) as Hin.
      { apply categoriesOf_elem. split; [done|]. split; [|done].
        intros Hnil.
        assert (e ∈ filter (inBucket (getYear e) (Cat label)) entries) as Hf
          by (by apply list_elem_of_filter).
        rewrite Hnil in Hf. by apply elem_of_nil in Hf. }
      intros Hnil. rewrite Hnil in Hin. by apply elem_of_nil in Hin.
    + apply Forall_forall. intros [label bucket] Hb.
      apply categoriesOf_elem in Hb as (_ & Hne & ->). simpl.
      intros Hnil. apply Hne.
      apply (f_equal length) in Hnil. rewrite jsSort_length in Hnil.
      by destruct (filter _ entries).
  - intros year cats label bucket e Hin Hb He.
    change (map ?f ?l) with (f <$> l) in Hin.
    apply list_elem_of_fmap in Hin as (y & [= -> ->] & _).
    apply categoriesOf_elem in Hb as (_ & _ & ->).
    rewrite jsSort_perm in He.
    apply list_elem_of_filter in He as [[Hy Hc] He]. done.
Qed.
End GroupingComplete.

(** ** What the normalizer produces *)

Lemma unescape_Forall (P : char → Prop) c s :
  P c → Forall P s → Forall P (unescape c s).
Proof.
  intros Hc.
  assert (Hboth : Forall P s → Forall P (unescape c s)
                  ∧ ∀ x, P x → Forall P (unescape c (x :: s))).
  { induction s as [|y r IH]; intros Hs.
    - split; [constructor|]. intros x Hx. by repeat constructor.
    - apply Forall_cons_1 in Hs as [Hy Hr].
      destruct (IH Hr) as [IH1 IH2]. split; [by apply IH2|].
      intros x Hx.
      change (unescape c (x :: y :: r))
        with (if (x =? Ch.backslash) && (y =? c) then c :: unescape c r
              else x :: unescape c (y :: r)).
      destruct (_ && _); constructor; auto. }
  intros Hs. by apply Hboth.
Qed.

Lemma collapseRuns_Forall (P : char → Prop) p by_ inRun s :
  P by_ → Forall P s → Forall P (collapseRuns p by_ inRun s).
Proof.
  intros Hby Hs. revert inRun.
  induction Hs as [|c r Hc _ IH]; intros inRun; simpl; [constructor|].
  destruct (p c); [destruct inRun|]; try constructor; auto.
Qed.

Lemma skipWhile_Forall (P : char → Prop) p s :
  Forall P s → Forall P (skipWhile p s).
Proof.
  intros Hs. destruct (skipWhile_suffix p s) as [k Hk].
  rewrite Hk in Hs. by apply Forall_app in Hs as [_ ?].
Qed.

Lemma trim_Forall (P : char → Prop) s : Forall P s → Forall P (trim s).
Proof.
  intros Hs. unfold trim, trimStart, trimEnd.
  apply Forall_rev, skipWhile_Forall, Forall_rev. by apply skipWhile_Forall.
Qed.

Lemma skipWhile_snoc p l c :
  skipWhile p (l ++ [c])
  = match skipWhile p l with
    | [] => if p c then [] else [c]
    | _ :: _ => skipWhile p l ++ [c]
    end.
Proof.
  induction l as [|x l IH]; simpl; [done|]. by destruct (p x).
Qed.

Lemma trimEnd_cons c r :
  trimEnd (c :: r)
  = match trimEnd r with
    | [] => if isSpace c then [] else [c]
    | _ :: _ => c :: trimEnd r
    end.
Proof.
  unfold trimEnd. simpl rev. rewrite skipWhile_snoc.
  destruct (skipWhile isSpace (rev r)) as [|x t] eqn:E.
  - simpl. by destruct (isSpace c).
  - rewrite rev_app_distr. simpl.
    destruct (rev t ++ [x]) eqn:E'; [by destruct (rev t)|done].
Qed.

Lemma trimEnd_collapsed s :
  ∀ prev, spacesSingle prev s = true → trimEnd s ≠ [] →
          spacesCollapsed prev (trimEnd s) = true.
Proof.
  induction s as [|c r IH]; intros prev Hs Hne; [done|].
  rewrite trimEnd_cons in *. simpl in Hs.
  destruct (trimEnd r) as [|x t] eqn:E.
  - destruct (isSpace c) eqn:Hc; [done|]. simpl. by rewrite Hc.
  - change (spacesCollapsed prev (c :: x :: t))
      with (if isSpace c
            then (c =? Ch.space) && negb prev && spacesCollapsed true (x :: t)
            else spacesCollapsed false (x :: t)).
    destruct (isSpace c).
    + apply andb_prop in Hs as [H1 Hr].
      apply andb_true_intro. split; [done|]. by apply IH.
    + by apply IH.
Qed.

Lemma collapseRuns_single s :
  ∀ inRun, spacesSingle inRun (collapseRuns isSpace Ch.space inRun s) = true.
Proof.
  induction s as [|c r IH]; intros inRun; simpl; [done|].
  destruct (isSpace c) eqn:Hc.
  - destruct inRun; [apply IH|]. simpl. apply IH.
  - simpl. rewrite Hc. apply IH.
Qed.

Lemma trimStart_single prev s :
  spacesSingle prev s = true → spacesSingle true (trimStart s) = true.
Proof.
  unfold trimStart. revert prev.
  induction s as [|c r IH]; intros prev; simpl; [done|].
  destruct (isSpace c) eqn:Hc.
  - intros [_ Hr]%andb_prop. by eapply IH.
  - simpl. by rewrite Hc.
Qed.

Lemma bibToText_normalized value :
  bibToText value ≠ [] → normalizedValue (bibToText value) = true.
Proof.
  unfold bibToText. destruct (negb (truthy value)); [done|].
  set (out := stripOuterBraces _ _).
  set (w := unescape Ch.percent
              (unescape Ch.comma (unescape Ch.amp (removeBraces out)))).
  intros Hne. unfold normalizedValue.
  apply andb_true_intro; split; [apply andb_true_intro; split|].
  - by destruct (trim (collapseSpaces w)).
  - unfold braceFree. apply forallb_forall. intros c Hc.
    assert (Forall (λ c, negb (isBrace c) = true) (trim (collapseSpaces w)))
      as Hall.
    { apply trim_Forall, collapseRuns_Forall; [done|].
      unfold w. do 3 (apply unescape_Forall; [done|]).
      unfold removeBraces. apply Forall_forall. intros x Hx.
      apply list_elem_of_In, filter_In in Hx. tauto. }
    rewrite Forall_forall in Hall. apply Hall. by apply list_elem_of_In.
  - unfold trim in *. apply trimEnd_collapsed; [|done].
    eapply trimStart_single. apply collapseRuns_single.
Qed.

(** ** What the parser produces *)

Lemma lowerChar_name c :
  isNameChar c = true →
  isNameChar (lowerChar c) && negb (isUpper (lowerChar c)) = true.
Proof.
  intros Hc. apply andb_true_intro. split; [|apply negb_true_iff];
    unfold lowerChar; destruct (isUpper c) eqn:Hu; char_facts.
Qed.

Lemma lowerChar_alpha c : isAlpha c = true → isLower (lowerChar c) = true.
Proof.
  intros Hc. unfold lowerChar. destruct (isUpper c) eqn:Hu; char_facts.
Qed.

Lemma forallb_map_intro (p q : char → bool) (f : char → char) s :
  (∀ c, p c = true → q (f c) = true) →
  Forall (λ c, p c = true) s → forallb q (map f s) = true.
Proof.
  intros Hpq. induction 1 as [|c r Hc _ IH]; simpl; [done|].
  by rewrite (Hpq c Hc), IH.
Qed.

Lemma trim_ends s :
  match trim s with c :: _ => isSpace c = false | [] => True end
  ∧ match rev (trim s) with c :: _ => isSpace c = false | [] => True end.
Proof.
  unfold trim, trimStart. split.
  - pose proof (skipWhile_head isSpace s) as Hh.
    destruct (skipWhile isSpace s) as [|c r]; [done|].
    rewrite trimEnd_cons. specialize (Hh c r eq_refl).
    destruct (trimEnd r); [by rewrite Hh|done].
  - unfold trimEnd. rewrite rev_involutive.
    pose proof (skipWhile_head isSpace (rev (skipWhile isSpace s))) as Hh.
    destruct (skipWhile isSpace (rev (skipWhile isSpace s))); [done|].
    by eapply Hh.
Qed.

Lemma trim_trim s : trim (trim s) = trim s.
Proof. destruct (trim_ends s). by apply trim_fixed. Qed.

Lemma parsedKey_trim s :
  parsedKey (trim (takeWhile (λ c, negb (c =? Ch.comma)) s)) = true.
Proof.
  unfold parsedKey. apply andb_true_intro. split.
  - apply bool_decide_eq_true, trim_trim.
  - apply forallb_forall. intros c Hc.
    pose proof (trim_Forall _ _ (takeWhile_all (λ c, negb (c =? Ch.comma)) s))
      as Hall.
    rewrite Forall_forall in Hall. apply Hall. by apply list_elem_of_In.
Qed.

Lemma parsedName_lower s :
  toLowerAscii (takeWhile isNameChar s) ≠ protoName →
  parsedName (toLowerAscii (takeWhile isNameChar s)) = true.
Proof.
  intros Hp. unfold parsedName. apply andb_true_intro. split.
  - unfold toLowerAscii.
    apply (forallb_map_intro isNameChar); [apply lowerChar_name|].
    apply takeWhile_all.
  - by apply negb_true_iff, bool_decide_eq_false.
Qed.

Lemma objSet_shape name value o :
  (name ≠ protoName → parsedName name = true) →
  map_Forall (λ k _, parsedName k = true) o →
  map_Forall (λ k _, parsedName k = true) (objSet name value o).
Proof.
  intros Hname Ho. unfold objSet.
  destruct (decide (name = protoName)); [done|].
  apply map_Forall_insert_2; auto.
Qed.

Lemma parseFields_shape fuel :
  ∀ rest acc o r,
    parseFields fuel rest acc = Some (o, r) →
    map_Forall (λ k _, parsedName k = true) acc →
    map_Forall (λ k _, parsedName k = true) o.
Proof.
  induction fuel as [|fuel IH]; intros rest acc o r; [done|].
  destruct rest as [|x t]; [by intros [= <- <-]|].
  rewrite parseFields_unfold by done.
  destruct (skipWhile isSpaceOrComma (x :: t)) as [|c r2];
    [by intros [= <- <-]|].
  destruct (c =? Ch.rbrace); [by intros [= <- <-]|].
  destruct (skipWhile isSpace (skipWhile isNameChar (c :: r2))) as [|e r4];
    [by intros [= <- <-]|].
  destruct (e =? Ch.equals); [|by intros [= <- <-]].
  destruct (readBibValueAt (skipWhile isSpace r4)) as [value r6].
  intros Hp Hacc. eapply IH; [exact Hp|].
  apply objSet_shape; [|done]. apply parsedName_lower.
Qed.

Lemma parseRecord_shape fuel rest e r :
  parseRecord fuel rest = Some (Some e, r) → parsedEntry e.
Proof.
  unfold parseRecord. cbv zeta.
  destruct (skipWhile isSpace (skipWhile isAlpha (skipWhile isSpace rest)))
    as [|b r4]; [done|].
  destruct (b =? Ch.lbrace); [|done].
  destruct (skipWhile _ (skipWhile isSpace r4)) as [|k r7]; [done|].
  destruct (parseFields fuel r7 ∅) as [[fs r8]|] eqn:E; [|done].
  intros [= <- <-]. split; [|split]; simpl.
  - unfold parsedType, toLowerAscii.
    apply (forallb_map_intro isAlpha); [apply lowerChar_alpha|].
    apply takeWhile_all.
  - apply parsedKey_trim.
  - eapply parseFields_shape; [exact E|]. apply map_Forall_empty.
Qed.

Lemma parseLoop_shape fuel :
  ∀ rest acc entries,
    parseLoop fuel rest acc = Some entries →
    Forall parsedEntry acc → Forall parsedEntry entries.
Proof.
  induction fuel as [|fuel IH]; intros rest acc entries; [done|].
  destruct rest as [|x t]; [by intros [= <-]|].
  rewrite parseLoop_unfold by done.
  destruct (afterFirst Ch.at_sign (x :: t)) as [r0|]; [|by intros [= <-]].
  destruct (parseRecord fuel r0) as [[[e|] r]|] eqn:E; [| |done].
  - intros Hp Hacc. eapply IH; [exact Hp|].
    apply Forall_app. split; [done|]. constructor; [|constructor].
    by eapply parseRecord_shape.
  - intros Hp Hacc. by eapply IH.
Qed.

Lemma parseBib_shape tex : Forall parsedEntry (parseBib tex).
Proof.
  destruct (parseLoop_enough (parseBibFuel tex) tex []) as [es Hes].
  { unfold parseBibFuel. lia. }
  rewrite (parseBib_from_fuel _ _ _ Hes).
  eapply parseLoop_shape; [exact Hes|constructor].
Qed.

Lemma cleanEntry_normalized e :
  parsedEntry e → normalizedEntry (cleanEntry e) = true.
Proof.
  intros (Hty & Hkey & Hnames). unfold normalizedEntry. simpl.
  rewrite Hty, Hkey. simpl. apply forallb_forall. intros [name v] Hin.
  apply list_elem_of_In, elem_of_map_to_list in Hin.
  rewrite cleanFields_lookup in Hin.
  destruct (fields e !! name) as [raw|] eqn:Hraw; [|done]. simpl in Hin.
  specialize (Hnames name raw Hraw). simpl in Hnames.
  unfold parsedName in Hnames. apply andb_prop in Hnames as [Hchars Hproto].
  unfold cleanField in Hin.
  destruct (bool_decide (name ∈ DROP_FIELDS)) eqn:Hdrop; [done|].
  destruct (truthy (bibToText raw)) eqn:Ht; [|done]. simpl in Hin.
  destruct (decide (name = protoName)); [done|]. injection Hin as <-.
  simpl. apply andb_true_intro. split.
  - unfold keptName. by rewrite Hchars, Hdrop, Hproto.
  - apply bibToText_normalized. by destruct (bibToText raw).
Qed.

(** What the pipeline hands to [writeCleanBib] consists of normalized
    entries. *)
Lemma cleanEntries_normalized `{Host} tex :
  forallb normalizedEntry (cleanEntries (parseBib tex)) = true.
Proof.
  apply forallb_forall. intros e He. apply list_elem_of_In in He.
  unfold cleanEntries in He. rewrite jsSort_perm in He.
  change (map cleanEntry ?l) with (cleanEntry <$> l) in He.
  apply list_elem_of_fmap in He as (e0 & -> & He0).
  apply cleanEntry_normalized.
  pose proof (parseBib_shape tex) as Hall. rewrite Forall_forall in Hall.
  by apply Hall.
Qed.

(** X9: with a consistent [localeCompare], running the pipeline on its own
    output changes nothing, as long as no value of the first run still
    holds an escape sequence: parsing and cleaning what [writeCleanBib]
    printed for the cleaned entries gives the same entries again. *)
Lemma pipeline_fixed_point `{Host} tex :
  consistent localeCompare →
  forallb escapeFreeEntry (cleanEntries (parseBib tex)) = true →
  cleanEntries (parseBib (writeCleanBib (cleanEntries (parseBib tex))))
  = cleanEntries (parseBib tex).
Proof.
  intros Hlc Hesc.
  pose proof (compareEntries_consistent Hlc) as Hcons.
  assert (jsSort compareEntries (cleanEntries (parseBib tex))
          = cleanEntries (parseBib tex)) as Hfix
    by (by apply jsSort_fixed, jsSort_sorted).
  rewrite <- Hfix at 2. unfold cleanEntries at 1. f_equal.
  apply reparse_normalized; [apply cleanEntries_normalized|done].
Qed.

(** ** escapeHtml *)

(** Closed literals as lists of units. *)
Ltac literals :=
  repeat match goal with
         | |- context [js ?s] =>
             let v := eval vm_compute in (js s) in change (js s) with v
         | H : context [js ?s] |- _ =>
             let v := eval vm_compute in (js s) in change (js s) with v in H
         end.

Lemma replaceChar_flat_map {A} c by_ (f : A → jsstring) l :
  replaceChar c by_ (flat_map f l) = flat_map (λ x, replaceChar c by_ (f x)) l.
Proof. unfold replaceChar. apply flat_map_flat_map. Qed.

(** The four passes amount to one pass that renders each unit on its own:
    the [&] of a reference written by a later pass is never escaped again. *)
Lemma escapeHtml_units s : escapeHtml s = flat_map escapeUnit s.
Proof.
  unfold escapeHtml. unfold replaceChar at 4.
  rewrite !replaceChar_flat_map. apply flat_map_ext. intros c.
  unfold escapeUnit.
  destruct (N.eqb_spec c Ch.amp) as [->|Hamp]; [done|].
  unfold replaceChar. simpl. rewrite !app_nil_r.
  destruct (N.eqb_spec c Ch.lt) as [->|Hlt]; [done|].
  simpl. rewrite !app_nil_r.
  destruct (N.eqb_spec c Ch.gt) as [->|Hgt]; [done|].
  simpl. rewrite !app_nil_r.
  by destruct (N.eqb_spec c Ch.dquote) as [->|Hq].
Qed.

Lemma escapeUnit_cases c :
  (c = Ch.amp ∧ escapeUnit c = js "&amp;")
  ∨ (c = Ch.lt ∧ escapeUnit c = js "&lt;")
  ∨ (c = Ch.gt ∧ escapeUnit c = js "&gt;")
  ∨ (c = Ch.dquote ∧ escapeUnit c = js "&quot;")
  ∨ (c ≠ Ch.amp ∧ c ≠ Ch.lt ∧ c ≠ Ch.gt ∧ c ≠ Ch.dquote ∧ escapeUnit c = [c]).
Proof.
  unfold escapeUnit.
  destruct (N.eqb_spec c Ch.amp) as [->|?]; [by left|].
  destruct (N.eqb_spec c Ch.lt) as [->|?]; [by right; left|].
  destruct (N.eqb_spec c Ch.gt) as [->|?]; [by right; right; left|].
  destruct (N.eqb_spec c Ch.dquote) as [->|?]; [by right; right; right; left|].
  by right; right; right; right.
Qed.

Lemma escapeHtml_markupFree s : markupFree (escapeHtml s) = true.
Proof.
  rewrite escapeHtml_units. unfold markupFree.
  induction s as [|c r IH]; [done|].
  change (flat_map escapeUnit (c :: r))
    with (escapeUnit c ++ flat_map escapeUnit r).
  rewrite forallb_app, IH, andb_true_r.
  destruct (escapeUnit_cases c)
    as [[-> ->]|[[-> ->]|[[-> ->]|[[-> ->]|(Ha & Hl & Hg & Hq & ->)]]]];
    try done.
  apply N.eqb_neq in Hl, Hg, Hq. simpl. by rewrite Hl, Hg, Hq.
Qed.

Lemma escapeHtml_ampersands s : ampersandsEscaped (escapeHtml s) = true.
Proof.
  rewrite escapeHtml_units.
  induction s as [|c r IH]; [done|].
  change (flat_map escapeUnit (c :: r))
    with (escapeUnit c ++ flat_map escapeUnit r).
  destruct (escapeUnit_cases c)
    as [[-> ->]|[[-> ->]|[[-> ->]|[[-> ->]|(Ha & Hl & Hg & Hq & ->)]]]];
    try exact IH.
  apply N.eqb_neq in Ha. simpl. by rewrite Ha.
Qed.

(** X12: the text that [escapeHtml] returns holds no [<], no [>] and no
    double quote, and each [&] in it opens one of [&amp;], [&lt;], [&gt;],
    [&quot;]: it cannot open or close a tag, nor end an attribute value. *)
Theorem escapeHtml_safe (s : jsstring) :
  markupFree (escapeHtml s) = true ∧ ampersandsEscaped (escapeHtml s) = true.
Proof.
  split; [apply escapeHtml_markupFree|apply escapeHtml_ampersands].
Qed.


(** ** bibToText on arbitrary values *)

Lemma stripOuterBraces_more_fuel fuel fuel' out :
  (length out ≤ fuel)%nat → (fuel ≤ fuel')%nat →
  stripOuterBraces fuel' out = stripOuterBraces fuel out.
Proof.
  revert fuel' out. induction fuel as [|fuel IH]; intros fuel' out Hlen Hle.
  - destruct out; [by destruct fuel'|simpl in Hlen; lia].
  - destruct fuel' as [|fuel']; [lia|].
    change (stripOuterBraces (S fuel') out)
      with (if startsWith [Ch.lbrace] out && endsWith [Ch.rbrace] out
            then stripOuterBraces fuel' (trim (sliceInner out))
            else out).
    change (stripOuterBraces (S fuel) out)
      with (if startsWith [Ch.lbrace] out && endsWith [Ch.rbrace] out
            then stripOuterBraces fuel (trim (sliceInner out))
            else out).
    destruct (startsWith [Ch.lbrace] out && endsWith [Ch.rbrace] out); [|done].
    apply IH; [|lia]. destruct out as [|c r]; [apply Nat.le_0_l|].
    etransitivity; [apply trim_length|].
    etransitivity; [apply sliceInner_length|]. simpl in Hlen. lia.
Qed.

(** X6: the brace-stripping loop of [bibToText] ends: after at most as many
    rounds as the trimmed value has units, the text no longer both starts
    with [{] and ends with [}], and further rounds change nothing. *)
Theorem bibToText_strip_terminates (value : jsstring) (fuel : nat) :
  let out := trim value in
  let stripped := stripOuterBraces (length out) out in
  startsWith [Ch.lbrace] stripped && endsWith [Ch.rbrace] stripped = false
  ∧ ((length out ≤ fuel)%nat → stripOuterBraces fuel out = stripped).
Proof.
  intros out stripped. split.
  - by apply stripOuterBraces_done.
  - intros Hle. by apply stripOuterBraces_more_fuel.
Qed.

(** X7: whatever the raw value, [bibToText] returns the empty string or a
    normalized value: non-empty, without braces, with no white space other
    than single spaces between words. *)
Theorem bibToText_output (value : jsstring) :
  bibToText value = [] ∨ normalizedValue (bibToText value) = true.
Proof.
  destruct (bibToText value) as [|c r] eqn:E; [by left|right].
  rewrite <- E. apply bibToText_normalized. by rewrite E.
Qed.

Lemma bibToText_fixed v :
  normalizedValue v = true → escapeFree v = true → bibToText v = v.
Proof.
  unfold normalizedValue. intros [[Hne Hb]%andb_prop Hs]%andb_prop He.
  assert (trim v = v) as Ht.
  { apply trim_fixed;
      [by apply spacesCollapsed_head|by eapply spacesCollapsed_last]. }
  unfold bibToText. rewrite Hne, Ht. cbv iota. simpl negb. cbv iota.
  assert (stripOuterBraces (length v) v = v) as ->.
  { destruct v as [|c r]; [done|].
    change (stripOuterBraces (length (c :: r)) (c :: r))
      with (if startsWith [Ch.lbrace] (c :: r) && endsWith [Ch.rbrace] (c :: r)
            then stripOuterBraces (length r) (trim (sliceInner (c :: r)))
            else c :: r).
    simpl in Hb. apply andb_prop in Hb as [Hc _]. unfold isBrace in Hc.
    apply negb_true_iff, orb_false_elim in Hc as [Hc _].
    simpl. by rewrite Hc. }
  rewrite removeBraces_fixed by done.
  rewrite (unescape_fixed Ch.amp) by (by try left).
  rewrite (unescape_fixed Ch.comma) by (by try (right; left)).
  rewrite (unescape_fixed Ch.percent) by (by try (right; right)).
  unfold collapseSpaces. rewrite collapseRuns_fixed; [done|].
  eapply spacesCollapsed_relax; [done|]. by destruct v.
Qed.

(** X8: normalizing twice is normalizing once, as long as the first result
    holds no backslash directly before [&], [,] or [%] (such a pair would
    be unescaped once more). *)
Theorem bibToText_idempotent (value : jsstring) :
  escapeFree (bibToText value) = true →
  bibToText (bibToText value) = bibToText value.
Proof.
  intros He. destruct (bibToText value) as [|c r] eqn:E; [done|].
  rewrite <- E in *. apply bibToText_fixed; [|done].
  apply bibToText_normalized. by rewrite E.
Qed.

Lemma bibToText_idempotent_witness :
  bibToText (js "{{A \& B}  C}") = js "A & B C"
  ∧ bibToText (bibToText (js "{{A \& B}  C}")) = bibToText (js "{{A \& B}  C}").
Proof.
  split; [by vm_compute|].
  apply (bibToText_idempotent (js "{{A \& B}  C}")). by vm_compute.
Defined.

(** ** readBibValue on well-delimited values *)

Lemma readBraced_balanced v :
  ∀ depth rest,
    (0 < depth)%Z →
    (∀ n, (0 < n < length v)%nat →
          (0 < depth + Z.of_nat (occurrences Ch.lbrace (take n v))
               - Z.of_nat (occurrences Ch.rbrace (take n v)))%Z) →
    (depth + Z.of_nat (occurrences Ch.lbrace v)
     - Z.of_nat (occurrences Ch.rbrace v) = 0)%Z →
    readBraced depth (v ++ rest) = (v, rest).
Proof.
  induction v as [|c t IH]; intros depth rest Hd Hopen Hend.
  { change (occurrences Ch.lbrace []) with 0%nat in Hend.
    change (occurrences Ch.rbrace []) with 0%nat in Hend. lia. }
  rewrite !occurrences_cons in Hend.
  assert (Hone : t ≠ [] →
            (0 < depth + (if (c =? Ch.lbrace)%N then 1 else 0)
                 - (if (c =? Ch.rbrace)%N then 1 else 0))%Z).
  { intros Ht. specialize (Hopen 1%nat). simpl in Hopen.
    rewrite take_0, !occurrences_cons in Hopen.
    change (occurrences Ch.lbrace []) with 0%nat in Hopen.
    change (occurrences Ch.rbrace []) with 0%nat in Hopen.
    destruct t; [done|]. simpl in Hopen.
    destruct (c =? Ch.lbrace), (c =? Ch.rbrace); lia. }
  assert (Hstep : ∀ n, (0 < n < length t)%nat →
            (0 < depth + (if (c =? Ch.lbrace)%N then 1 else 0)
                 - (if (c =? Ch.rbrace)%N then 1 else 0)
                 + Z.of_nat (occurrences Ch.lbrace (take n t))
                 - Z.of_nat (occurrences Ch.rbrace (take n t)))%Z).
  { intros n Hn. specialize (Hopen (S n)). simpl in Hopen.
    rewrite !occurrences_cons in Hopen.
    destruct (c =? Ch.lbrace), (c =? Ch.rbrace); lia. }
  assert (Hnil : t = [] →
            (depth + (if (c =? Ch.lbrace)%N then 1 else 0)
             - (if (c =? Ch.rbrace)%N then 1 else 0) = 0)%Z).
  { intros ->. change (occurrences Ch.lbrace []) with 0%nat in Hend.
    change (occurrences Ch.rbrace []) with 0%nat in Hend.
    destruct (c =? Ch.lbrace), (c =? Ch.rbrace); lia. }
  change ((c :: t) ++ rest) with (c :: (t ++ rest)).
  cbn [readBraced].
  destruct (N.eqb_spec c Ch.lbrace) as [->|Hl].
  - change (Ch.lbrace =? Ch.rbrace) with false in *. cbv iota in *.
    rewrite (IH (depth + 1)%Z); [done|lia| |lia].
    intros n Hn. specialize (Hstep n Hn). lia.
  - destruct (N.eqb_spec c Ch.rbrace) as [->|Hr].
    + change (Ch.rbrace =? Ch.lbrace) with false in *.
      change (Ch.rbrace =? Ch.rbrace) with true in *. cbv iota in *.
      destruct (Z.eqb_spec (depth - 1) 0) as [Hz|Hz].
      * destruct t as [|x t']; [done|]. specialize (Hone ltac:(done)). lia.
      * destruct t as [|x t']; [specialize (Hnil eq_refl); lia|].
        specialize (Hone ltac:(done)).
        rewrite (IH (depth - 1)%Z); [done|lia| |lia].
        intros n Hn. specialize (Hstep n Hn). lia.
    + destruct t as [|x t']; [specialize (Hnil eq_refl); lia|].
      rewrite (IH depth); [done|lia| |lia].
      intros n Hn. specialize (Hstep n Hn). lia.
Qed.

Lemma readBibValue_at pre rest v r :
  readBibValueAt rest = (v, r) →
  readBibValue (pre ++ rest) (length pre)
  = (v, (length pre + (length rest - length r))%nat).
Proof.
  intros E. unfold readBibValue. rewrite drop_app_length. by rewrite E.
Qed.

(** X1: a brace-delimited value is read up to the brace that matches the
    opening one, nested braces included, and the cursor is left just behind
    it: if the text at the cursor starts with [v], where [v] opens with [{],
    every proper prefix of [v] has more [{] than [}] and [v] has as many of
    each, then the value is [v], braces and all. *)
Theorem readBibValue_braces (pre v rest : jsstring) :
  head v = Some Ch.lbrace →
  (∀ n, (0 < n < length v)%nat →
        (occurrences Ch.rbrace (take n v)
         < occurrences Ch.lbrace (take n v))%nat) →
  occurrences Ch.rbrace v = occurrences Ch.lbrace v →
  readBibValue (pre ++ v ++ rest) (length pre)
  = (v, (length pre + length v)%nat).
Proof.
  intros Hhead Hopen Hend. destruct v as [|c t]; [done|].
  injection Hhead as ->.
  rewrite (readBibValue_at pre _ (Ch.lbrace :: t) rest).
  { f_equal. rewrite !length_app. lia. }
  change ((Ch.lbrace :: t) ++ rest) with (Ch.lbrace :: (t ++ rest)).
  rewrite readBibValueAt_lbrace. cbn [readBraced].
  change (Ch.lbrace =? Ch.lbrace) with true. cbv iota.
  rewrite !occurrences_cons in Hend.
  change (Ch.lbrace =? Ch.rbrace) with false in Hend.
  change (Ch.lbrace =? Ch.lbrace) with true in Hend. cbv iota in Hend.
  rewrite (readBraced_balanced t (0 + 1)%Z rest); [done|lia| |lia].
  intros n Hn. specialize (Hopen (S n)). simpl in Hopen.
  rewrite !occurrences_cons in Hopen.
  change (Ch.lbrace =? Ch.rbrace) with false in Hopen.
  change (Ch.lbrace =? Ch.lbrace) with true in Hopen. cbv iota in Hopen. lia.
Qed.

Lemma readBibValue_braces_witness :
  readBibValue (js "t = {a {b} c}, y") 4 = (js "{a {b} c}", 13%nat).
Proof.
  apply (readBibValue_braces (js "t = ") (js "{a {b} c}") (js ", y")).
  - reflexivity.
  - intros n Hn. simpl in Hn.
    do 9 (destruct n as [|n]; [vm_compute; lia|]). lia.
  - reflexivity.
Defined.

Lemma readQuoted_closed body :
  ∀ prev rest,
    (∀ i, body !! i = Some Ch.dquote →
          (prev :: body) !! i = Some Ch.backslash) →
    last (prev :: body) ≠ Some Ch.backslash →
    readQuoted prev (body ++ Ch.dquote :: rest) = (body, Ch.dquote :: rest).
Proof.
  induction body as [|c t IH]; intros prev rest Hq Hlast.
  - simpl. change (Ch.dquote =? Ch.dquote) with true.
    destruct (N.eqb_spec prev Ch.backslash) as [->|]; [done|done].
  - change ((c :: t) ++ Ch.dquote :: rest) with (c :: (t ++ Ch.dquote :: rest)).
    cbn [readQuoted].
    destruct ((c =? Ch.dquote) && negb (prev =? Ch.backslash)) eqn:E.
    { apply andb_prop in E as [->%N.eqb_eq Hp].
      specialize (Hq 0%nat eq_refl). simpl in Hq. injection Hq as ->.
      done. }
    rewrite (IH c rest); [done| |].
    + intros i Hi. apply (Hq (S i)). exact Hi.
    + by rewrite last_cons_cons in Hlast.
Qed.

(** X2: a quote-delimited value is read up to the first double quote that
    does not directly follow a backslash; the value is what stands between
    the quotes (escaped quotes keep their backslash) and the cursor is left
    behind the closing quote. *)
Theorem readBibValue_quotes (pre body rest : jsstring) :
  unterminatedQuote body →
  last body ≠ Some Ch.backslash →
  readBibValue (pre ++ Ch.dquote :: body ++ Ch.dquote :: rest) (length pre)
  = (body, (length pre + length body + 2)%nat).
Proof.
  intros Hq Hlast.
  rewrite (readBibValue_at pre _ body rest).
  { f_equal. simpl. rewrite !length_app. simpl. lia. }
  rewrite readBibValueAt_dquote.
  rewrite (readQuoted_closed body Ch.dquote rest).
  - by change (Ch.dquote =? Ch.dquote) with true.
  - intros i Hi. destruct (Hq i Hi) as (j & -> & Hj). exact Hj.
  - destruct body as [|c t]; [done|]. by rewrite last_cons_cons.
Qed.

Lemma readBibValue_quotes_witness :
  readBibValue (jsq "t = 'a \'b\' c', y") 4 = (jsq "a \'b\' c", 15%nat).
Proof.
  apply (readBibValue_quotes (js "t = ") (jsq "a \'b\' c") (js ", y")).
  - intros i Hi.
    do 9 (destruct i as [|i]; [first [discriminate Hi|by eexists]|]).
    discriminate Hi.
  - by vm_compute.
Defined.

(** X3: a value that opens with neither a brace nor a double quote runs up
    to the next comma or closing brace, or to the end of the text, and the
    cursor is left on that delimiter. *)
Theorem readBibValue_bare (pre v rest : jsstring) :
  match v with c :: _ => c ≠ Ch.lbrace ∧ c ≠ Ch.dquote | [] => True end →
  Forall (λ c, c ≠ Ch.comma ∧ c ≠ Ch.rbrace) v →
  match rest with c :: _ => c = Ch.comma ∨ c = Ch.rbrace | [] => True end →
  readBibValue (pre ++ v ++ rest) (length pre)
  = (v, (length pre + length v)%nat).
Proof.
  intros Hhead Hv Hrest.
  assert (Forall (λ c, isBareChar c = true) v) as Hbare.
  { eapply Forall_impl; [exact Hv|]. intros c [Hc Hr]. unfold isBareChar.
    apply N.eqb_neq in Hc, Hr. by rewrite Hc, Hr. }
  assert (match rest with [] => True | c :: _ => isBareChar c = false end)
    as Hstop.
  { destruct rest as [|c r]; [done|]. unfold isBareChar.
    destruct Hrest as [->| ->]; done. }
  rewrite (readBibValue_at pre _ v rest).
  { f_equal. rewrite !length_app. lia. }
  assert (readBibValueAt (v ++ rest)
          = (takeWhile isBareChar (v ++ rest), skipWhile isBareChar (v ++ rest)))
    as ->.
  { destruct v as [|c t].
    - destruct rest as [|c r]; [done|]. simpl.
      destruct Hrest as [->| ->]; done.
    - destruct Hhead as [Hl Hq]. apply N.eqb_neq in Hl, Hq.
      simpl. by rewrite Hl, Hq. }
  rewrite takeWhile_app, skipWhile_app by done.
  by rewrite takeWhile_stop, skipWhile_stop, app_nil_r.
Qed.

Lemma readBibValue_bare_witness :
  readBibValue (js "year = 2020, x") 7 = (js "2020", 11%nat).
Proof.
  apply (readBibValue_bare (js "year = ") (js "2020") (js ", x")).
  - by vm_compute.
  - repeat constructor; by vm_compute.
  - by left.
Defined.

(** ** parseBib on arbitrary text *)

Lemma objSet_trimmed name value o :
  map_Forall (λ _ v, trim v = v) o →
  map_Forall (λ _ v, trim v = v) (objSet name (trim value) o).
Proof.
  intros Ho. unfold objSet. destruct (decide (name = protoName)); [done|].
  apply map_Forall_insert_2; [apply trim_trim|done].
Qed.

Lemma parseFields_trimmed fuel :
  ∀ rest acc o r,
    parseFields fuel rest acc = Some (o, r) →
    map_Forall (λ _ v, trim v = v) acc →
    map_Forall (λ _ v, trim v = v) o.
Proof.
  induction fuel as [|fuel IH]; intros rest acc o r; [done|].
  destruct rest as [|x t]; [by intros [= <- <-]|].
  rewrite parseFields_unfold by done.
  destruct (skipWhile isSpaceOrComma (x :: t)) as [|c r2];
    [by intros [= <- <-]|].
  destruct (c =? Ch.rbrace); [by intros [= <- <-]|].
  destruct (skipWhile isSpace (skipWhile isNameChar (c :: r2))) as [|e r4];
    [by intros [= <- <-]|].
  destruct (e =? Ch.equals); [|by intros [= <- <-]].
  destruct (readBibValueAt (skipWhile isSpace r4)) as [value r6].
  intros Hp Hacc. eapply IH; [exact Hp|]. by apply objSet_trimmed.
Qed.

Lemma parseRecord_trimmed fuel rest e r :
  parseRecord fuel rest = Some (Some e, r) →
  map_Forall (λ _ v, trim v = v) (fields e).
Proof.
  unfold parseRecord. cbv zeta.
  destruct (skipWhile isSpace (skipWhile isAlpha (skipWhile isSpace rest)))
    as [|b r4]; [done|].
  destruct (b =? Ch.lbrace); [|done].
  destruct (skipWhile _ (skipWhile isSpace r4)) as [|k r7]; [done|].
  destruct (parseFields fuel r7 ∅) as [[fs r8]|] eqn:E; [|done].
  intros [= <- <-]. simpl.
  eapply parseFields_trimmed; [exact E|]. apply map_Forall_empty.
Qed.

Lemma parseLoop_Forall (P : Entry → Prop) fuel :
  (∀ f rest e r, parseRecord f rest = Some (Some e, r) → P e) →
  ∀ rest acc entries,
    parseLoop fuel rest acc = Some entries →
    Forall P acc → Forall P entries.
Proof.
  intros HP.
  induction fuel as [|fuel IH]; intros rest acc entries; [done|].
  destruct rest as [|x t]; [by intros [= <-]|].
  rewrite parseLoop_unfold by done.
  destruct (afterFirst Ch.at_sign (x :: t)) as [r0|]; [|by intros [= <-]].
  destruct (parseRecord fuel r0) as [[[e|] r]|] eqn:E; [| |done].
  - intros Hp Hacc. eapply IH; [exact Hp|].
    apply Forall_app. split; [done|]. constructor; [|constructor].
    by eapply HP.
  - intros Hp Hacc. by eapply IH.
Qed.

(** X4: whatever the text, every entry that [parseBib] returns has a type
    of lowercase ASCII letters, a key that is trimmed and holds no comma,
    field names over [[a-z0-9_-]] (never [__proto__]) and field values
    without white space at either end. *)
Theorem parseBib_output (tex : jsstring) :
  Forall (λ e, parsedEntry e ∧ map_Forall (λ _ v, trim v = v) (fields e))
         (parseBib tex).
Proof.
  destruct (parseLoop_enough (parseBibFuel tex) tex []) as [es Hes].
  { unfold parseBibFuel. lia. }
  rewrite (parseBib_from_fuel _ _ _ Hes).
  eapply parseLoop_Forall; [|exact Hes|constructor].
  intros f rest e r He. split.
  - by eapply parseRecord_shape.
  - by eapply parseRecord_trimmed.
Qed.

Lemma afterFirst_skip c junk s :
  Forall (λ x, x ≠ c) junk → afterFirst c (junk ++ s) = afterFirst c s.
Proof.
  induction 1 as [|x junk Hx _ IH]; simpl; [done|].
  by destruct (N.eqb_spec x c).
Qed.

(** X5: text in front of the first [@] is ignored: a prefix without [@]
    does not change the entries. *)
Theorem parseBib_leading_text (junk tex : jsstring) :
  Forall (λ c, c ≠ Ch.at_sign) junk →
  parseBib (junk ++ tex) = parseBib tex.
Proof.
  intros Hjunk.
  destruct (parseLoop_enough (parseBibFuel tex) tex []) as [es Hes].
  { unfold parseBibFuel. lia. }
  rewrite (parseBib_from_fuel _ _ _ Hes).
  apply (parseBib_from_fuel _ (parseBibFuel tex)).
  unfold parseBibFuel in *.
  destruct (junk ++ tex) as [|y s] eqn:Ejt.
  { apply app_eq_nil in Ejt as [-> ->]. exact Hes. }
  rewrite parseLoop_unfold by done. rewrite <- Ejt.
  rewrite afterFirst_skip by done.
  destruct tex as [|x t].
  - simpl in *. exact Hes.
  - by rewrite parseLoop_unfold in Hes.
Qed.

Lemma parseBib_leading_text_witness :
  parseBib (js "% my papers " ++ Sample.record) = parseBib Sample.record.
Proof.
  apply (parseBib_leading_text (js "% my papers ") Sample.record).
  apply (bool_decide_unpack (Forall (λ c, c ≠ Ch.at_sign) (js "% my papers "))).
  by vm_compute.
Defined.

(** ** The pipeline as a whole *)

Lemma pipeline_fixed_point_witness :
  @cleanEntries plainHost
    (parseBib (writeCleanBib
                 (@cleanEntries plainHost (parseBib Sample.bibliography))))
  = @cleanEntries plainHost (parseBib Sample.bibliography).
Proof.
  apply (@pipeline_fixed_point plainHost Sample.bibliography).
  - apply strCompare_consistent.
  - by vm_compute.
Defined.

(** ** Sorting with a comparator that is consistent on the elements *)

Section SortOn.
Context {A : Type} (compare : A → A → Z) (P : A → Prop).
Context (Hflip : ∀ a b, P a → P b → (0 < compare a b)%Z → (compare b a ≤ 0)%Z).
Context (Htrans : ∀ a b c, P a → P b → P c →
                   (compare a b ≤ 0)%Z → (compare b c ≤ 0)%Z →
                   (compare a c ≤ 0)%Z).

Lemma insertSorted_sorted_on x l :
  P x → Forall P l →
  StronglySorted (λ a b, (compare a b ≤ 0)%Z) l →
  StronglySorted (λ a b, (compare a b ≤ 0)%Z) (insertSorted compare x l).
Proof.
  intros Hx Hl. induction 1 as [|y r Hr IH Hy]; simpl.
  - repeat constructor.
  - apply Forall_cons_1 in Hl as [HPy HPr].
    destruct (Z.leb_spec (compare x y) 0) as [Hle|Hgt].
    + constructor; [by constructor|]. constructor; [done|].
      rewrite Forall_forall in Hy, HPr. apply Forall_forall. intros z Hz.
      apply (Htrans x y z); auto.
    + constructor; [by apply IH|]. rewrite insertSorted_perm.
      constructor; [by apply Hflip|done].
Qed.

Lemma jsSort_sorted_on l :
  Forall P l → StronglySorted (λ a b, (compare a b ≤ 0)%Z) (jsSort compare l).
Proof.
  induction 1 as [|x r Hx Hr IH]; simpl; [constructor|].
  apply insertSorted_sorted_on; [done| |done].
  by rewrite jsSort_perm.
Qed.
End SortOn.

(** ** Headings *)

Section Headings.
Context `{Host}.

Lemma rendered_years entries :
  map fst (renderedGroups entries)
  = jsSort compareYears (map fst (groupEntries entries)).
Proof.
  unfold renderedGroups. rewrite map_map. simpl. apply map_id.
Qed.

Lemma getYear_truthy e : getYear e ≠ [].
Proof.
  unfold getYear.
  destruct (field (fields e) "year") as [|c r] eqn:Ey; simpl; [|done].
  destruct (field (fields e) "date") as [|c r] eqn:Ed; simpl; done.
Qed.

(** X22: the year headings are the years of the entries, each once, and
    none of them is empty: an entry without [year] and [date] comes under
    [Unknown]. *)
Theorem year_headings (entries : list Entry) :
  NoDup (map fst (renderedGroups entries))
  ∧ (∀ year, year ∈ map fst (renderedGroups entries)
             ↔ ∃ e, e ∈ entries ∧ getYear e = year)
  ∧ Forall (λ year, year ≠ []) (map fst (renderedGroups entries)).
Proof.
  destruct (years_groupEntries entries) as [Hnd Hyears].
  assert (∀ year, year ∈ map fst (renderedGroups entries)
                  ↔ ∃ e, e ∈ entries ∧ getYear e = year) as Hiff.
  { intros year. rewrite rendered_years, jsSort_perm, Hyears.
    change (map getYear entries) with (getYear <$> entries).
    rewrite list_elem_of_fmap. split; intros (e & ? & ?); by exists e. }
  split; [|split; [exact Hiff|]].
  - rewrite rendered_years. by rewrite jsSort_perm.
  - apply Forall_forall. intros year (e & _ & <-)%Hiff. apply getYear_truthy.
Qed.

(** X23: when the year of every entry is a number, the year headings come
    in descending numeric order. *)
Theorem year_headings_descending (entries : list Entry) :
  Forall (λ e, Number (getYear e) ≠ NaN) entries →
  StronglySorted
    (λ a b, Number a = Number b ∨ numLt (Number b) (Number a))
    (map fst (renderedGroups entries)).
Proof.
  intros Hnum. rewrite rendered_years.
  assert (Hle : ∀ a b, Number a ≠ NaN → Number b ≠ NaN →
            ((compareYears a b ≤ 0)%Z
             ↔ Number a = Number b ∨ numLt (Number b) (Number a))).
  { intros a b Ha Hb. unfold compareYears.
    destruct (num_cases (Number b) (Number a) Hb Ha)
      as [(Hlt & _ & -> & _)|[(Heq & _ & ->)|(Hgt & _ & -> & _)]].
    - split; [by right|lia].
    - split; [by left|lia].
    - split; [lia|]. intros [Heq|Hlt]; exfalso.
      + rewrite Heq in Hgt. by apply numLt_irrefl in Hgt.
      + by apply (numLt_irrefl (Number a)), (numLt_trans _ (Number b)). }
  assert (Forall (λ y, Number y ≠ NaN) (map fst (groupEntries entries)))
    as Hall.
  { apply Forall_forall. intros y Hy.
    apply (proj2 (years_groupEntries entries)) in Hy.
    change (map getYear entries) with (getYear <$> entries) in Hy.
    apply list_elem_of_fmap in Hy as (e & -> & He).
    rewrite Forall_forall in Hnum. by apply Hnum. }
  pose proof (jsSort_sorted_on compareYears (λ y, Number y ≠ NaN)) as Hsorted.
  assert (StronglySorted (λ a b, (compareYears a b ≤ 0)%Z)
            (jsSort compareYears (map fst (groupEntries entries)))) as Hs.
  { apply Hsorted; [| |exact Hall].
    - intros a b Ha Hb Hab.
      destruct (num_cases (Number b) (Number a) Hb Ha)
        as [(_ & _ & H1 & H2)|[(_ & _ & H1)|(_ & _ & H1 & H2)]];
        unfold compareYears in *; lia.
    - intros a b c Ha Hb Hc Hab Hbc.
      apply Hle in Hab, Hbc; try done. apply Hle; try done.
      destruct Hab as [Hab|Hab], Hbc as [Hbc|Hbc].
      + left. congruence.
      + right. by rewrite Hab.
      + right. by rewrite <- Hbc.
      + right. by apply (numLt_trans _ (Number b)). }
  assert (Forall (λ y, Number y ≠ NaN)
            (jsSort compareYears (map fst (groupEntries entries)))) as Hall'
    by (by rewrite jsSort_perm).
  clear Hsorted Hall.
  induction Hs as [|y r Hr IH Hy]; [constructor|].
  apply Forall_cons_1 in Hall' as [HPy HPr].
  constructor; [by apply IH|].
  rewrite Forall_forall in Hy, HPr. apply Forall_forall. intros z Hz.
  apply Hle; auto.
Qed.

(** X24: under every year heading the category headings follow the order
    of [CATEGORY_ORDER], none twice. *)
Theorem category_headings_order (entries : list Entry) :
  Forall (λ y : renderedYear, map fst y.2 `sublist_of` CATEGORY_ORDER)
         (renderedGroups entries).
Proof.
  apply Forall_forall. intros [year cats] Hin.
  unfold renderedGroups in Hin. cbv zeta in Hin.
  change (map ?f ?l) with (f <$> l) in Hin.
  apply list_elem_of_fmap in Hin as (y & [= -> ->] & _). simpl.
  unfold renderedCategories.
  generalize (default [] (mapGet (groupEntries entries) y)) as byCategory.
  intros byCategory.
  induction CATEGORY_ORDER as [|label labels IH]; simpl; [done|].
  destruct (mapGet byCategory (Cat label)) as [[|e bucket]|]; simpl.
  - by apply sublist_cons.
  - by apply sublist_skip.
  - by apply sublist_cons.
Qed.

(** X25: with a consistent [localeCompare], the entries under every
    category heading are in ascending order of title (a missing title
    counting as the empty string). *)
Theorem buckets_sorted_by_title (entries : list Entry) :
  consistent localeCompare →
  Forall (λ y : renderedYear,
            Forall (λ c : jsstring * list Entry,
                      StronglySorted
                        (λ a b, (localeCompare (titleOf a) (titleOf b) ≤ 0)%Z)
                        c.2)
                   y.2)
         (renderedGroups entries).
Proof.
  intros [Hsgn Htrans].
  assert (consistent compareTitles) as Hcons.
  { unfold compareTitles. split; [intros a b; apply Hsgn|].
    intros a b c. apply Htrans. }
  rewrite renderedGroups_spec. apply Forall_forall. intros [year cats] Hin.
  change (map ?f ?l) with (f <$> l) in Hin.
  apply list_elem_of_fmap in Hin as (y & [= -> ->] & _). simpl.
  apply Forall_forall. intros [label bucket] Hb.
  apply categoriesOf_elem in Hb as (_ & _ & ->). simpl.
  apply (jsSort_sorted compareTitles Hcons).
Qed.

End Headings.

Lemma year_headings_descending_witness :
  map fst (@renderedGroups plainHost (firstn 2 Sample.ordered))
  = [js "2001"; js "1999"]
  ∧ StronglySorted
      (λ a b, plainNumber a = plainNumber b ∨ numLt (plainNumber b) (plainNumber a))
      (map fst (@renderedGroups plainHost (firstn 2 Sample.ordered))).
Proof.
  split; [by vm_compute|].
  apply (@year_headings_descending plainHost (firstn 2 Sample.ordered)).
  repeat constructor; by vm_compute.
Defined.

Lemma buckets_sorted_by_title_witness :
  Forall (λ y : renderedYear,
            Forall (λ c : jsstring * list Entry,
                      StronglySorted
                        (λ a b, (strCompare (titleOf a) (titleOf b) ≤ 0)%Z)
                        c.2)
                   y.2)
         (@renderedGroups plainHost Sample.ordered).
Proof.
  apply (@buckets_sorted_by_title plainHost Sample.ordered).
  apply strCompare_consistent.
Defined.

Lemma grouping_complete_for_listed_types_witness :
  renderedEntries (@renderedGroups plainHost Sample.ordered) ≡ₚ Sample.ordered.
Proof.
  apply (@grouping_complete_for_listed_types plainHost Sample.ordered).
  apply (bool_decide_unpack
           (Forall (λ e, type e ∉ objectPrototypeNames) Sample.ordered)).
  by vm_compute.
Defined.

(** ** The shape of the link list *)

Lemma addLink_pushed st l h : pushed l (links st) (links (addLink st l h)).
Proof.
  unfold addLink. destruct h as [|c r]; [by left|]. simpl.
  destruct (bool_decide _); [by left|]. right. by exists (c :: r).
Qed.

Lemma addAssetLink_pushed entry st l names :
  pushed l (links st) (links (addAssetLink entry st l names)).
Proof.
  induction names as [|name others IH]; simpl; [by left|].
  destruct (truthy _); simpl; [|done].
  destruct (looksLikeLink _); simpl; [|done].
  apply addLink_pushed.
Qed.

Lemma addDefaultPdf_pushed `{Host} entry st l :
  links (addDefaultPdf entry st l) = links st
  ∨ (links st = [] ∧ pushed l [] (links (addDefaultPdf entry st l))).
Proof.
  unfold addDefaultPdf.
  destruct (links st) as [|x r] eqn:E; simpl; [|by left].
  destruct (pdfExists (key entry)); [|by left]. right. split; [done|].
  rewrite <- E. apply addLink_pushed.
Qed.

Ltac pushed_cases :=
  repeat match goal with
         | H : pushed _ _ _ |- _ => destruct H as [H|(? & ? & H)]
         | H : _ ∨ (_ ∧ pushed _ _ _) |- _ => destruct H as [H|[? H]]
         end.

Lemma buildLinks_labels `{Host} entry :
  ∃ labels, labels ∈ LABEL_SEQUENCES
            ∧ map label (buildLinks entry) `sublist_of` labels
            ∧ Forall (λ l, href l ≠ []) (buildLinks entry).
Proof.
  unfold buildLinks. cbv zeta.
  set (st0 := mkLinkState [] ∅).
  assert (links st0 = []) as H0 by done.
  destruct (decide (type entry = js "article"));
    [|destruct (bool_decide (type entry = js "phdthesis")
                || bool_decide (type entry = js "mastersthesis"));
      [|destruct (decide (type entry = js "inproceedings"));
        [|destruct (decide (type entry = js "unpublished"))]]].
  - exists [js "Final Draft"; js "Presentation"].
    split; [by repeat first [apply list_elem_of_here|apply list_elem_of_further]|].
    pose proof (addAssetLink_pushed entry st0 (js "Final Draft")
                  FINAL_DRAFT_FIELDS) as H1.
    pose proof (addDefaultPdf_pushed entry
                  (addAssetLink entry st0 (js "Final Draft") FINAL_DRAFT_FIELDS)
                  (js "Final Draft")) as H2.
    rewrite H0 in H1. pushed_cases; rewrite ?H1 in *; rewrite ?H2;
      (split; [|by repeat constructor]);
      repeat first [apply sublist_nil_l|apply sublist_skip|apply sublist_cons].
  - exists [js "Final Draft"; js "Presentation"].
    split; [by repeat first [apply list_elem_of_here|apply list_elem_of_further]|].
    set (st1 := addAssetLink entry st0 (js "Final Draft") FINAL_DRAFT_FIELDS).
    pose proof (addAssetLink_pushed entry st0 (js "Final Draft")
                  FINAL_DRAFT_FIELDS) as H1.
    fold st1 in H1.
    match goal with
    | |- context [addDefaultPdf entry ?st _] =>
        set (st2 := st);
        pose proof (addAssetLink_pushed entry st1 (js "Presentation")
                      [js "presentation_url"; js "presentation_link";
                       js "presentation_pdf"; js "slides_url";
                       js "slides_link"; js "slides_pdf"]) as H2;
        fold st2 in H2;
        pose proof (addDefaultPdf_pushed entry st2 (js "Final Draft")) as H3
    end.
    rewrite H0 in H1. pushed_cases; rewrite ?H1 in *; rewrite ?H2 in *;
      rewrite ?H3; try discriminate;
      (split; [|by repeat constructor]); simpl;
      repeat first [apply sublist_nil_l|apply sublist_skip|apply sublist_cons].
  - exists [js "Abstract"; js "Presentation"; js "Poster"].
    split; [by repeat first [apply list_elem_of_here|apply list_elem_of_further]|].
    set (st1 := addAssetLink entry st0 (js "Abstract")
                  [js "abstract_url"; js "abstract_link"; js "abstract_pdf";
                   js "abstract"]).
    pose proof (addAssetLink_pushed entry st0 (js "Abstract")
                  [js "abstract_url"; js "abstract_link"; js "abstract_pdf";
                   js "abstract"]) as H1.
    fold st1 in H1.
    set (st2 := addAssetLink entry st1 (js "Presentation")
                  [js "presentation_url"; js "presentation_link";
                   js "presentation_pdf"; js "talk_url"; js "talk_pdf"]).
    pose proof (addAssetLink_pushed entry st1 (js "Presentation")
                  [js "presentation_url"; js "presentation_link";
                   js "presentation_pdf"; js "talk_url"; js "talk_pdf"]) as H2.
    fold st2 in H2.
    set (st3 := addAssetLink entry st2 (js "Poster")
                  [js "poster_url"; js "poster_link"; js "poster_pdf";
                   js "poster"]).
    pose proof (addAssetLink_pushed entry st2 (js "Poster")
                  [js "poster_url"; js "poster_link"; js "poster_pdf";
                   js "poster"]) as H3.
    fold st3 in H3.
    pose proof (addDefaultPdf_pushed entry st3 (js "Abstract")) as H4.
    rewrite H0 in H1. pushed_cases; rewrite ?H1 in *; rewrite ?H2 in *;
      rewrite ?H3 in *; rewrite ?H4; try discriminate;
      (split; [|by repeat constructor]); simpl;
      repeat first [apply sublist_nil_l|apply sublist_skip|apply sublist_cons].
  - exists [js "Slides"].
    split; [by repeat first [apply list_elem_of_here|apply list_elem_of_further]|].
    pose proof (addAssetLink_pushed entry st0 (js "Slides")
                  [js "slides_url"; js "slides_link"; js "slides_pdf";
                   js "slides"]) as H1.
    pose proof (addDefaultPdf_pushed entry
                  (addAssetLink entry st0 (js "Slides")
                     [js "slides_url"; js "slides_link"; js "slides_pdf";
                      js "slides"])
                  (js "Slides")) as H2.
    rewrite H0 in H1. pushed_cases; rewrite ?H1 in *; rewrite ?H2;
      (split; [|by repeat constructor]);
      repeat first [apply sublist_nil_l|apply sublist_skip|apply sublist_cons].
  - set (url := field (fields entry) "url").
    set (doi := field (fields entry) "doi").
    set (doiHref := if truthy doi then js "https://doi.org/" ++ doi else []).
    set (isDoiUrl := if truthy url then containsCI (js "doi.org/") url
                     else false).
    set (pdf := js "pdfs/" ++ key entry ++ js ".pdf").
    exists (if isDoiUrl then [js "DOI"; js "PDF"]
            else [js "Link"; js "DOI"; js "PDF"]).
    split.
    { destruct isDoiUrl;
        by repeat first [apply list_elem_of_here|apply list_elem_of_further]. }
    set (st1 := if truthy url
                then addLink st0 (if isDoiUrl then js "DOI" else js "Link") url
                else st0).
    assert (pushed (if isDoiUrl then js "DOI" else js "Link")
              [] (links st1)) as H1.
    { unfold st1. destruct (truthy url); [|by left].
      rewrite <- H0. apply addLink_pushed. }
    set (st2 := if truthy url && truthy doiHref && negb isDoiUrl
                then addLink st1 (js "DOI") doiHref else st1).
    assert (links st2 = links st1
            ∨ (isDoiUrl = false ∧ pushed (js "DOI") (links st1) (links st2)))
      as H2.
    { unfold st2. destruct (truthy url && truthy doiHref); simpl; [|by left].
      destruct isDoiUrl; simpl; [by left|]. right. split; [done|].
      apply addLink_pushed. }
    set (st3 := if pdfExists (key entry) then addLink st2 (js "PDF") pdf
                else st2).
    assert (pushed (js "PDF") (links st2) (links st3)) as H3.
    { unfold st3. destruct (pdfExists (key entry)); [|by left].
      apply addLink_pushed. }
    destruct isDoiUrl; pushed_cases; rewrite ?H3; rewrite ?H2; rewrite ?H1;
      try discriminate;
      (split; [|by repeat constructor]); simpl;
      repeat first [apply sublist_nil_l|apply sublist_skip|apply sublist_cons].
Qed.

(** X18: the links of an entry are at most three, no two of them carry the
    same label, and none has an empty href. *)
Theorem buildLinks_shape `{Host} (entry : Entry) :
  NoDup (map label (buildLinks entry))
  ∧ (length (buildLinks entry) ≤ 3)%nat
  ∧ Forall (λ l, href l ≠ []) (buildLinks entry).
Proof.
  destruct (buildLinks_labels entry) as (labels & Hin & Hsub & Hhrefs).
  assert (NoDup labels ∧ (length labels ≤ 3)%nat) as [Hnd Hlen].
  { assert (Forall (λ ls, NoDup ls ∧ (length ls ≤ 3)%nat) LABEL_SEQUENCES)
      as Hall.
    { apply (bool_decide_unpack
               (Forall (λ ls, NoDup ls ∧ (length ls ≤ 3)%nat) LABEL_SEQUENCES)).
      by vm_compute. }
    rewrite Forall_forall in Hall. by apply Hall. }
  split; [by eapply sublist_NoDup|]. split; [|done].
  apply sublist_length in Hsub. rewrite length_map in Hsub. lia.
Qed.

Lemma addLink_fresh l h :
  h ≠ [] → links (addLink (mkLinkState [] ∅) l h) = [mkLink l h].
Proof.
  intros Hh. unfold addLink. destruct h as [|c r]; [done|]. simpl.
  by rewrite bool_decide_eq_false_2 by apply not_elem_of_empty.
Qed.

Lemma asset_fields_skipped entry names :
  map_Forall (λ _ v, looksLikeLink v = false) (fields entry) →
  Forall (λ name, ∀ raw, fields entry !! name = Some raw → raw ≠ [] →
                         looksLikeLink raw = false) names.
Proof.
  intros Hall. apply Forall_forall. intros name _ raw Hraw _.
  by apply (Hall name).
Qed.

(** X19: an entry of one of the five asset types none of whose field
    values looks like a link gets the PDF found on disk under its key as
    its only link, under the label of its type, and no link at all when
    there is no such file. *)
Theorem buildLinks_without_assets `{Host} (entry : Entry)
    (ty lbl : jsstring) :
  (ty, lbl) ∈ ASSET_TYPES → type entry = ty →
  map_Forall (λ _ v, looksLikeLink v = false) (fields entry) →
  buildLinks entry
  = if pdfExists (key entry)
    then [mkLink lbl (js "pdfs/" ++ key entry ++ js ".pdf")]
    else [].
Proof.
  intros Hty Htype Hnone. unfold buildLinks. cbv zeta.
  rewrite !(addAssetLink_skip entry) by (by apply asset_fields_skipped).
  unfold addDefaultPdf. cbn [links length Nat.eqb andb].
  unfold ASSET_TYPES in Hty.
  repeat (apply elem_of_cons in Hty as [Hty|Hty];
          [injection Hty as -> ->; rewrite Htype|]).
  6: by apply elem_of_nil in Hty.
  all: repeat match goal with
              | |- context [decide ?P] =>
                  destruct (decide P) as [Heq|Hne];
                  [try (by vm_compute in Heq)|try (by exfalso; apply Hne)]
              end.
  all: try change (bool_decide (js "phdthesis" = js "phdthesis")) with true.
  all: try change (bool_decide (js "mastersthesis" = js "phdthesis")) with false.
  all: try change (bool_decide (js "mastersthesis" = js "mastersthesis"))
         with true.
  all: try change (bool_decide (js "inproceedings" = js "phdthesis")) with false.
  all: try change (bool_decide (js "inproceedings" = js "mastersthesis"))
         with false.
  all: try change (bool_decide (js "unpublished" = js "phdthesis")) with false.
  all: try change (bool_decide (js "unpublished" = js "mastersthesis"))
         with false.
  all: cbn [orb]; cbv iota.
  all: destruct (pdfExists (key entry)); [|done].
  all: by apply addLink_fresh.
Qed.

Lemma buildLinks_without_assets_witness :
  @buildLinks plainHost Sample.bareDraft = [].
Proof.
  apply (@buildLinks_without_assets plainHost Sample.bareDraft
           (js "article") (js "Final Draft")).
  - apply list_elem_of_here.
  - reflexivity.
  - apply map_Forall_singleton. by vm_compute.
Defined.

(** X20: for an entry of any other type without [url], the only possible
    link is the PDF found on disk: a DOI alone gives no link.  (The earlier
    revision links the DOI in that case.) *)
Theorem buildLinks_fallback_without_url `{Host} (entry : Entry) :
  type entry ∉ map fst ASSET_TYPES →
  field (fields entry) "url" = [] →
  buildLinks entry
  = (if pdfExists (key entry)
     then [mkLink (js "PDF") (js "pdfs/" ++ key entry ++ js ".pdf")]
     else [])
  ∧ Legacy.buildLinks entry
    = (if truthy (field (fields entry) "doi")
       then [mkLink (js "DOI")
               (js "https://doi.org/" ++ field (fields entry) "doi")]
       else [])
      ++ (if pdfExists (key entry)
          then [mkLink (js "PDF") (js "pdfs/" ++ key entry ++ js ".pdf")]
          else []).
Proof.
  intros Hty Hurl. split.
  - unfold buildLinks. cbv zeta.
    assert (∀ ty, ty ∈ map fst ASSET_TYPES → type entry ≠ ty) as Hne
      by (intros ty Hin Heq; apply Hty; by rewrite Heq).
    rewrite decide_False
      by (apply Hne; apply (bool_decide_unpack (_ ∈ map fst ASSET_TYPES));
          by vm_compute).
    rewrite !bool_decide_eq_false_2
      by (apply Hne; apply (bool_decide_unpack (_ ∈ map fst ASSET_TYPES));
          by vm_compute).
    cbn [orb]. cbv iota.
    rewrite !decide_False
      by (apply Hne; apply (bool_decide_unpack (_ ∈ map fst ASSET_TYPES));
          by vm_compute).
    rewrite Hurl. cbn [truthy andb]. cbv iota.
    destruct (pdfExists (key entry)); [|done]. by apply addLink_fresh.
  - unfold Legacy.buildLinks. cbv zeta. rewrite Hurl. cbn [truthy andb].
    cbv iota.
    destruct (field (fields entry) "doi") as [|c r] eqn:Edoi.
    + cbn [truthy]. cbv iota.
      destruct (pdfExists (key entry)); [|done]. by apply addLink_fresh.
    + cbn [truthy]. cbv iota.
      change (truthy (js "https://doi.org/" ++ c :: r)) with true. cbv iota.
      assert (addLink (mkLinkState [] ∅) (js "DOI")
                (js "https://doi.org/" ++ c :: r)
              = mkLinkState
                  [mkLink (js "DOI") (js "https://doi.org/" ++ c :: r)]
                  ({[js "https://doi.org/" ++ c :: r]} ∪ ∅)) as ->.
      { unfold addLink. cbn [truthy negb orb seen links app].
        by rewrite bool_decide_eq_false_2 by apply not_elem_of_empty. }
      destruct (pdfExists (key entry)); [|done].
      unfold addLink. cbn [seen links].
      change (truthy (js "pdfs/" ++ key entry ++ js ".pdf")) with true.
      cbn [negb orb].
      rewrite bool_decide_eq_false_2; [done|].
      intros [Heq%elem_of_singleton|Hin%elem_of_empty]%elem_of_union;
        [|done].
      by vm_compute in Heq.
Qed.

Lemma buildLinks_fallback_without_url_witness :
  @buildLinks plainHost
    (mkEntry (js "misc") (js "k") {[ js "doi" := js "10.1/x" ]}) = []
  ∧ @Legacy.buildLinks plainHost
      (mkEntry (js "misc") (js "k") {[ js "doi" := js "10.1/x" ]})
    = [mkLink (js "DOI") (js "https://doi.org/10.1/x")].
Proof.
  refine (@buildLinks_fallback_without_url plainHost
            (mkEntry (js "misc") (js "k") {[ js "doi" := js "10.1/x" ]}) _ _).
  - apply (bool_decide_unpack (_ ∉ map fst ASSET_TYPES)). by vm_compute.
  - by vm_compute.
Defined.

(** ** normalizeAuthorList *)

Lemma startsWith_more p s t :
  startsWith p s = true → startsWith p (s ++ t) = true.
Proof.
  revert s. induction p as [|c p IH]; intros [|x s]; simpl; try done.
  intros [-> Hs]%andb_prop. simpl. by apply IH.
Qed.

Lemma onlyStrongTags_app a b :
  onlyStrongTags a = true → onlyStrongTags b = true →
  onlyStrongTags (a ++ b) = true.
Proof.
  intros Ha Hb. induction a as [|c r IH]; [done|].
  change ((c :: r) ++ b) with (c :: (r ++ b)).
  cbn [onlyStrongTags] in *. apply andb_prop in Ha as [Hc Hr].
  rewrite (IH Hr), andb_true_r.
  destruct (c =? Ch.lt); [|done].
  apply orb_prop in Hc as [Hc|Hc];
    rewrite (startsWith_more _ _ b Hc); [done|apply orb_true_r].
Qed.

Lemma markupFree_onlyStrongTags s :
  markupFree s = true → onlyStrongTags s = true.
Proof.
  unfold markupFree. induction s as [|c r IH]; [done|].
  cbn [forallb onlyStrongTags]. intros [Hc Hr]%andb_prop.
  rewrite (IH Hr), andb_true_r.
  apply negb_true_iff, orb_false_elim in Hc as [Hc Hq].
  apply orb_false_elim in Hc as [-> _]. by rewrite Hq.
Qed.

Lemma onlyStrongTags_join l :
  Forall (λ s, onlyStrongTags s = true) l →
  onlyStrongTags (join (js ", ") l) = true.
Proof.
  intros Hl. destruct Hl as [|x l Hx Hl]; [done|]. rewrite join_cons.
  apply onlyStrongTags_app; [done|].
  induction Hl as [|y l Hy _ IH]; [done|]. cbn [concat map].
  rewrite <- app_assoc.
  apply (onlyStrongTags_app (js ", ")); [done|].
  by apply onlyStrongTags_app.
Qed.

(** X14: the author line, which the page takes as it is, holds no markup
    but the [<strong>] and [</strong>] of the highlighted name: every [<]
    in it opens one of the two tags and it holds no double quote. *)
Theorem normalizeAuthorList_markup `{Host} (authorField : jsstring) :
  onlyStrongTags (normalizeAuthorList authorField) = true.
Proof.
  unfold normalizeAuthorList. destruct (negb (truthy authorField)); [done|].
  apply onlyStrongTags_join, Forall_forall. intros s Hs.
  change (map formatPerson ?l) with (formatPerson <$> l) in Hs.
  apply list_elem_of_fmap in Hs as (person & -> & _).
  unfold formatPerson.
  destruct (if bool_decide (Ch.comma ∈ person) then _ else _) as [first last].
  cbv zeta.
  pose proof (markupFree_onlyStrongTags _
                (escapeHtml_markupFree
                   (orElse (trim (first ++ js " " ++ last)) person)))
    as Hsafe.
  destruct (_ && _); [|exact Hsafe].
  apply (onlyStrongTags_app (js "<strong>")); [done|].
  by apply onlyStrongTags_app.
Qed.

(** *** Names written "Last, First" *)

Lemma splitChar_none c piece s :
  c ∉ s → splitChar c piece s = [piece ++ s].
Proof.
  revert piece. induction s as [|x r IH]; intros piece Hc; simpl.
  - by rewrite app_nil_r.
  - apply not_elem_of_cons in Hc as [Hx Hr].
    destruct (N.eqb_spec x c) as [->|_]; [done|].
    rewrite IH by done. by rewrite <- app_assoc.
Qed.

Lemma splitChar_first c piece l s :
  c ∉ l → splitChar c piece (l ++ c :: s) = (piece ++ l) :: splitChar c [] s.
Proof.
  revert piece. induction l as [|x r IH]; intros piece Hc; simpl.
  - by rewrite N.eqb_refl, app_nil_r.
  - apply not_elem_of_cons in Hc as [Hx Hr].
    destruct (N.eqb_spec x c) as [->|_]; [done|].
    rewrite IH by done. by rewrite <- app_assoc.
Qed.

Lemma trim_join_two a b :
  trim a ≠ [] → trim b ≠ [] →
  trim (trim a ++ js " " ++ trim b) = trim a ++ js " " ++ trim b.
Proof.
  intros Ha Hb. destruct (trim_ends a) as [Hhead _].
  destruct (trim_ends b) as [_ Hlast].
  apply trim_fixed.
  - destruct (trim a); done.
  - rewrite !rev_app_distr. destruct (rev (trim b)) as [|c r] eqn:E; [|done].
    apply (f_equal (@rev _)) in E. rewrite rev_involutive in E. done.
Qed.

(** X15: a name written [Last, First] is shown as [First Last], each part
    trimmed, and escaped; here for a last name other than the highlighted
    one. *)
Theorem formatPerson_last_first `{Host} (lastName firstName : jsstring) :
  Ch.comma ∉ lastName → Ch.comma ∉ firstName →
  trim lastName ≠ [] → trim firstName ≠ [] →
  equalsCI (js "stowe") (keepWordChars (trim lastName)) = false →
  formatPerson (lastName ++ Ch.comma :: firstName)
  = escapeHtml (trim firstName ++ js " " ++ trim lastName).
Proof.
  intros Hl Hf Hln Hfn Hother. unfold formatPerson.
  rewrite bool_decide_eq_true_2
    by (apply elem_of_app; right; apply list_elem_of_here).
  rewrite splitChar_first, splitChar_none by done.
  cbn [map nth app]. cbv zeta.
  rewrite Hother. cbn [andb]. cbv iota.
  rewrite trim_join_two by done.
  unfold orElse. by destruct (trim firstName).
Qed.

Lemma formatPerson_last_first_witness :
  @formatPerson plainHost (js "Doe,  Jane A.") = js "Jane A. Doe".
Proof.
  apply (@formatPerson_last_first plainHost (js "Doe") (js "  Jane A."));
    try (by vm_compute).
  - apply (bool_decide_unpack (_ ∉ _)). by vm_compute.
  - apply (bool_decide_unpack (_ ∉ _)). by vm_compute.
Defined.

(** *** Names separated by [and] *)

Lemma skipWhile_app_stop p a b :
  skipWhile p a ≠ [] → skipWhile p (a ++ b) = skipWhile p a ++ b.
Proof.
  induction a as [|c r IH]; simpl; [done|].
  destruct (p c); [exact IH|done].
Qed.

Lemma skipWhile_last p s :
  s ≠ [] → match rev s with c :: _ => p c = false | [] => True end →
  skipWhile p s ≠ [].
Proof.
  induction s as [|c r IH]; [done|]. intros _ Hlast. simpl.
  destruct (p c) eqn:Hc; [|done]. apply IH.
  - intros ->. simpl in Hlast. congruence.
  - simpl in Hlast. destruct (rev r) as [|x t] eqn:E; [|done].
    simpl in Hlast. congruence.
Qed.

Lemma last_tail (c : N) r :
  r ≠ [] →
  match rev (c :: r) with x :: _ => isSpace x = false | [] => True end →
  match rev r with x :: _ => isSpace x = false | [] => True end.
Proof.
  intros Hr. simpl. destruct (rev r) as [|x t] eqn:E; [|done].
  apply (f_equal (@rev _)) in E. rewrite rev_involutive in E. done.
Qed.

Lemma matchAndSeparator_inside s tail :
  s ≠ [] →
  match rev s with c :: _ => isSpace c = false | [] => True end →
  matchAndSeparator (s ++ [Ch.space]) = None →
  match tail with c :: _ => c = Ch.space | [] => True end →
  matchAndSeparator (s ++ tail) = None.
Proof.
  intros Hs Hlast Hnone Htail.
  pose proof (skipWhile_last isSpace s Hs Hlast) as Hrun.
  destruct s as [|c s']; [done|].
  unfold matchAndSeparator in *. cbn [app] in *.
  destruct (isSpace c); [|done].
  change (c :: (s' ++ tail)) with ((c :: s') ++ tail).
  change (c :: (s' ++ [Ch.space])) with ((c :: s') ++ [Ch.space]) in Hnone.
  rewrite skipWhile_app_stop in Hnone by done.
  rewrite skipWhile_app_stop by done.
  destruct (skipWhile isSpace (c :: s')) as [|a [|n [|d [|x rest]]]];
    [done| | | |].
  - destruct tail as [|? [|? [|? t]]]; try done.
    rewrite Htail. cbn [app].
    change (ciEqb 110 Ch.space) with false. by rewrite andb_false_r.
  - destruct tail as [|? [|? t]]; try done.
    rewrite Htail. cbn [app].
    change (ciEqb 100 Ch.space) with false. by rewrite andb_false_r.
  - destruct tail as [|? t]; [done|]. rewrite Htail. revert Hnone.
    cbn [app]. change (isSpace Ch.space) with true.
    by destruct (ciEqb 97 a && ciEqb 110 n && ciEqb 100 d && true).
  - revert Hnone. cbn [app].
    by destruct (ciEqb 97 a && ciEqb 110 n && ciEqb 100 d && isSpace x).
Qed.

Lemma splitAnd_nil fuel piece : splitAnd fuel piece [] = [piece].
Proof. destruct fuel; simpl; by rewrite app_nil_r. Qed.

Lemma splitAnd_person p :
  ∀ fuel piece tail,
    match rev p with c :: _ => isSpace c = false | [] => True end →
    noAndInside p = true →
    match tail with c :: _ => c = Ch.space | [] => True end →
    (length p ≤ fuel)%nat →
    splitAnd fuel piece (p ++ tail)
    = splitAnd (fuel - length p) (piece ++ p) tail.
Proof.
  induction p as [|c r IH]; intros fuel piece tail Hlast Hno Htail Hfuel.
  - simpl. by rewrite Nat.sub_0_r, app_nil_r.
  - destruct fuel as [|fuel]; [simpl in Hfuel; lia|].
    change ((c :: r) ++ tail) with (c :: (r ++ tail)).
    rewrite splitAnd_cons.
    change (c :: (r ++ tail)) with ((c :: r) ++ tail).
    cbn [noAndInside] in Hno.
    destruct (matchAndSeparator ((c :: r) ++ [Ch.space])) eqn:E; [done|].
    rewrite (matchAndSeparator_inside (c :: r) tail) by done.
    destruct r as [|x r'].
    + simpl. by rewrite Nat.sub_0_r.
    + rewrite IH; [|by apply (last_tail c)|done|done|simpl in *; lia].
      cbn [length Nat.sub]. by rewrite <- app_assoc.
Qed.

Lemma splitAnd_separator fuel piece rest :
  match rest with c :: _ => isSpace c = false | [] => False end →
  splitAnd (S fuel) piece (js " and " ++ rest) = piece :: splitAnd fuel [] rest.
Proof.
  intros Hrest. destruct rest as [|c r]; [done|].
  literals. cbn [app]. rewrite splitAnd_cons.
  unfold matchAndSeparator.
  change (isSpace 32) with true. cbv iota.
  cbn [skipWhile]. change (isSpace 32) with true.
  change (isSpace 97) with false. cbv iota.
  change (ciEqb 97 97 && ciEqb 110 110 && ciEqb 100 100 && isSpace 32)
    with true.
  cbv iota. cbn [skipWhile]. change (isSpace 32) with true. cbv iota.
  by rewrite Hrest.
Qed.

Lemma personName_facts p :
  personName p = true →
  trim p = p ∧ p ≠ [] ∧ noAndInside p = true
  ∧ match p with c :: _ => isSpace c = false | [] => False end
  ∧ match rev p with c :: _ => isSpace c = false | [] => True end.
Proof.
  unfold personName.
  intros [[Ht%bool_decide_eq_true Hne]%andb_prop Hno]%andb_prop.
  destruct (trim_ends p) as [Hhead Hlast]. rewrite Ht in Hhead, Hlast.
  destruct p as [|c r]; done.
Qed.

Lemma splitAnd_people people :
  ∀ fuel,
    people ≠ [] → Forall (λ p, personName p = true) people →
    (length (join (js " and ") people) ≤ fuel)%nat →
    splitAnd fuel [] (join (js " and ") people) = people.
Proof.
  induction people as [|p people IH]; intros fuel Hne Hall Hfuel; [done|].
  apply Forall_cons_1 in Hall as [Hp Hall].
  apply personName_facts in Hp as (_ & _ & Hno & _ & Hlast).
  destruct people as [|q people].
  - simpl in *. rewrite <- (app_nil_r p) at 1.
    rewrite splitAnd_person by done. by rewrite splitAnd_nil.
  - change (join (js " and ") (p :: q :: people))
      with (p ++ js " and " ++ join (js " and ") (q :: people)) in *.
    rewrite !length_app in Hfuel.
    change (length (js " and ")) with 5%nat in Hfuel.
    rewrite splitAnd_person; [|done|done|done|lia].
    destruct (fuel - length p)%nat as [|fuel'] eqn:Efuel; [lia|].
    rewrite splitAnd_separator.
    + cbn [app]. rewrite IH; [done|done|done|lia].
    + apply Forall_cons_1 in Hall as [Hq _].
      apply personName_facts in Hq as (_ & _ & _ & Hhead & _).
      destruct (join_cons_starts (js " and ") q people) as [s ->].
      by destruct q.
Qed.

(** X16: an author field that lists names separated by [and] (names that
    are trimmed, not empty, and hold no place at which the separator could
    match) is rendered as the formatted names, in their order, joined by a
    comma and a space. *)
Theorem normalizeAuthorList_people `{Host} (people : list jsstring) :
  people ≠ [] →
  Forall (λ p, personName p = true) people →
  normalizeAuthorList (join (js " and ") people)
  = join (js ", ") (map formatPerson people).
Proof.
  intros Hne Hall. unfold normalizeAuthorList.
  assert (truthy (join (js " and ") people) = true) as ->.
  { destruct people as [|p l]; [done|].
    apply Forall_cons_1 in Hall as [Hp _].
    apply personName_facts in Hp as (_ & Hp & _).
    destruct (join_cons_starts (js " and ") p l) as [s ->]. by destruct p. }
  cbn [negb]. cbv iota.
  rewrite splitAnd_people by done.
  assert (List.filter truthy (map trim people) = people) as ->; [|done].
  clear Hne. induction Hall as [|p l Hp _ IH]; [done|].
  apply personName_facts in Hp as (Ht & Hp & _).
  cbn [map List.filter]. rewrite Ht, IH. by destruct p.
Qed.

Lemma normalizeAuthorList_people_witness :
  @normalizeAuthorList plainHost
    (join (js " and ") [js "Doe, Jane"; js "Brand, Al"; js "Stowe, S."])
  = js "Jane Doe, Al Brand, <strong>S. Stowe</strong>".
Proof.
  rewrite (@normalizeAuthorList_people plainHost
             [js "Doe, Jane"; js "Brand, Al"; js "Stowe, S."]).
  - by vm_compute.
  - done.
  - apply (bool_decide_unpack (Forall _ _)). by vm_compute.
Defined.

(** ** writeCleanBib *)

Lemma strCompare_eq a b : strCompare a b = 0%Z → a = b.
Proof.
  unfold strCompare.
  destruct (list_compare N.compare a b) eqn:E; try done. intros _.
  revert b E. induction a as [|x a IH]; intros [|y b]; simpl; try done.
  destruct (N.compare_spec x y) as [->| |]; try done.
  intros E. f_equal. by apply IH.
Qed.

(** X10: the field lines of a record are written in strictly ascending
    code-unit order of the field names, one line for each field of the
    entry. *)
Theorem sortedKeys_ascending (o : gmap jsstring jsstring) :
  StronglySorted (λ a b, (strCompare a b < 0)%Z) (sortedKeys o)
  ∧ (∀ name, name ∈ sortedKeys o ↔ is_Some (o !! name))
  ∧ length (sortedKeys o) = size o.
Proof.
  split; [|split; [apply sortedKeys_elem|apply sortedKeys_length]].
  assert (NoDup (sortedKeys o)) as Hnd.
  { unfold sortedKeys. rewrite jsSort_perm. apply NoDup_fst_map_to_list. }
  pose proof (jsSort_sorted strCompare strCompare_consistent
                (map fst (map_to_list o))) as Hs.
  fold (sortedKeys o) in Hs.
  induction Hs as [|x r Hr IH Hx]; [constructor|].
  apply NoDup_cons in Hnd as [Hnot Hnd].
  constructor; [by apply IH|].
  rewrite Forall_forall in Hx. apply Forall_forall. intros y Hy.
  specialize (Hx y Hy).
  destruct (Z.eq_dec (strCompare x y) 0%Z) as [Heq%strCompare_eq|]; [|lia].
  by subst y.
Qed.

Lemma reparsed_inj a b : reparsed a = reparsed b → a = b.
Proof.
  destruct a as [ta ka fa], b as [tb kb fb]. unfold reparsed. simpl.
  intros [= -> -> Hf]. f_equal. apply map_eq. intros name.
  apply (f_equal (λ m, m !! name)) in Hf. rewrite !lookup_fmap in Hf.
  destruct (fa !! name), (fb !! name); simpl in Hf; try done.
  unfold braced in Hf. injection Hf as Hf. by apply app_inv_tail in Hf as ->.
Qed.

(** X11: the text that [writeCleanBib] prints determines the entries: two
    lists of normalized entries with the same text are the same list. *)
Theorem writeCleanBib_injective (a b : list Entry) :
  Forall (λ e, normalizedEntry e = true) a →
  Forall (λ e, normalizedEntry e = true) b →
  writeCleanBib a = writeCleanBib b → a = b.
Proof.
  intros Ha Hb Heq.
  assert (map reparsed a = map reparsed b) as Hmap
    by (by rewrite <- !parseBib_writeCleanBib, Heq).
  clear Ha Hb Heq. revert b Hmap.
  induction a as [|x a IH]; intros [|y b]; simpl; try done.
  intros Heq.
  assert (reparsed x = reparsed y) as Hxy by congruence.
  assert (map reparsed a = map reparsed b) as Hab by congruence.
  f_equal; [by apply reparsed_inj|by apply IH].
Qed.

Lemma writeCleanBib_injective_witness :
  @cleanEntries plainHost (parseBib Sample.bibliography) = Sample.ordered.
Proof.
  apply (writeCleanBib_injective
           (@cleanEntries plainHost (parseBib Sample.bibliography))
           Sample.ordered).
  - apply (bool_decide_unpack (Forall _ _)). by vm_compute.
  - apply (bool_decide_unpack (Forall _ _)). by vm_compute.
  - by vm_compute.
Defined.

(** ** updateIndex *)

Lemma startsWith_split pat s :
  startsWith pat s = true → s = pat ++ drop (length pat) s.
Proof.
  revert s. induction pat as [|p pat IH]; intros [|c s]; simpl; try done.
  intros [->%N.eqb_eq Hs]%andb_prop. f_equal. by apply IH.
Qed.

Lemma startsWith_shorter pat a b :
  startsWith pat (a ++ b) = true → (length pat ≤ length a)%nat →
  startsWith pat a = true.
Proof.
  revert a. induction pat as [|p pat IH]; intros [|c a]; simpl; try done.
  - lia.
  - intros [-> Hs]%andb_prop Hlen. simpl. apply IH; [done|lia].
Qed.

Lemma splitFirst_spec pat s before after :
  splitFirst pat s = Some (before, after) → s = before ++ pat ++ after.
Proof.
  revert before. induction s as [|c r IH]; intros before; simpl.
  - destruct (startsWith pat []) eqn:E; [|done]. intros [= <- <-].
    by apply startsWith_split in E.
  - destruct (startsWith pat (c :: r)) eqn:E.
    + intros [= <- <-]. by apply startsWith_split in E.
    + destruct (splitFirst pat r) as [[b a]|]; [|done].
      intros [= <- <-]. simpl. f_equal. by apply IH.
Qed.

Lemma includes_splitFirst pat s :
  includes pat s = false ↔ splitFirst pat s = None.
Proof.
  induction s as [|c r IH]; simpl.
  - by destruct (startsWith pat []).
  - destruct (startsWith pat (c :: r)); simpl; [done|].
    rewrite IH. by destruct (splitFirst pat r) as [[b a]|].
Qed.

Lemma includes_here pat s : startsWith pat s = true → includes pat s = true.
Proof. destruct s; simpl; by intros ->. Qed.

Lemma includes_occurs pat a b : includes pat (a ++ pat ++ b) = true.
Proof.
  induction a as [|c a IH].
  - change ([] ++ pat ++ b) with (pat ++ b).
    apply includes_here, startsWith_app.
  - change ((c :: a) ++ pat ++ b) with (c :: (a ++ pat ++ b)).
    cbn [includes]. rewrite IH. apply orb_true_r.
Qed.

Lemma splitFirst_first pat pre rest :
  pat ≠ [] →
  includes pat (pre ++ removelast pat) = false →
  splitFirst pat (pre ++ pat ++ rest) = Some (pre, rest).
Proof.
  intros Hpat. induction pre as [|c pre IH]; intros Hnot.
  - change ([] ++ pat ++ rest) with (pat ++ rest).
    assert (∀ s, startsWith pat s = true
                 → splitFirst pat s = Some ([], drop (length pat) s)) as Hhere
      by (intros s Hs; destruct s; simpl; by rewrite Hs).
    by rewrite Hhere, drop_app_length by apply startsWith_app.
  - simpl in Hnot. apply orb_false_elim in Hnot as [Hhere Hlater].
    change ((c :: pre) ++ pat ++ rest) with (c :: (pre ++ pat ++ rest)).
    cbn [splitFirst].
    destruct (startsWith pat (c :: pre ++ pat ++ rest)) eqn:E.
    + exfalso.
      rewrite (app_removelast_last 0 Hpat) in E at 2.
      change (c :: pre ++ (removelast pat ++ [List.last pat 0]) ++ rest)
        with ((c :: pre) ++ (removelast pat ++ [List.last pat 0]) ++ rest) in E.
      rewrite <- (app_assoc (removelast pat)), (app_assoc (c :: pre)) in E.
      apply startsWith_shorter in E.
      * simpl in E. congruence.
      * simpl. rewrite length_app.
        pose proof (f_equal (@length _) (app_removelast_last 0 Hpat)) as Hl.
        rewrite length_app in Hl. simpl in Hl. lia.
    + by rewrite IH.
Qed.

Lemma expand_plain matched before after repl :
  DOLLAR ∉ repl → expand matched before after repl = repl.
Proof.
  induction repl as [|c r IH]; [done|]. intros [Hc Hr]%not_elem_of_cons.
  cbn [expand].
  assert ((c =? DOLLAR) = false) as -> by (apply N.eqb_neq; congruence).
  by rewrite IH.
Qed.

Lemma publicationsBlock_plain html :
  DOLLAR ∉ html → DOLLAR ∉ publicationsBlock html.
Proof.
  intros Hh. unfold publicationsBlock.
  rewrite !elem_of_app. intros [H|[H|[H|[H|[H|H]]]]]; try done;
    revert H; apply (bool_decide_unpack (DOLLAR ∉ _)); by vm_compute.
Qed.

Lemma updatedText_plain d : DOLLAR ∉ d → DOLLAR ∉ updatedText d.
Proof.
  intros Hd. unfold updatedText.
  rewrite !elem_of_app. intros [H|[H|H]]; try done;
    revert H; apply (bool_decide_unpack (DOLLAR ∉ _)); by vm_compute.
Qed.

Lemma replaceBlock_first pre old post repl :
  includes START_MARKER (pre ++ removelast START_MARKER) = false →
  includes END_MARKER (old ++ removelast END_MARKER) = false →
  replaceBlock repl (pre ++ START_MARKER ++ old ++ END_MARKER ++ post)
  = pre ++ expand (START_MARKER ++ old ++ END_MARKER) pre post repl ++ post.
Proof.
  intros Hs He. unfold replaceBlock, matchBlock.
  rewrite splitFirst_first by done.
  by rewrite splitFirst_first by done.
Qed.

Lemma markers_present pre old post :
  negb (includes START_MARKER
          (pre ++ START_MARKER ++ old ++ END_MARKER ++ post))
  || negb (includes END_MARKER
             (pre ++ START_MARKER ++ old ++ END_MARKER ++ post)) = false.
Proof.
  rewrite includes_occurs.
  replace (pre ++ START_MARKER ++ old ++ END_MARKER ++ post)
    with ((pre ++ START_MARKER ++ old) ++ END_MARKER ++ post)
    by (by rewrite <- !app_assoc).
  by rewrite includes_occurs.
Qed.

(** X26: on a page that holds the two publication markers in order and,
    behind them, the time-stamp marker, [updateIndex] replaces what stands
    between the first start marker and the first end marker behind it by the
    publications (which hold no [$]) and the time-stamp marker by the
    stamp, and leaves the rest of the page as it is. *)
Theorem updateIndex_page (pre old mid post html d : jsstring) :
  includes START_MARKER (pre ++ removelast START_MARKER) = false →
  includes END_MARKER (old ++ removelast END_MARKER) = false →
  includes LAST_UPDATED_MARKER
    (pre ++ publicationsBlock html ++ mid ++ removelast LAST_UPDATED_MARKER)
  = false →
  DOLLAR ∉ html → DOLLAR ∉ d →
  updateIndex
    (pre ++ START_MARKER ++ old ++ END_MARKER ++ mid
     ++ LAST_UPDATED_MARKER ++ post) d html
  = inr (pre ++ publicationsBlock html ++ mid ++ updatedText d ++ post).
Proof.
  intros Hs He Hl Hh Hd. unfold updateIndex.
  rewrite markers_present. cbv iota.
  rewrite replaceBlock_first by done.
  rewrite expand_plain by (by apply publicationsBlock_plain).
  unfold stampIndex.
  replace (pre ++ publicationsBlock html ++ mid ++ LAST_UPDATED_MARKER ++ post)
    with ((pre ++ publicationsBlock html ++ mid) ++ LAST_UPDATED_MARKER ++ post)
    by (by rewrite <- !app_assoc).
  rewrite includes_occurs. unfold replaceFirst.
  rewrite splitFirst_first; [|done|by rewrite <- !app_assoc].
  rewrite expand_plain by (by apply updatedText_plain).
  by rewrite <- !app_assoc.
Qed.

Lemma updateIndex_page_witness :
  updateIndex
    (js "<p>x</p><!-- PUBS:START -->old<!-- PUBS:END --><i><!-- LAST_UPDATED --></i>")
    (js "May 1, 2025") (js "<h3>2020</h3>")
  = inr (js "<p>x</p>" ++ publicationsBlock (js "<h3>2020</h3>")
         ++ js "<i>Site last updated on: May 1, 2025 (UTC)</i>").
Proof.
  refine (updateIndex_page (js "<p>x</p>") (js "old") (js "<i>")
            (js "</i>") (js "<h3>2020</h3>") (js "May 1, 2025") _ _ _ _ _);
    try (by vm_compute);
    apply (bool_decide_unpack (DOLLAR ∉ _)); by vm_compute.
Defined.

(** X27: when no end marker stands behind the first start marker (the
    markers are in the wrong order, say), [updateIndex] replaces nothing
    and does not report it: what it writes does not depend on the
    publications, and the earlier revision writes the page back as it
    was. *)
Theorem updateIndex_markers_out_of_order
    (pre rest d html html' : jsstring) :
  includes START_MARKER (pre ++ removelast START_MARKER) = false →
  includes END_MARKER rest = false →
  includes END_MARKER (pre ++ START_MARKER ++ rest) = true →
  updateIndex (pre ++ START_MARKER ++ rest) d html
  = updateIndex (pre ++ START_MARKER ++ rest) d html'
  ∧ updateIndex (pre ++ START_MARKER ++ rest) d html
    ≠ inl MissingPublicationMarkers
  ∧ LegacyIndex.updateIndex (pre ++ START_MARKER ++ rest) html
    = inr (pre ++ START_MARKER ++ rest).
Proof.
  intros Hs He Hend.
  assert (∀ repl, replaceBlock repl (pre ++ START_MARKER ++ rest)
                  = pre ++ START_MARKER ++ rest) as Hsame.
  { intros repl. unfold replaceBlock, matchBlock.
    rewrite splitFirst_first by done.
    apply includes_splitFirst in He. by rewrite He. }
  unfold updateIndex, LegacyIndex.updateIndex.
  rewrite includes_occurs, Hend, !Hsame. cbn [negb orb].
  split; [done|]. split; [|done].
  unfold stampIndex. by repeat destruct (includes _ _).
Qed.

Lemma updateIndex_markers_out_of_order_witness :
  updateIndex (js "<!-- PUBS:END --> <!-- PUBS:START --> <!-- LAST_UPDATED -->")
    (js "May 1, 2025") (js "<h3>2020</h3>")
  = updateIndex
      (js "<!-- PUBS:END --> <!-- PUBS:START --> <!-- LAST_UPDATED -->")
      (js "May 1, 2025") [].
Proof.
  refine (proj1 (updateIndex_markers_out_of_order (js "<!-- PUBS:END --> ")
                   (js " <!-- LAST_UPDATED -->") (js "May 1, 2025")
                   (js "<h3>2020</h3>") [] _ _ _));
    by vm_compute.
Defined.

(** *** Running the script again *)

Lemma updatedText_prefix d :
  updatedText d = UPDATED_PREFIX ++ Ch.space :: d ++ js " (UTC)".
Proof.
  unfold updatedText.
  change (js "Site last updated on: ") with (UPDATED_PREFIX ++ [Ch.space]).
  by rewrite <- app_assoc.
Qed.

Lemma replaceStamps_none fuel repl before rest :
  includes UPDATED_PREFIX rest = false →
  replaceStamps fuel repl before rest = rest.
Proof.
  intros Hnone%includes_splitFirst. destruct fuel; [done|]. simpl.
  by rewrite Hnone.
Qed.

(** X28: running [updateIndex] on its own output with the same publications
    and the same date changes nothing, provided the stamp is followed by a
    tag or ends the page, and the page holds no other stamp, no time-stamp
    marker and no second pair of markers in front. *)
Theorem updateIndex_rerun (pre mid post html d : jsstring) :
  let page := pre ++ publicationsBlock html ++ mid ++ updatedText d ++ post in
  includes START_MARKER (pre ++ removelast START_MARKER) = false →
  includes END_MARKER
    ([Ch.nl] ++ html ++ [Ch.nl] ++ js "        " ++ removelast END_MARKER)
  = false →
  includes LAST_UPDATED_MARKER page = false →
  includes UPDATED_PREFIX
    (pre ++ publicationsBlock html ++ mid ++ removelast UPDATED_PREFIX)
  = false →
  includes UPDATED_PREFIX post = false →
  Ch.lt ∉ d →
  match post with c :: _ => c = Ch.lt | [] => True end →
  DOLLAR ∉ html → DOLLAR ∉ d →
  updateIndex page d html = inr page.
Proof.
  intros page Hs He Hl Hp Hpost Hd Hnext Hh Hdd.
  assert (page = pre ++ START_MARKER
                 ++ ([Ch.nl] ++ html ++ [Ch.nl] ++ js "        ")
                 ++ END_MARKER ++ mid ++ updatedText d ++ post) as Hpage.
  { unfold page, publicationsBlock. by rewrite <- !app_assoc. }
  assert (page = (pre ++ publicationsBlock html ++ mid) ++ UPDATED_PREFIX
                 ++ (Ch.space :: d ++ js " (UTC)") ++ post) as Hstamp.
  { unfold page. rewrite updatedText_prefix. by rewrite <- !app_assoc. }
  assert (negb (includes START_MARKER page)
          || negb (includes END_MARKER page) = false) as Hmarkers.
  { rewrite Hpage. apply markers_present. }
  assert (replaceBlock (publicationsBlock html) page = page) as Hblock.
  { rewrite Hpage. rewrite replaceBlock_first by (by rewrite <- ?app_assoc).
    rewrite expand_plain by (by apply publicationsBlock_plain).
    unfold publicationsBlock. by rewrite <- !app_assoc. }
  assert (includes UPDATED_PREFIX page = true) as Hprefix.
  { rewrite Hstamp. apply includes_occurs. }
  assert (∀ fuel, replaceStamps (S fuel) (updatedText d) [] page = page)
    as Hstamps.
  { intros fuel. rewrite Hstamp. cbn [replaceStamps].
    rewrite splitFirst_first; [|done|by rewrite <- !app_assoc].
    assert (Forall (λ c, notLt c = true) (Ch.space :: d ++ js " (UTC)"))
      as Hrun.
    { constructor; [done|]. apply Forall_app. split.
      - apply Forall_forall. intros c Hc. unfold notLt.
        apply negb_true_iff, N.eqb_neq. by intros ->.
      - by repeat constructor. }
    rewrite takeWhile_app, skipWhile_app by done.
    assert (takeWhile notLt post = [] ∧ skipWhile notLt post = post)
      as [-> ->].
    { destruct post as [|c r]; [done|]. simpl in Hnext. subst c. done. }
    rewrite app_nil_r, replaceStamps_none by done.
    rewrite expand_plain by (by apply updatedText_plain).
    rewrite updatedText_prefix. by rewrite <- !app_assoc. }
  unfold updateIndex. rewrite Hmarkers, Hblock. cbv iota.
  unfold stampIndex. rewrite Hl, Hprefix. f_equal.
  destruct (length page) as [|n] eqn:Elen; [|apply Hstamps].
  by destruct page.
Qed.

Lemma updateIndex_rerun_witness :
  updateIndex
    (js "<p>" ++ publicationsBlock (js "<h3>2020</h3>") ++ js "<i>"
     ++ updatedText (js "May 1, 2025") ++ js "</i>")
    (js "May 1, 2025") (js "<h3>2020</h3>")
  = inr (js "<p>" ++ publicationsBlock (js "<h3>2020</h3>") ++ js "<i>"
         ++ updatedText (js "May 1, 2025") ++ js "</i>").
Proof.
  refine (updateIndex_rerun (js "<p>") (js "<i>") (js "</i>")
            (js "<h3>2020</h3>") (js "May 1, 2025") _ _ _ _ _ _ _ _ _);
    try (by vm_compute);
    apply (bool_decide_unpack (_ ∉ _)); by vm_compute.
Defined.

(** X29: the replacement of the stamps of earlier runs ends: every match
    consumes the prefix at least, so as many rounds as the text has units
    are never used up, and more rounds change nothing. *)
Theorem replaceStamps_terminates (repl before rest : jsstring) (fuel : nat) :
  (length rest ≤ fuel)%nat →
  replaceStamps fuel repl before rest
  = replaceStamps (length rest) repl before rest.
Proof.
  remember (length rest) as n eqn:Hn. intros Hle.
  assert (length rest ≤ n)%nat as Hlen by lia. clear Hn.
  revert fuel before rest Hle Hlen.
  induction n as [|n IH]; intros fuel before rest Hle Hlen.
  - destruct rest; [|simpl in Hlen; lia]. by destruct fuel.
  - destruct fuel as [|fuel]; [lia|]. cbn [replaceStamps].
    destruct (splitFirst UPDATED_PREFIX rest) as [[pre r]|] eqn:E; [|done].
    do 2 f_equal. apply IH; [lia|].
    apply splitFirst_spec in E. subst rest. rewrite !length_app in Hlen.
    change (length UPDATED_PREFIX) with 21%nat in Hlen.
    pose proof (skipWhile_length notLt r). lia.
Qed.

Lemma replaceStamps_terminates_witness :
  replaceStamps 100 (js "Site last updated on: now") []
    (js "<i>Site last updated on: then</i> Site last updated on: x")
  = js "<i>Site last updated on: now</i> Site last updated on: now".
Proof.
  rewrite (replaceStamps_terminates (js "Site last updated on: now") []
             (js "<i>Site last updated on: then</i> Site last updated on: x")
             100).
  - by vm_compute.
  - vm_compute. lia.
Defined.

Lemma expand_reference matched before after h1 h2 :
  DOLLAR ∉ h1 →
  expand matched before after (h1 ++ [DOLLAR; Ch.amp] ++ h2)
  = h1 ++ matched ++ expand matched before after h2.
Proof.
  induction h1 as [|c r IH]; [done|]. intros [Hc Hr]%not_elem_of_cons.
  change ((c :: r) ++ ?x) with (c :: (r ++ x)). cbn [expand].
  assert ((c =? DOLLAR) = false) as -> by (apply N.eqb_neq; congruence).
  by rewrite IH.
Qed.

(** X30: a [$&] in the publications is not written as it stands: the block
    that is being replaced is put in its place.  ([$&] is what [escapeHtml]
    makes of a dollar sign in front of [&], [<], [>] or a double quote.) *)
Theorem updateIndex_dollar_reference (pre old post h1 h2 d : jsstring) :
  includes START_MARKER (pre ++ removelast START_MARKER) = false →
  includes END_MARKER (old ++ removelast END_MARKER) = false →
  DOLLAR ∉ h1 → DOLLAR ∉ h2 →
  let index := pre ++ START_MARKER ++ old ++ END_MARKER ++ post in
  let written :=
    pre ++ START_MARKER ++ [Ch.nl] ++ h1
    ++ (START_MARKER ++ old ++ END_MARKER)
    ++ h2 ++ [Ch.nl] ++ js "        " ++ END_MARKER ++ post in
  LegacyIndex.updateIndex index (h1 ++ [DOLLAR; Ch.amp] ++ h2) = inr written
  ∧ updateIndex index d (h1 ++ [DOLLAR; Ch.amp] ++ h2) = stampIndex written d
  ∧ (∀ c, c ∈ [Ch.amp; Ch.lt; Ch.gt; Ch.dquote] →
          startsWith [DOLLAR; Ch.amp] (escapeHtml [DOLLAR; c]) = true).
Proof.
  intros Hs He H1 H2 index written.
  assert (replaceBlock (publicationsBlock (h1 ++ [DOLLAR; Ch.amp] ++ h2)) index
          = written) as Hblock.
  { unfold index. rewrite replaceBlock_first by done.
    unfold publicationsBlock.
    replace (START_MARKER ++ [Ch.nl] ++ (h1 ++ [DOLLAR; Ch.amp] ++ h2)
             ++ [Ch.nl] ++ js "        " ++ END_MARKER)
      with ((START_MARKER ++ [Ch.nl] ++ h1) ++ [DOLLAR; Ch.amp]
            ++ (h2 ++ [Ch.nl] ++ js "        " ++ END_MARKER))
      by (by rewrite <- !app_assoc).
    rewrite expand_reference, expand_plain.
    - unfold written. by rewrite <- !app_assoc.
    - rewrite !elem_of_app. intros [H|[H|[H|H]]]; try done;
        revert H; apply (bool_decide_unpack (DOLLAR ∉ _)); by vm_compute.
    - rewrite !elem_of_app. intros [H|[H|H]]; try done;
        revert H; apply (bool_decide_unpack (DOLLAR ∉ _)); by vm_compute. }
  assert (negb (includes START_MARKER index)
          || negb (includes END_MARKER index) = false) as Hmarkers
    by apply markers_present.
  unfold LegacyIndex.updateIndex, updateIndex.
  rewrite Hmarkers, Hblock. split; [done|]. split; [done|].
  intros c Hc. repeat (apply elem_of_cons in Hc as [->|Hc]; [by vm_compute|]).
  by apply elem_of_nil in Hc.
Qed.

Lemma updateIndex_dollar_reference_witness :
  LegacyIndex.updateIndex (js "<!-- PUBS:START -->old<!-- PUBS:END -->")
    (js "a $&gt; b")
  = inr (js "<!-- PUBS:START -->" ++ [Ch.nl]
         ++ js "a <!-- PUBS:START -->old<!-- PUBS:END -->gt; b" ++ [Ch.nl]
         ++ js "        <!-- PUBS:END -->").
Proof.
  refine (proj1 (updateIndex_dollar_reference [] (js "old") [] (js "a ")
                   (js "gt; b") [] _ _ _ _));
    try (by vm_compute);
    apply (bool_decide_unpack (_ ∉ _)); by vm_compute.
Defined.

(** ** buildVenue *)

Ltac venue_fields :=
  repeat match goal with
         | H : Forall _ (_ :: _) |- _ =>
             let E := fresh "E" in apply Forall_cons_1 in H as [E H];
             try rewrite E
         end.

Ltac split_fields :=
  repeat match goal with
         | |- context [field ?f ?n] =>
             let c := fresh "c" in let r := fresh "r" in
             destruct (field f n) as [|c r] eqn:?
         end.

(** X17: the venue of an entry is empty when the entry has none of the
    fields that [buildVenue] reads for its type, and, except for patents
    (whose status may format to nothing), only then. *)
Theorem buildVenue_empty `{Host} (entry : Entry) :
  (Forall (λ n, field (fields entry) n = []) (venueFields (type entry)) →
   buildVenue entry = [])
  ∧ (type entry ≠ js "patent" → buildVenue entry = [] →
     Forall (λ n, field (fields entry) n = []) (venueFields (type entry))).
Proof.
  unfold buildVenue, venueFields. cbv zeta.
  destruct (decide (type entry = js "article"));
    [|destruct (decide (type entry = js "inproceedings"));
      [|destruct (decide (type entry = js "patent"));
        [|destruct (bool_decide (type entry = js "phdthesis")
                    || bool_decide (type entry = js "mastersthesis"));
          [|destruct (decide (type entry = js "unpublished"))]]]].
  - split.
    + intros Hall. venue_fields. done.
    + intros _. split_fields; intros Hv; try discriminate Hv;
        repeat constructor; assumption.
  - split.
    + intros Hall. venue_fields. done.
    + intros _. split_fields; intros Hv; try discriminate Hv;
        repeat constructor; assumption.
  - split; [|done].
    intros Hall. venue_fields. done.
  - split.
    + intros Hall. venue_fields. done.
    + intros _. split_fields; intros Hv; try discriminate Hv;
        repeat constructor; assumption.
  - split.
    + intros Hall. venue_fields. done.
    + intros _. split_fields; intros Hv; try discriminate Hv;
        repeat constructor; assumption.
  - split.
    + intros Hall. venue_fields. done.
    + intros _. split_fields; intros Hv; try discriminate Hv;
        repeat constructor; assumption.
Qed.

(** ** The generated markup *)

Lemma fromTemplate_nil : fromTemplate [].
Proof. exists []. by split. Qed.

Lemma fromTemplate_app a b :
  fromTemplate a → fromTemplate b → fromTemplate (a ++ b).
Proof.
  intros (fa & -> & Ha) (fb & -> & Hb). exists (fa ++ fb). split.
  - by rewrite concat_app.
  - by apply Forall_app.
Qed.

Lemma fromTemplate_literal f : f ∈ TEMPLATE_FRAGMENTS → fromTemplate f.
Proof.
  intros Hf. exists [f]. split; [by rewrite <- app_nil_r at 1|].
  constructor; [by left|constructor].
Qed.

Lemma fromTemplate_text f : markupFree f = true → fromTemplate f.
Proof.
  intros Hf. exists [f]. split; [by rewrite <- app_nil_r at 1|].
  constructor; [by right|constructor].
Qed.

Lemma fromTemplate_join sep l :
  fromTemplate sep → Forall fromTemplate l → fromTemplate (join sep l).
Proof.
  intros Hsep Hl. destruct Hl as [|x l Hx Hl]; [apply fromTemplate_nil|].
  rewrite join_cons. apply fromTemplate_app; [done|].
  induction Hl as [|y l Hy _ IH]; [apply fromTemplate_nil|].
  cbn [concat map]. rewrite <- app_assoc.
  by repeat apply fromTemplate_app.
Qed.

Ltac template_literal :=
  first
    [ apply fromTemplate_literal;
      apply (bool_decide_unpack (_ ∈ TEMPLATE_FRAGMENTS)); by vm_compute
    | apply fromTemplate_text; by vm_compute ].

Ltac template :=
  repeat match goal with
         | H : fromTemplate ?s |- fromTemplate ?s => exact H
         | |- fromTemplate (_ ++ _) => apply fromTemplate_app
         | |- fromTemplate (escapeHtml _) =>
             apply fromTemplate_text, escapeHtml_markupFree
         | |- fromTemplate [] => apply fromTemplate_nil
         | |- fromTemplate (js _) => template_literal
         | |- fromTemplate (jsq _) => template_literal
         | |- fromTemplate [Ch.nl] => template_literal
         end.

Section Template.
Context `{Host}.

Lemma formatPerson_template person : fromTemplate (formatPerson person).
Proof.
  unfold formatPerson.
  destruct (if bool_decide (Ch.comma ∈ person) then _ else _) as [first last].
  cbv zeta. destruct (_ && _); template.
Qed.

Lemma normalizeAuthorList_template authorField :
  fromTemplate (normalizeAuthorList authorField).
Proof.
  unfold normalizeAuthorList.
  destruct (negb (truthy authorField)); [apply fromTemplate_nil|].
  apply fromTemplate_join; [template|].
  apply Forall_forall. intros s Hs.
  change (map formatPerson ?l) with (formatPerson <$> l) in Hs.
  apply list_elem_of_fmap in Hs as (person & -> & _).
  apply formatPerson_template.
Qed.

Lemma linkHtml_template link : fromTemplate (linkHtml link).
Proof. unfold linkHtml. template. Qed.

Lemma entryLines_template entry : Forall fromTemplate (entryLines entry).
Proof.
  unfold entryLines. cbv zeta.
  pose proof (normalizeAuthorList_template (field (fields entry) "author"))
    as Hauthors.
  assert (fromTemplate (join (js " ") (map linkHtml (buildLinks entry))))
    as Hlinks.
  { apply fromTemplate_join; [template|].
    apply Forall_forall. intros s Hs.
    change (map linkHtml ?l) with (linkHtml <$> l) in Hs.
    apply list_elem_of_fmap in Hs as (link & -> & _).
    apply linkHtml_template. }
  repeat apply Forall_app_2.
  - constructor; [template|constructor].
  - constructor; [|constructor]. destruct (truthy _); template.
  - destruct (truthy _); [|constructor].
    constructor; [template|constructor].
  - destruct (_ || _); [|constructor].
    constructor; [template|constructor].
  - constructor; [template|constructor].
Qed.

Lemma Forall_flat_map {A B} (P : B → Prop) (f : A → list B) l :
  (∀ x, Forall P (f x)) → Forall P (flat_map f l).
Proof.
  intros Hf. induction l as [|x l IH]; simpl; [constructor|].
  by apply Forall_app_2.
Qed.

(** X13: whatever the entries hold, the markup of the block that
    [generatePublicationHtml] returns comes from the templates alone: the
    returned text is put together from the literal fragments of the templates
    and from text that holds no [<], no [>] and no double quote.  (This
    concerns the returned block; [updateIndex] expands a [$] pattern of the
    block when it writes the page.) *)
Theorem generatePublicationHtml_template (entries : list Entry) :
  fromTemplate (generatePublicationHtml entries).
Proof.
  unfold generatePublicationHtml.
  apply fromTemplate_join; [template|].
  apply Forall_flat_map. intros [year cats]. unfold yearLines.
  cbn [fst snd]. constructor; [template|].
  apply Forall_flat_map. intros [label bucket]. unfold categoryLines.
  cbn [fst snd]. constructor; [template|].
  apply Forall_flat_map. apply entryLines_template.
Qed.
End Template.
